(** * monoalign: the alignment-matching engine of [src/model/simalign.py]

    A shallow embedding of the [Simalign] class and a verification of the
    properties its specification states about it.

    Conventions of the embedding:
    - a Python [float] / numpy [float64] scalar is an IEEE 754 binary64 value,
      modelled by [spec_float] with precision 53 and exponent bound 1024;
      single-precision arrays are read at that precision too, and sums run
      left to right (nothing proved below depends on either choice);
    - a two-dimensional [ndarray] is the list of its rows;
    - a raised exception is the [Raise] outcome of [result];
    - code that mutates an array it was handed, allocates one, or talks to the
      embedding provider runs in the monad [M] over a [world] made of a heap
      of arrays and of the trace of provider calls;
    - the embedding provider and the numeric libraries (torch, sklearn,
      networkx) are interfaces: type classes whose methods the code calls. *)

From Stdlib Require Import ZArith List Bool Lia Ascii.
From Stdlib Require Import Floats.SpecFloat Sorting.Sorted.
From stdpp Require Import base option list strings pretty gmap.

Set Default Proof Using "Type".

(** ** Python outcomes *)

Module Py.

Inductive exn : Type :=
  | IndexError
  | KeyError (key : string)
  | ValueError
  | OSError
  | Stuck.   (* no Python exception: a loop of the embedding out of fuel, or a
                dangling array reference; shown unreachable where it matters *)

Inductive result (A : Type) : Type :=
  | Ok (a : A)
  | Raise (e : exn).
Arguments Ok {A} a.
Arguments Raise {A} e.

Definition rbind {A B} (m : result A) (k : A -> result B) : result B :=
  match m with
  | Ok a => k a
  | Raise e => Raise e
  end.

(** [l[i]] for a non-negative index. *)
Definition getitem {A} (l : list A) (i : nat) : result A :=
  match l !! i with
  | Some a => Ok a
  | None => Raise IndexError
  end.

(** [l[-1]]. *)
Definition getlast {A} (l : list A) : result A :=
  match last l with
  | Some a => Ok a
  | None => Raise IndexError
  end.

(** [[f(x) for x in l]] where [f] may raise: the first exception wins. *)
Fixpoint mapR {A B} (f : A -> result B) (l : list A) : result (list B) :=
  match l with
  | [] => Ok []
  | x :: l' =>
      rbind (f x) (fun y => rbind (mapR f l') (fun ys => Ok (y :: ys)))
  end.

(** A running loop [for x in l: acc = body(acc, x)]. *)
Fixpoint foldR {A S} (body : S -> A -> result S) (l : list A) (acc : S)
  : result S :=
  match l with
  | [] => Ok acc
  | x :: l' => rbind (body acc x) (foldR body l')
  end.

End Py.
Export Py.

Notation "'let?' x := m 'in' k" := (rbind m (fun x => k))
  (at level 10, x pattern, m at level 100, k at level 200).

(** ** Floating-point scalars *)

Abbreviation float := spec_float.

Module Float.

Definition prec : Z := 53.
Definition emax : Z := 1024.

Definition add : float -> float -> float := SFadd prec emax.
Definition sub : float -> float -> float := SFsub prec emax.
Definition mul : float -> float -> float := SFmul prec emax.
Definition div : float -> float -> float := SFdiv prec emax.
Definition sqrt : float -> float := SFsqrt prec emax.

(** [float(z)] for an integer [z]. *)
Definition of_Z (z : Z) : float := binary_normalize prec emax z 0 false.
Definition of_nat (n : nat) : float := of_Z (Z.of_nat n).

Definition zero : float := S754_zero false.
Definition one : float := Eval vm_compute in of_Z 1.
Definition two : float := Eval vm_compute in of_Z 2.
(** The literals [0.5] and [0.9]: the doubles nearest to 1/2 and 9/10. *)
Definition half : float := Eval vm_compute in div (of_Z 1) (of_Z 2).
Definition nine_tenths : float := Eval vm_compute in div (of_Z 9) (of_Z 10).

Definition eqb : float -> float -> bool := SFeqb.
Definition ltb : float -> float -> bool := SFltb.
Definition leb : float -> float -> bool := SFleb.
(** [a > b] and [a >= b]. *)
Definition gtb (a b : float) : bool := SFltb b a.
Definition geb (a b : float) : bool := SFleb b a.

Definition is_nan (x : float) : bool :=
  match x with S754_nan => true | _ => false end.

(** [numpy.isfinite]. *)
Definition is_finite (x : float) : bool :=
  match x with
  | S754_zero _ | S754_finite _ _ _ => true
  | S754_infinity _ | S754_nan => false
  end.

(** numpy's [maximum] and [minimum] inner loops:
    [(a >= b || isnan(a)) ? a : b] and [(a <= b || isnan(a)) ? a : b]. *)
Definition maximum (a b : float) : float :=
  if geb a b || is_nan a then a else b.
Definition minimum (a b : float) : float :=
  if leb a b || is_nan a then a else b.

(** [x.clip(lo, hi)] on one scalar: [minimum(maximum(x, lo), hi)]. *)
Definition clip (lo hi x : float) : float := minimum (maximum x lo) hi.

End Float.

(** ** numpy arrays *)

(** A vector is a one-dimensional array, a matrix the list of its rows.
    The shape of a matrix is (number of rows, length of the first row);
    every matrix numpy builds is rectangular. *)
Abbreviation vec := (list float).
Abbreviation ndarray := (list (list float)).

Module Np.

Definition shape0 (a : ndarray) : nat := length a.
Definition shape1 (a : ndarray) : nat :=
  match a with
  | [] => 0
  | r :: _ => length r
  end.

Definition rectangular (a : ndarray) : Prop :=
  Forall (fun r => length r = shape1 a) a.

(** [a[i, j]]. *)
Definition cell (a : ndarray) (i j : nat) : option float :=
  match a !! i with
  | Some r => r !! j
  | None => None
  end.

Definition getcell (a : ndarray) (i j : nat) : result float :=
  match cell a i j with
  | Some v => Ok v
  | None => Raise IndexError
  end.

Definition full (m n : nat) (v : float) : ndarray := replicate m (replicate n v).
Definition zeros (m n : nat) : ndarray := full m n Float.zero.
Definition ones (m n : nat) : ndarray := full m n Float.one.
Definition zeros_like (a : ndarray) : ndarray := map (map (fun _ => Float.zero)) a.

(** Row [i] of [np.eye(n)]. *)
Definition one_hot (n i : nat) : vec :=
  map (fun j => if Nat.eqb i j then Float.one else Float.zero) (seq 0 n).
Definition eye (n : nat) : ndarray := map (one_hot n) (seq 0 n).

(** [a[idx]] for a list of row indices. *)
Definition take {A} (a : list A) (idx : list nat) : result (list A) :=
  mapR (getitem a) idx.

Definition transpose (a : ndarray) : ndarray :=
  map (fun j => map (fun r => default Float.zero (r !! j)) a) (seq 0 (shape1 a)).

(** Element-wise operations; two operands have the same shape. *)
Definition map1 (f : float -> float) (a : ndarray) : ndarray := map (map f) a.
Definition map2 (f : float -> float -> float) (a b : ndarray) : ndarray :=
  zip_with (zip_with f) a b.

(** [np.max(a)] and [np.min(a)] over all cells; a zero-size array has no
    maximum. *)
Definition reduce (f : float -> float -> float) (l : vec) : result float :=
  match l with
  | [] => Raise ValueError
  | x :: l' => Ok (fold_left f l' x)
  end.
Definition max (a : ndarray) : result float := reduce Float.maximum (concat a).
Definition min (a : ndarray) : result float := reduce Float.minimum (concat a).

(** [argmax] of a vector: the first index of the maximum, a NaN counting as
    the maximum.  The loop is numpy's: start at index 0 and move to [i] when
    [not (v[i] <= best)], stopping at a NaN. *)
Fixpoint argmax_from (l : vec) (i : nat) (best : float) (besti : nat) : nat :=
  match l with
  | [] => besti
  | v :: l' =>
      if Float.is_nan best then besti
      else if negb (Float.leb v best) then argmax_from l' (S i) v i
      else argmax_from l' (S i) best besti
  end.
Definition argmax (l : vec) : result nat :=
  match l with
  | [] => Raise ValueError
  | v :: l' => Ok (argmax_from l' 1 v 0)
  end.

(** [a.argmax(axis=1)] and [a.argmax(axis=0)]. *)
Definition argmax_axis1 (a : ndarray) : result (list nat) := mapR argmax a.
Definition argmax_axis0 (a : ndarray) : result (list nat) :=
  match a with
  | [] => Raise ValueError
  | _ => mapR argmax (transpose a)
  end.

(** Sums: [a.sum(1)], [a.sum(0)] and [a.sum()], accumulated left to right. *)
Definition sum_vec (l : vec) : float := fold_left Float.add l Float.zero.
Definition sum_axis1 (a : ndarray) : vec := map sum_vec a.
Definition sum_axis0 (a : ndarray) : vec := map sum_vec (transpose a).
Definition sum (a : ndarray) : float := sum_vec (concat a).

(** [np.tile(v[:, np.newaxis], (1, n))] and [np.tile(v[np.newaxis, :], (m, 1))]. *)
Definition tile_cols (v : vec) (n : nat) : ndarray := map (replicate n) v.
Definition tile_rows (v : vec) (m : nat) : ndarray := replicate m v.

(** [np.array_equal(a, b)]: same shape and all cells equal ([NaN] differs
    from itself). *)
Definition vec_equal (u v : vec) : bool :=
  Nat.eqb (length u) (length v) && forallb (fun p => Float.eqb p.1 p.2) (zip u v).
Definition array_equal (a b : ndarray) : bool :=
  Nat.eqb (length a) (length b) && forallb (fun p => vec_equal p.1 p.2) (zip a b).

(** The first [(x, y)], in row-major order, of [np.where(a == v)]. *)
Definition find_in_row (v : float) (r : vec) : option nat :=
  fst <$> list_find (fun c => Float.eqb c v = true) r.
Fixpoint where_first_from (v : float) (a : ndarray) (i : nat) : option (nat * nat) :=
  match a with
  | [] => None
  | r :: a' =>
      match find_in_row v r with
      | Some j => Some (i, j)
      | None => where_first_from v a' (S i)
      end
  end.
Definition where_first (v : float) (a : ndarray) : result (nat * nat) :=
  match where_first_from v a 0 with
  | Some xy => Ok xy
  | None => Raise IndexError
  end.

(** In-place assignments, as functions of the array's contents:
    [a[x][y] = v], [a[i] = v] and [a[:, j] = v]. *)
Definition set_cell (a : ndarray) (x y : nat) (v : float) : result ndarray :=
  match a !! x with
  | Some r => if decide (y < length r) then Ok (<[x := <[y := v]> r]> a)
              else Raise IndexError
  | None => Raise IndexError
  end.
Definition set_row (a : ndarray) (i : nat) (v : float) : result ndarray :=
  match a !! i with
  | Some r => Ok (<[i := map (fun _ => v) r]> a)
  | None => Raise IndexError
  end.
Definition set_col (a : ndarray) (j : nat) (v : float) : result ndarray :=
  if decide (j < shape1 a) then Ok (map (fun r => <[j := v]> r) a)
  else Raise IndexError.

(** An integer index into an axis of length [len]: negative indices count
    from the end. *)
Definition norm_index (len : nat) (i : Z) : result nat :=
  if decide (0 <= i < Z.of_nat len)%Z then Ok (Z.to_nat i)
  else if decide (- Z.of_nat len <= i < 0)%Z then Ok (Z.to_nat (i + Z.of_nat len))
  else Raise IndexError.
Definition set_cell_Z (a : ndarray) (x y : Z) (v : float) : result ndarray :=
  let? x' := norm_index (shape0 a) x in
  let? y' := norm_index (shape1 a) y in
  set_cell a x' y' v.

End Np.

(** ** The world: a heap of arrays and the trace of provider calls *)

Module World.

Inductive event : Type :=
  | LoadModel (model : string)        (* [from_pretrained(model)] *)
  | Embed (batch : list string).      (* [get_embed_list(batch)] *)

Record world : Type := MkWorld {
  heap : list ndarray;
  trace : list event
}.

Definition empty : world := MkWorld [] [].

Definition ref : Type := nat.

Definition M (A : Type) : Type := world -> result A * world.

Definition ret {A} (a : A) : M A := fun w => (Ok a, w).
Definition raise {A} (e : exn) : M A := fun w => (Raise e, w).
Definition bind {A B} (m : M A) (k : A -> M B) : M B :=
  fun w =>
    match m w with
    | (Ok a, w') => k a w'
    | (Raise e, w') => (Raise e, w')
    end.
Definition lift {A} (r : result A) : M A := fun w => (r, w).

Definition set_heap (r : ref) (a : ndarray) (w : world) : world :=
  MkWorld (<[r := a]> (heap w)) (trace w).

(** A new array object. *)
Definition alloc (a : ndarray) : M ref :=
  fun w => (Ok (length (heap w)), MkWorld (heap w ++ [a]) (trace w)).
(** The contents of an array object. *)
Definition load (r : ref) : M ndarray :=
  fun w =>
    match heap w !! r with
    | Some a => (Ok a, w)
    | None => (Raise Stuck, w)
    end.
Definition store (r : ref) (a : ndarray) : M unit :=
  fun w => (Ok tt, set_heap r a w).
Definition emit (e : event) : M unit :=
  fun w => (Ok tt, MkWorld (heap w) (trace w ++ [e])).

(** [for x in l: body(x)]. *)
Fixpoint for_ {A} (l : list A) (body : A -> M unit) : M unit :=
  match l with
  | [] => ret tt
  | x :: l' => bind (body x) (fun _ => for_ l' body)
  end.

(** [[f(x) for x in l]] with effects. *)
Fixpoint mapW {A B} (f : A -> M B) (l : list A) : M (list B) :=
  match l with
  | [] => ret []
  | x :: l' => bind (f x) (fun y => bind (mapW f l') (fun ys => ret (y :: ys)))
  end.

(** A running loop [for x in l: acc = body(acc, x)] with effects. *)
Fixpoint foldW {A S} (body : S -> A -> M S) (l : list A) (acc : S) : M S :=
  match l with
  | [] => ret acc
  | x :: l' => bind (body acc x) (foldW body l')
  end.

End World.
Export World.

Notation "'let*' x := m 'in' k" := (bind m (fun x => k))
  (at level 10, x pattern, m at level 100, k at level 200).
Notation "m ;; k" := (bind m (fun _ => k))
  (at level 100, k at level 200, right associativity).

(** [enumerate(l)]. *)
Definition enumerate {A} (l : list A) : list (nat * A) := zip (seq 0 (length l)) l.

(** ** Python built-ins used by the class *)

Module Builtins.

(** [sorted(l, key=key)]: a stable sort, by insertion. *)
Section Sorted.
Context {A K : Type} (le : K -> K -> bool) (key : A -> K).

Fixpoint insert_sorted (x : A) (l : list A) : list A :=
  match l with
  | [] => [x]
  | y :: l' =>
      if le (key x) (key y) then x :: y :: l' else y :: insert_sorted x l'
  end.

Definition sorted (l : list A) : list A := foldr insert_sorted [] l.
End Sorted.

(** The order of [str]: by code point, then by length. *)
Definition sorted_str : list string -> list string := sorted String.leb id.

(** The order of a pair of integers. *)
Definition pair_le (p q : nat * nat) : bool :=
  (p.1 <? q.1) || ((p.1 =? q.1) && (p.2 <=? q.2)).

(** [' '.join(l)]. *)
Definition join_space (l : list string) : string := String.concat " " l.

(** [s.split()]: the maximal runs of non-whitespace characters.  A
    character of a string is a code point below 256; of these [str.isspace]
    holds for U+0009 to U+000D, U+001C to U+0020, U+0085 (next line) and
    U+00A0 (no-break space). *)
Definition is_space (c : Ascii.ascii) : bool :=
  let n := Ascii.nat_of_ascii c in
  ((9 <=? n) && (n <=? 13)) || ((28 <=? n) && (n <=? 32)) ||
  (n =? 133) || (n =? 160).

Fixpoint split_ws (s : string) (cur : option string) : list string :=
  match s with
  | EmptyString =>
      match cur with
      | Some w => [w]
      | None => []
      end
  | String c s' =>
      if is_space c then
        match cur with
        | Some w => w :: split_ws s' None
        | None => split_ws s' None
        end
      else split_ws s' (Some (default "" cur +:+ String c ""))
  end.
Definition str_split (s : string) : list string := split_ws s None.

(** [s.split(sep)] for a one-character separator: one piece more than there
    are separators. *)
Fixpoint split_on (sep : Ascii.ascii) (s : string) (cur : string) : list string :=
  match s with
  | EmptyString => [cur]
  | String c s' =>
      if Ascii.eqb c sep then cur :: split_on sep s' ""
      else split_on sep s' (cur +:+ String c "")
  end.

(** [int(s)] on a string of decimal digits, the only strings the class
    hands to it; anything else is a [ValueError] here. *)
Definition digit (c : Ascii.ascii) : option nat :=
  let n := Ascii.nat_of_ascii c in
  if (48 <=? n) && (n <=? 57) then Some (n - 48) else None.
Fixpoint int_digits (s : string) (acc : nat) : option nat :=
  match s with
  | EmptyString => Some acc
  | String c s' =>
      match digit c with
      | Some d => int_digits s' (10 * acc + d)
      | None => None
      end
  end.
Definition int (s : string) : result nat :=
  match s with
  | EmptyString => Raise ValueError
  | _ => match int_digits s 0 with
         | Some n => Ok n
         | None => Raise ValueError
         end
  end.

(** ['{}-{}'.format(i, j)]. *)
Definition format_link (i j : nat) : string := pretty i +:+ "-" +:+ pretty j.

(** [needle in s] on strings. *)
Definition contains (needle s : string) : bool :=
  match String.index 0 needle s with
  | Some _ => true
  | None => false
  end.

(** [sorted(l, key=lambda x: (int(x.split('-')[0]), int(x.split('-')[1])))]:
    the keys are computed first, then the list is sorted on them. *)
Definition link_key (x : string) : result (nat * nat) :=
  let parts := split_on "-"%char x "" in
  let? a := getitem parts 0 in
  let? a := int a in
  let? b := getitem parts 1 in
  let? b := int b in
  Ok (a, b).
Definition sorted_links (l : list string) : result (list string) :=
  let? keyed := mapR (fun x => let? k := link_key x in Ok (k, x)) l in
  Ok (map snd (sorted pair_le fst keyed)).

(** [torch.utils.data.DataLoader(ds, batch_size, shuffle=False)]: the
    dataset in consecutive batches. *)
Fixpoint batches_from {A} (n : nat) (cur l : list A) : list (list A) :=
  match l with
  | [] => match cur with
          | [] => []
          | _ => [cur]
          end
  | x :: l' =>
      if length (cur ++ [x]) =? n then (cur ++ [x]) :: batches_from n [] l'
      else batches_from n (cur ++ [x]) l'
  end.
Definition DataLoader {A} (ds : list A) (batch_size : nat) : result (list (list A)) :=
  if batch_size =? 0 then Raise ValueError else Ok (batches_from batch_size [] ds).

(** A [dict] with string keys, in insertion order. *)
Definition dict (V : Type) : Type := list (string * V).

Fixpoint dict_get {V} (d : dict V) (k : string) : option V :=
  match d with
  | [] => None
  | (k', v) :: d' => if String.eqb k k' then Some v else dict_get d' k
  end.

(** [d[k] = f(d[k])] on a [defaultdict] with default [dflt]. *)
Fixpoint dict_update {V} (dflt : V) (f : V -> V) (d : dict V) (k : string) : dict V :=
  match d with
  | [] => [(k, f dflt)]
  | (k', v) :: d' =>
      if String.eqb k k' then (k', f v) :: d'
      else (k', v) :: dict_update dflt f d' k
  end.

(** [d[k]] on a plain [dict]. *)
Definition dict_getitem {V} (d : dict V) (k : string) : result V :=
  match dict_get d k with
  | Some v => Ok v
  | None => Raise (KeyError k)
  end.

Definition keys {V} (d : dict V) : list string := map fst d.

(** [set.add]. *)
Definition set_add (x : string) (s : list string) : list string :=
  if bool_decide (x ∈ s) then s else s ++ [x].

(** [l.index(x)]. *)
Definition index_of (x : nat) (l : list nat) : result nat :=
  match list_find (fun y => y = x) l with
  | Some (i, _) => Ok i
  | None => Raise ValueError
  end.

(** [range(a, b)]. *)
Definition range (a b : nat) : list nat := seq a (b - a).

End Builtins.
Export Builtins.

(** ** The interfaces the class calls *)

Module Ext.

(** An [EmbeddingLoader] object: what it was built from. *)
Record EmbeddingLoader : Type := MkLoader {
  el_model : string;
  el_device : string;
  el_layer : nat
}.

(** A batch of per-token embedding vectors: sentence, token, dimension. *)
Abbreviation tensor := (list (list (list float))).

(** The embedding provider: torch devices, pretrained models and their
    tokenizers. *)
Class Provider : Type := {
  torch_device : string -> result string;
  from_pretrained : string -> result unit;
  tokenize : EmbeddingLoader -> string -> list string;
  embed : EmbeddingLoader -> list string -> result tensor
}.

(** The numeric libraries: sklearn's [cosine_similarity], numpy's [mean(0)],
    torch's [F.normalize(_, dim=2)] and [bmm(a, transpose(b, 1, 2))], and
    networkx's [max_weight_matching] over the biadjacency graph of a matrix
    ([None] when networkx is not installed). *)
Class Numerics : Type := {
  cosine_similarity : list vec -> list vec -> result ndarray;
  mean0 : list vec -> vec;
  F_normalize : tensor -> tensor;
  bmm_transpose : tensor -> tensor -> result (list ndarray);
  nx : option (ndarray -> list (Z * Z))
}.

End Ext.
Export Ext.

(** ** The class [Simalign] *)

Module Simalign.

Section WithInterfaces.
Context {prov : Provider} {num : Numerics}.

(** [EmbeddingLoader.__init__] and [EmbeddingLoader.get_embed_list]. *)
Definition EmbeddingLoader_init (model device : string) (layer : nat)
  : M EmbeddingLoader :=
  emit (LoadModel model);;
  let* _ := lift (from_pretrained model) in
  ret (MkLoader model device layer).

Definition get_embed_list (loader : EmbeddingLoader) (sent_batch : list string)
  : M tensor :=
  emit (Embed sent_batch);;
  lift (embed loader sent_batch).

Record t : Type := MkSimalign {
  model : string;
  token_type : string;
  distortion : float;
  null_align : float;
  matching_methods : string;
  device : string;
  embed_loader : EmbeddingLoader
}.

Definition model_names : gmap string string :=
  list_to_map [("bert", "bert-base-multilingual-cased");
               ("spanbert", "SpanBERT/spanbert-base-cased")].

Definition all_matching_methods : gmap string string :=
  list_to_map [("a", "inter"); ("m", "mwmf"); ("i", "itermax");
               ("f", "fwd"); ("r", "rev")].

(** [Simalign.__init__], up to its log line. *)
Definition __init__ (model_arg token_type_arg : string)
    (distortion_arg null_align_arg : float)
    (matching_methods_arg device_arg : string) (layer : nat) : M t :=
  let self_model := default model_arg (model_names !! model_arg) in
  match all_matching_methods !! matching_methods_arg with
  | None => raise (KeyError matching_methods_arg)
  | Some self_matching_methods =>
      let* self_device := lift (torch_device device_arg) in
      let* loader := EmbeddingLoader_init self_model self_device layer in
      ret (MkSimalign self_model token_type_arg distortion_arg null_align_arg
             self_matching_methods self_device loader)
  end.

(** [Simalign()]: every argument at its declared default. *)
Definition default_construction : M t :=
  __init__ "bert" "bpe" Float.zero Float.one "mai" "cpu" 8.

(** *** Static methods *)

Definition get_max_weight_match (sim : ndarray) : result ndarray :=
  match nx with
  | None => Raise ValueError
  | Some max_weight_matching =>
      let m := Z.of_nat (Np.shape0 sim) in
      let permute (edge : Z * Z) : Z * Z :=
        if (edge.1 <? m)%Z then (edge.1, edge.2 - m)%Z
        else (edge.2, edge.1 - m)%Z in
      let matching := map permute (max_weight_matching sim) in
      let matching := sorted Z.leb fst matching in
      foldR (fun res_matrix edge =>
               Np.set_cell_Z res_matrix edge.1 edge.2 Float.one)
            matching (Np.zeros_like sim)
  end.

Definition get_similarity (X Y : list vec) : result ndarray :=
  let? c := cosine_similarity X Y in
  Ok (Np.map1 (fun v => Float.div (Float.add v Float.one) Float.two) c).

(** The result is a new array object; [align_spans_iter] hands it on to
    [get_alignmatrix_iter]. *)
Definition get_similarity_norm (X Y : list vec) : M ref :=
  let* data := lift (cosine_similarity X Y) in
  let* hi := lift (Np.max data) in
  let* lo := lift (Np.min data) in
  let _range := Float.sub hi lo in
  let* lo' := lift (Np.min data) in
  alloc (Np.map1 (fun v => Float.div (Float.sub v lo') _range) data).

(** The sub-word indices of each word: consecutive, counted from [cnt]. *)
Fixpoint w2b_map (words : list (list string)) (cnt : nat) : list (list nat) :=
  match words with
  | [] => []
  | wlist :: words' => seq cnt (length wlist) :: w2b_map words' (cnt + length wlist)
  end.

Definition average_embeds_over_words (bpe_vectors : list vec * list vec)
    (word_tokens_pair : list (list string) * list (list string))
  : result (list vec * list vec) :=
  let w2b0 := w2b_map word_tokens_pair.1 0 in
  let w2b1 := w2b_map word_tokens_pair.2 0 in
  let? v0 := mapR (fun word_set =>
               let? sel := Np.take bpe_vectors.1 word_set in Ok (mean0 sel)) w2b0 in
  let? v1 := mapR (fun word_set =>
               let? sel := Np.take bpe_vectors.2 word_set in Ok (mean0 sel)) w2b1 in
  Ok (v0, v1).

Definition get_alignment_matrix (sim_matrix : ndarray) : result (ndarray * ndarray) :=
  let m := Np.shape0 sim_matrix in
  let n := Np.shape1 sim_matrix in
  let? am1 := Np.argmax_axis1 sim_matrix in
  let? forward := Np.take (Np.eye n) am1 in
  let? am0 := Np.argmax_axis0 sim_matrix in
  let? backward := Np.take (Np.eye m) am0 in
  Ok (forward, Np.transpose backward).

Definition apply_distortion (sim_matrix : ndarray) (ratio : float) : ndarray :=
  let s0 := Np.shape0 sim_matrix in
  let s1 := Np.shape1 sim_matrix in
  if (s0 <? 2) || (s1 <? 2) || Float.eqb ratio Float.zero then sim_matrix
  else
    let pos_x :=
      replicate s0 (map (fun y => Float.div (Float.of_nat y) (Float.of_nat (s1 - 1)))
                        (range 0 s1)) in
    let pos_y :=
      replicate s1 (map (fun x => Float.div (Float.of_nat x) (Float.of_nat (s0 - 1)))
                        (range 0 s0)) in
    let distortion_mask :=
      Np.map1 (fun d => Float.sub Float.one (Float.mul (Float.mul d d) ratio))
              (Np.map2 Float.sub pos_x (Np.transpose pos_y)) in
    Np.map2 Float.mul sim_matrix distortion_mask.

Definition get_alignments_freq (al_matrix : ndarray)
    (src_spans tgt_spans : list (list nat)) : result (dict float) :=
  let m := Np.shape0 al_matrix in
  let n := Np.shape1 al_matrix in
  foldR (fun align_count i =>
    foldR (fun align_count j =>
      let? a := Np.getcell al_matrix i j in
      if Float.gtb a Float.zero then
        let? src_span := getitem src_spans i in
        foldR (fun align_count src_id =>
          let? tgt_span := getitem tgt_spans j in
          foldR (fun align_count tgt_id =>
            let? x := getitem src_span src_id in
            let? y := getitem tgt_span tgt_id in
            let share :=
              Float.div a (Float.of_nat (length src_span * length tgt_span)) in
            Ok (dict_update Float.zero (fun c => Float.add c share)
                            align_count (format_link x y)))
            (range 0 (length tgt_span)) align_count)
          (range 0 (length src_span)) align_count
      else Ok align_count)
      (range 0 n) align_count)
    (range 0 m) [].

(** An assignment into the array object [sim_matrix]. *)
Definition update (sim_matrix : ref) (f : ndarray -> result ndarray) : M unit :=
  let* a := load sim_matrix in
  let* a' := lift (f a) in
  store sim_matrix a'.

(** The two [for e in spans[k]] blocks of [get_alignmatrix_iter]: every
    span that holds a word of the committed span loses its row (its column),
    in place. *)

Definition clear_rows (sim_matrix : ref) (src_spans : list (list nat)) (x : nat)
  : M unit :=
  let* span := lift (getitem src_spans x) in
  for_ span (fun e =>
    for_ (enumerate src_spans) (fun '(span_id, src_span) =>
      if bool_decide (e ∈ src_span)
      then update sim_matrix (fun a => Np.set_row a span_id Float.zero)
      else ret tt)).

Definition clear_cols (sim_matrix : ref) (tgt_spans : list (list nat)) (y : nat)
  : M unit :=
  let* span := lift (getitem tgt_spans y) in
  for_ span (fun e =>
    for_ (enumerate tgt_spans) (fun '(span_id, tgt_span) =>
      if bool_decide (e ∈ tgt_span)
      then update sim_matrix (fun a => Np.set_col a span_id Float.zero)
      else ret tt)).

(** The [while np.max(sim_matrix) > 0] loop, at most [fuel] tests of its
    condition. *)
Fixpoint iter_loop (fuel : nat) (sim_matrix : ref)
    (src_spans tgt_spans : list (list nat)) (alignmatrix : ndarray) : M ndarray :=
  match fuel with
  | 0 => raise Stuck
  | S fuel' =>
      let* a := load sim_matrix in
      let* top := lift (Np.max a) in
      if Float.gtb top Float.zero then
        let* a := load sim_matrix in
        let* top := lift (Np.max a) in
        let* (x, y) := lift (Np.where_first top a) in
        let* alignmatrix := lift (Np.set_cell alignmatrix x y Float.one) in
        update sim_matrix (fun a => Np.set_cell a x y Float.zero);;
        clear_rows sim_matrix src_spans x;;
        clear_cols sim_matrix tgt_spans y;;
        iter_loop fuel' sim_matrix src_spans tgt_spans alignmatrix
      else ret alignmatrix
  end.

(** Every round of the loop turns a positive cell into [0.], so one test
    more than there are cells is all the loop can make. *)
Definition get_alignmatrix_iter (sim_matrix : ref)
    (src_spans tgt_spans : list (list nat)) : M ndarray :=
  let* a := load sim_matrix in
  let m := Np.shape0 a in
  let n := Np.shape1 a in
  let alignmatrix := Np.zeros m n in
  iter_loop (S (length (concat a))) sim_matrix src_spans tgt_spans alignmatrix.

(** [0.5 * forward + 0.5 * backward.T]. *)
Definition half_sum (forward backward_T : ndarray) : ndarray :=
  Np.map2 Float.add (Np.map1 (fun v => Float.mul v Float.half) forward)
                    (Np.map1 (fun v => Float.mul v Float.half) backward_T).

(** The body of [while count < max_count], [rounds = max_count - count]
    rounds to go. *)
Fixpoint iter_max_loop (rounds : nat) (sim_matrix inter : ndarray) (m n : nat)
  : result ndarray :=
  match rounds with
  | 0 => Ok inter
  | S rounds' =>
      let alpha_ratio := Float.nine_tenths in
      let one_minus := Np.map1 (fun v => Float.sub Float.one v) in
      let clip01 := Np.map1 (Float.clip Float.zero Float.one) in
      let mask_x := one_minus (clip01 (Np.tile_cols (Np.sum_axis1 inter) n)) in
      let mask_y := one_minus (clip01 (Np.tile_rows (Np.sum_axis0 inter) m)) in
      let mask :=
        clip01 (Np.map2 Float.add
                  (Np.map1 (fun v => Float.mul alpha_ratio v) mask_x)
                  (Np.map1 (fun v => Float.mul alpha_ratio v) mask_y)) in
      let mask_zeros :=
        one_minus (Np.map2 Float.mul (one_minus mask_x) (one_minus mask_y)) in
      let degenerate :=
        Float.ltb (Np.sum mask_x) Float.one || Float.ltb (Np.sum mask_y) Float.one in
      let mask :=
        if degenerate then Np.map1 (fun v => Float.mul v Float.zero) mask else mask in
      let mask_zeros :=
        if degenerate then Np.map1 (fun v => Float.mul v Float.zero) mask_zeros
        else mask_zeros in
      let new_sim := Np.map2 Float.mul sim_matrix mask in
      let? am1 := Np.argmax_axis1 new_sim in
      let? fwd_rows := Np.take (Np.eye n) am1 in
      let fwd := Np.map2 Float.mul fwd_rows mask_zeros in
      let? am0 := Np.argmax_axis0 new_sim in
      let? bac_rows := Np.take (Np.eye m) am0 in
      let bac := Np.map2 Float.mul (Np.transpose bac_rows) mask_zeros in
      let new_inter := Np.map2 Float.mul fwd bac in
      if Np.array_equal (Np.map2 Float.add inter new_inter) inter then Ok inter
      else iter_max_loop rounds' sim_matrix (Np.map2 Float.add inter new_inter) m n
  end.

Definition iter_max (sim_matrix : ndarray) (max_count : nat) : result ndarray :=
  let m := Np.shape0 sim_matrix in
  let n := Np.shape1 sim_matrix in
  let? am1 := Np.argmax_axis1 sim_matrix in
  let? forward := Np.take (Np.eye n) am1 in
  let? am0 := Np.argmax_axis0 sim_matrix in
  let? backward := Np.take (Np.eye m) am0 in
  let inter := half_sum forward (Np.transpose backward) in
  if Nat.min m n <=? 2 then Ok inter
  else
    let count := 1 in
    iter_max_loop (max_count - count) sim_matrix inter m n.

(** [l[i : j]]. *)
Definition slice {A} (l : list A) (i j : nat) : list A := take (j - i) (drop i l).

(** The spans of one sentence: for [d] in [range(1, max_d + 1)], the windows
    [idx[i : i + d]] that fit. *)
Definition span_idx (sent_idx : list nat) (max_d : nat) : list (list nat) :=
  flat_map (fun d =>
    map (fun i => slice sent_idx i (i + d))
        (filter (fun i => i + d <= length sent_idx) (range 0 (length sent_idx))))
    (range 1 (max_d + 1)).

Definition get_span_index (source_sentences target_sentences : list string)
    (max_d : nat) : result (list (list (list nat)) * list (list (list nat))) :=
  let? spans :=
    mapR (fun sent_id =>
      let? src := getitem source_sentences sent_id in
      let src_sent_idx := range 0 (length (str_split src)) in
      let? tgt := getitem target_sentences sent_id in
      let tgt_sent_idx := range 0 (length (str_split tgt)) in
      Ok (span_idx src_sent_idx max_d, span_idx tgt_sent_idx max_d))
      (range 0 (length source_sentences)) in
  Ok (map fst spans, map snd spans).

(** One span of word indices as the range of its sub-word indices, against
    one side of the sub-word-to-word map. *)
Definition bpe_span (b2w : list nat) (span : list nat) : result (list nat) :=
  let? last_word := getlast span in
  if bool_decide (last_word + 1 ∈ b2w) then
    let? first_word := getitem span 0 in
    let? start := index_of first_word b2w in
    let? stop := index_of (last_word + 1) b2w in
    Ok (range start stop)
  else
    let? first_word := getitem span 0 in
    let? start := index_of first_word b2w in
    Ok (range start (length b2w)).

Definition get_bpe_index (bpe_map : list (list nat * list nat))
    (src_idx tgt_idx : list (list (list nat))) (reverse : bool)
  : result (list (list (list nat) * list (list nat))) :=
  mapR (fun sent_id =>
    let? maps := getitem bpe_map sent_id in
    let? src := getitem src_idx sent_id in
    let? src_spans :=
      mapR (bpe_span (if reverse then maps.2 else maps.1)) src in
    let? tgt := getitem tgt_idx sent_id in
    let? tgt_spans :=
      mapR (bpe_span (if reverse then maps.1 else maps.2)) tgt in
    Ok (src_spans, tgt_spans))
    (range 0 (length bpe_map)).

Definition average_embeds_over_spans (bpe_vectors : list vec * list vec)
    (span_tokens_pair : list (list nat) * list (list nat))
  : result (list vec * list vec) :=
  let w2b_map := span_tokens_pair in
  let? v0 := mapR (fun span_set =>
               let? sel := Np.take bpe_vectors.1 span_set in Ok (mean0 sel)) w2b_map.1 in
  let? v1 := mapR (fun span_set =>
               let? sel := Np.take bpe_vectors.2 span_set in Ok (mean0 sel)) w2b_map.2 in
  Ok (v0, v1).

(** *** The alignment modes *)

(** The head every mode starts with: the sub-word tokens of every word of
    every sentence pair, then the sub-word lists and the sub-word-to-word
    maps, then the dataset of triples. *)
Definition words_tokens_of (self : t) (source_sentences target_sentences : list string)
  : result (list (list (list string) * list (list string))) :=
  mapR (fun sent_id =>
    let? src := getitem source_sentences sent_id in
    let l1_tokens := map (tokenize (embed_loader self)) (str_split src) in
    let? tgt := getitem target_sentences sent_id in
    let l2_tokens := map (tokenize (embed_loader self)) (str_split tgt) in
    Ok (l1_tokens, l2_tokens))
    (range 0 (length source_sentences)).

Definition bpe_list (sent : list (list string)) : list string := concat sent.
Definition b2w_map (sent : list (list string)) : list nat :=
  flat_map (fun '(i, w) => map (fun _ => i) w) (enumerate sent).

Definition dataset (source_sentences target_sentences : list string)
  : result (list (nat * string * string)) :=
  mapR (fun idx =>
    let? src := getitem source_sentences idx in
    let? tgt := getitem target_sentences idx in
    Ok (idx, src, tgt))
    (range 0 (length source_sentences)).

(** [for i in range(len(v0)): for j in range(len(v1)): if A[i, j] > 0:
    for x in row[i]: for y in column[j]: scores[key(x, y)].append(sim[i, j])],
    [sim] read by the function [sim_at]. *)
Definition gather_span_scores (n0 n1 : nat) (alignment_matrix : ndarray)
    (row column : list (list nat)) (key : nat -> nat -> string)
    (sim_at : nat -> nat -> M float) : M (dict (list float)) :=
  foldW (fun span_scores i =>
    foldW (fun span_scores j =>
      let* a := lift (Np.getcell alignment_matrix i j) in
      if Float.gtb a Float.zero then
        let* xs := lift (getitem row i) in
        foldW (fun span_scores x =>
          let* ys := lift (getitem column j) in
          foldW (fun span_scores y =>
            let* v := sim_at i j in
            ret (dict_update [] (fun vals => vals ++ [v]) span_scores (key x y)))
            ys span_scores)
          xs span_scores
      else ret span_scores)
      (range 0 n1) span_scores)
    (range 0 n0) [].

Definition align_spans_iter (self : t) (source_sentences target_sentences : list string)
    (batch_size : nat) : M (list string) :=
  let* words_tokens := lift (words_tokens_of self source_sentences target_sentences) in
  let sentences_bpe_lists :=
    map (fun p => (bpe_list p.1, bpe_list p.2)) words_tokens in
  let sentences_b2w_map :=
    map (fun p => (b2w_map p.1, b2w_map p.2)) words_tokens in
  let* (source_spans, target_spans) :=
    lift (get_span_index source_sentences target_sentences 3) in
  let* spans_pair_bpe :=
    lift (get_bpe_index sentences_b2w_map source_spans target_spans false) in
  let* ds := lift (dataset source_sentences target_sentences) in
  let* data_loader := lift (DataLoader ds batch_size) in
  let* aligns :=
    mapW (fun batch_sentences =>
      let* batch_vectors_src :=
        get_embed_list (embed_loader self) (map (fun d => d.1.2) batch_sentences) in
      let* batch_vectors_tgt :=
        get_embed_list (embed_loader self) (map (fun d => d.2) batch_sentences) in
      let batch_vectors_src := F_normalize batch_vectors_src in
      let batch_vectors_tgt := F_normalize batch_vectors_tgt in
      mapW (fun '(in_batch_id, sent_id) =>
        let* sent_pair := lift (getitem sentences_bpe_lists sent_id) in
        let* v_src := lift (getitem batch_vectors_src in_batch_id) in
        let* v_tgt := lift (getitem batch_vectors_tgt in_batch_id) in
        let vectors := (take (length sent_pair.1) v_src,
                        take (length sent_pair.2) v_tgt) in
        let* spans_bpe := lift (getitem spans_pair_bpe sent_id) in
        let* vectors := lift (average_embeds_over_spans vectors spans_bpe) in
        let* sim := get_similarity_norm vectors.1 vectors.2 in
        let* src_spans := lift (getitem source_spans sent_id) in
        let* tgt_spans := lift (getitem target_spans sent_id) in
        let* alignment_matrix := get_alignmatrix_iter sim src_spans tgt_spans in
        let* span_scores :=
          gather_span_scores (length vectors.1) (length vectors.2) alignment_matrix
            src_spans tgt_spans format_link
            (fun i j => let* a := load sim in lift (Np.getcell a i j)) in
        let* links := lift (sorted_links (keys span_scores)) in
        ret (join_space links))
        (enumerate (map (fun d => d.1.1) batch_sentences)))
      data_loader in
  ret (concat aligns).

Definition align_spans_freq (self : t) (source_sentences target_sentences : list string)
    (batch_size : nat) : M (list string) :=
  let* words_tokens := lift (words_tokens_of self source_sentences target_sentences) in
  let sentences_bpe_lists :=
    map (fun p => (bpe_list p.1, bpe_list p.2)) words_tokens in
  let sentences_b2w_map :=
    map (fun p => (b2w_map p.1, b2w_map p.2)) words_tokens in
  let* (source_spans, target_spans) :=
    lift (get_span_index source_sentences target_sentences 3) in
  let* spans_pair_bpe :=
    lift (get_bpe_index sentences_b2w_map source_spans target_spans false) in
  let* ds := lift (dataset source_sentences target_sentences) in
  let* data_loader := lift (DataLoader ds batch_size) in
  let* aligns :=
    mapW (fun batch_sentences =>
      let* batch_vectors_src :=
        get_embed_list (embed_loader self) (map (fun d => d.1.2) batch_sentences) in
      let* batch_vectors_tgt :=
        get_embed_list (embed_loader self) (map (fun d => d.2) batch_sentences) in
      let batch_vectors_src := F_normalize batch_vectors_src in
      let batch_vectors_tgt := F_normalize batch_vectors_tgt in
      mapW (fun '(in_batch_id, sent_id) =>
        let* sent_pair := lift (getitem sentences_bpe_lists sent_id) in
        let* v_src := lift (getitem batch_vectors_src in_batch_id) in
        let* v_tgt := lift (getitem batch_vectors_tgt in_batch_id) in
        let vectors := (take (length sent_pair.1) v_src,
                        take (length sent_pair.2) v_tgt) in
        let* spans_bpe := lift (getitem spans_pair_bpe sent_id) in
        let* vectors := lift (average_embeds_over_spans vectors spans_bpe) in
        let* sim := lift (get_similarity vectors.1 vectors.2) in
        let* src := lift (getitem source_sentences sent_id) in
        let* tgt := lift (getitem target_sentences sent_id) in
        let* (forward, reverse) := lift (get_alignment_matrix sim) in
        let alignment_matrix := half_sum forward reverse in
        let* src_spans := lift (getitem source_spans sent_id) in
        let* tgt_spans := lift (getitem target_spans sent_id) in
        let* span_scores :=
          lift (get_alignments_freq alignment_matrix src_spans tgt_spans) in
        let* links :=
          lift (sorted_links
                  (map fst (filter (fun pv => Float.geb pv.2 Float.one = true)
                                   span_scores))) in
        ret (join_space links))
        (enumerate (map (fun d => d.1.1) batch_sentences)))
      data_loader in
  ret (concat aligns).

Definition align_spans_bidirection (self : t)
    (source_sentences target_sentences : list string) (batch_size : nat)
  : M (list string) :=
  let* words_tokens := lift (words_tokens_of self source_sentences target_sentences) in
  let sentences_bpe_lists :=
    map (fun p => (bpe_list p.1, bpe_list p.2)) words_tokens in
  let sentences_b2w_map :=
    map (fun p => (b2w_map p.1, b2w_map p.2)) words_tokens in
  let* (source_spans, target_spans) :=
    lift (get_span_index source_sentences target_sentences 3) in
  let single := filter (fun span : list nat => length span = 1) in
  let source_words := map (fun p => single p.1) (zip source_spans target_spans) in
  let target_words := map (fun p => single p.2) (zip source_spans target_spans) in
  let* s2t_spans_pair_bpe :=
    lift (get_bpe_index sentences_b2w_map source_spans target_words false) in
  let* t2s_spans_pair_bpe :=
    lift (get_bpe_index sentences_b2w_map target_spans source_words true) in
  let* (s2t_aligns, t2s_aligns) :=
    foldW (fun acc spans_pair_bpe =>
      (* [==] on lists compares their contents *)
      let is_t2s := bool_decide (spans_pair_bpe = t2s_spans_pair_bpe) in
      let* ds := lift (dataset source_sentences target_sentences) in
      let* data_loader := lift (DataLoader ds batch_size) in
      foldW (fun acc batch_sentences =>
        let* batch_vectors_src :=
          get_embed_list (embed_loader self) (map (fun d => d.1.2) batch_sentences) in
        let* batch_vectors_tgt :=
          get_embed_list (embed_loader self) (map (fun d => d.2) batch_sentences) in
        let batch_vectors_src := F_normalize batch_vectors_src in
        let batch_vectors_tgt := F_normalize batch_vectors_tgt in
        foldW (fun (acc : list string * list string) '(in_batch_id, sent_id) =>
          let* sent_pair := lift (getitem sentences_bpe_lists sent_id) in
          let* v_src := lift (getitem batch_vectors_src in_batch_id) in
          let* v_tgt := lift (getitem batch_vectors_tgt in_batch_id) in
          let vectors :=
            if is_t2s then (take (length sent_pair.2) v_tgt, take (length sent_pair.1) v_src)
            else (take (length sent_pair.1) v_src, take (length sent_pair.2) v_tgt) in
          let row := if is_t2s then target_spans else source_spans in
          let column := if is_t2s then source_words else target_words in
          let* spans_bpe := lift (getitem spans_pair_bpe sent_id) in
          let* vectors := lift (average_embeds_over_spans vectors spans_bpe) in
          let* sim := lift (get_similarity vectors.1 vectors.2) in
          let* (forward, reverse) := lift (get_alignment_matrix sim) in
          let alignment_matrix := reverse in
          let* span_scores :=
            foldW (fun span_scores i =>
              foldW (fun span_scores j =>
                let* a := lift (Np.getcell alignment_matrix i j) in
                if Float.gtb a Float.zero then
                  let* row_sent := lift (getitem row sent_id) in
                  let* xs := lift (getitem row_sent i) in
                  foldW (fun span_scores x =>
                    let* column_sent := lift (getitem column sent_id) in
                    let* ys := lift (getitem column_sent j) in
                    foldW (fun span_scores y =>
                      let* v := lift (Np.getcell sim i j) in
                      let key := if is_t2s then format_link y x else format_link x y in
                      ret (dict_update [] (fun vals => vals ++ [v]) span_scores key))
                      ys span_scores)
                    xs span_scores
                else ret span_scores)
                (range 0 (length vectors.2)) span_scores)
              (range 0 (length vectors.1)) ([] : dict (list float)) in
          let line := join_space (sorted_str (keys span_scores)) in
          if is_t2s then ret (acc.1, acc.2 ++ [line])
          else ret (acc.1 ++ [line], acc.2))
          (enumerate (map (fun d => d.1.1) batch_sentences)) acc)
        data_loader acc)
      [s2t_spans_pair_bpe; t2s_spans_pair_bpe] ([], []) in
  lift (mapR (fun sent_id =>
          let? s2t := getitem s2t_aligns sent_id in
          let? kept :=
            foldR (fun kept i =>
              let? t2s := getitem t2s_aligns sent_id in
              if bool_decide (i ∈ str_split t2s) then Ok (kept ++ [i]) else Ok kept)
              (str_split s2t) [] in
          let? links := sorted_links kept in
          Ok (join_space links))
          (range 0 (length s2t_aligns))).

(** What the double loop of [align_sentences] accumulates. *)
Record links : Type := MkLinks {
  raw_aligns : list string;
  b2w_aligns : list string;
  raw_scores : dict (list float);
  b2w_scores : dict (list float);
  log_aligns : list string
}.

Definition align_sentences (self : t) (source_sentences target_sentences : list string)
    (batch_size : nat) : M (list string) :=
  let convert_to_words := String.eqb (token_type self) "word" in
  let* words_tokens := lift (words_tokens_of self source_sentences target_sentences) in
  let sentences_bpe_lists :=
    map (fun p => (bpe_list p.1, bpe_list p.2)) words_tokens in
  let sentences_b2w_map :=
    map (fun p => (b2w_map p.1, b2w_map p.2)) words_tokens in
  let corpora_lengths := [length source_sentences; length target_sentences] in
  let* ds := lift (dataset source_sentences target_sentences) in
  let* data_loader := lift (DataLoader ds batch_size) in
  let* aligns :=
    mapW (fun batch_sentences =>
      let* batch_vectors_src :=
        get_embed_list (embed_loader self) (map (fun d => d.1.2) batch_sentences) in
      let* batch_vectors_trg :=
        get_embed_list (embed_loader self) (map (fun d => d.2) batch_sentences) in
      let* (batch_vectors_src, batch_vectors_trg, btach_sim) :=
        if negb convert_to_words then
          let batch_vectors_src := F_normalize batch_vectors_src in
          let batch_vectors_trg := F_normalize batch_vectors_trg in
          let* btach_sim := lift (bmm_transpose batch_vectors_src batch_vectors_trg) in
          let btach_sim :=
            map (Np.map1 (fun v => Float.div (Float.add v Float.one) Float.two))
                btach_sim in
          ret (batch_vectors_src, batch_vectors_trg, btach_sim)
        else ret (batch_vectors_src, batch_vectors_trg, []) in
      mapW (fun '(in_batch_id, sent_id) =>
        let* sent_pair := lift (getitem sentences_bpe_lists sent_id) in
        let* v_src := lift (getitem batch_vectors_src in_batch_id) in
        let* v_trg := lift (getitem batch_vectors_trg in_batch_id) in
        let vectors := (take (length sent_pair.1) v_src,
                        take (length sent_pair.2) v_trg) in
        let* (vectors, sim) :=
          if negb convert_to_words then
            let* full := lift (getitem btach_sim in_batch_id) in
            ret (vectors,
                 map (take (length sent_pair.2)) (take (length sent_pair.1) full))
          else
            let* tokens := lift (getitem words_tokens sent_id) in
            let* vectors := lift (average_embeds_over_words vectors tokens) in
            let* sim := lift (get_similarity vectors.1 vectors.2) in
            ret (vectors, sim) in
        let sim := apply_distortion sim (distortion self) in
        let* (fwd, rev) := lift (get_alignment_matrix sim) in
        let all_mats : dict ndarray :=
          [("fwd", fwd); ("rev", rev); ("inter", Np.map2 Float.mul fwd rev)] in
        let* all_mats :=
          if contains "mwmf" (matching_methods self) then
            let* mwmf := lift (get_max_weight_match sim) in
            ret (all_mats ++ [("mwmf", mwmf)])
          else ret all_mats in
        let* all_mats :=
          if contains "itermax" (matching_methods self) then
            let* itermax := lift (iter_max sim 2) in
            ret (all_mats ++ [("itermax", itermax)])
          else ret all_mats in
        let* acc :=
          lift (foldR (fun acc i =>
            foldR (fun acc j =>
              let ext := matching_methods self in
              let? mat := dict_getitem all_mats ext in
              let? a := Np.getcell mat i j in
              if Float.gtb a Float.zero then
                let? v := Np.getcell sim i j in
                let acc :=
                  MkLinks (raw_aligns acc ++ [format_link i j]) (b2w_aligns acc)
                    (dict_update [] (fun vals => vals ++ [v]) (raw_scores acc)
                                 (format_link i j))
                    (b2w_scores acc) (log_aligns acc) in
                if String.eqb (token_type self) "bpe" then
                  let? maps := getitem sentences_b2w_map sent_id in
                  let? wi := getitem maps.1 i in
                  let? wj := getitem maps.2 j in
                  let acc :=
                    MkLinks (raw_aligns acc) (set_add (format_link wi wj) (b2w_aligns acc))
                      (raw_scores acc)
                      (dict_update [] (fun vals => vals ++ [v]) (b2w_scores acc)
                                   (format_link wi wj))
                      (log_aligns acc) in
                  if String.eqb ext "inter" then
                    let? ti := getitem sent_pair.1 i in
                    let? tj := getitem sent_pair.2 j in
                    Ok (MkLinks (raw_aligns acc) (b2w_aligns acc) (raw_scores acc)
                          (b2w_scores acc)
                          (log_aligns acc ++
                             [format_link i j +:+ ":(" +:+ ti +:+ ", " +:+ tj +:+ ")"]))
                  else Ok acc
                else
                  Ok (MkLinks (raw_aligns acc) (set_add (format_link i j) (b2w_aligns acc))
                        (raw_scores acc) (b2w_scores acc) (log_aligns acc))
              else Ok acc)
              (range 0 (length vectors.2)) acc)
            (range 0 (length vectors.1)) (MkLinks [] [] [] [] [])) in
        if convert_to_words then
          ret (join_space (sorted_str (keys (raw_scores acc))))
        else
          ret (join_space (sorted_str (keys (b2w_scores acc)))))
        (enumerate (map (fun d => d.1.1) batch_sentences)))
      data_loader in
  ret (concat aligns).

End WithInterfaces.
End Simalign.

(** ** One implementation of the interfaces

    A reference implementation of the numeric interface on binary64, with
    networkx absent, and a provider whose tokenizer keeps every word whole
    and whose model embeds every token as the one-dimensional vector
    [[1.0]], padding a batch with [[0.0]].  The worked examples below run
    the class on it. *)

Module Reference.

Definition dot (u v : vec) : float :=
  fold_left Float.add (zip_with Float.mul u v) Float.zero.

Definition l2_norm (u : vec) : float := Float.sqrt (dot u u).

(** sklearn's [normalize]: a row of norm zero is left as it is. *)
Definition unit_row (u : vec) : vec :=
  let n := l2_norm u in
  let n := if Float.eqb n Float.zero then Float.one else n in
  map (fun x => Float.div x n) u.

Definition ref_cosine_similarity (X Y : list vec) : result ndarray :=
  match X, Y with
  | [], _ | _, [] => Raise ValueError
  | _, _ =>
      Ok (map (fun x => map (fun y => dot (unit_row x) (unit_row y)) Y) X)
  end.

(** numpy's [mean(0)]: the mean of every column.  Of no row at all it is
    NaN in every column; the vectors of this implementation have one
    column. *)
Definition ref_mean0 (rows : list vec) : vec :=
  match rows with
  | [] => [Float.div Float.zero (Float.of_nat 0)]
  | _ => map (fun col => Float.div (Np.sum_vec col) (Float.of_nat (length rows)))
             (Np.transpose rows)
  end.

(** torch's [F.normalize]: [x / max(norm(x), 1e-12)]. *)
Definition eps : float := Eval vm_compute in Float.div Float.one (Float.of_Z (10 ^ 12)).
Definition ref_F_normalize (b : tensor) : tensor :=
  map (map (fun u => map (fun x => Float.div x (Float.maximum (l2_norm u) eps)) u)) b.

Definition ref_bmm_transpose (a b : tensor) : result (list ndarray) :=
  if length a =? length b then
    Ok (zip_with (fun X Y => map (fun x => map (fun y => dot x y) Y) X) a b)
  else Raise ValueError.

#[export] Instance numerics : Numerics := {|
  cosine_similarity := ref_cosine_similarity;
  mean0 := ref_mean0;
  F_normalize := ref_F_normalize;
  bmm_transpose := ref_bmm_transpose;
  nx := None
|}.

Definition pad (n : nat) (sent : list vec) : list vec :=
  sent ++ replicate (n - length sent) [Float.zero].

Definition ref_embed (_ : EmbeddingLoader) (batch : list string) : result tensor :=
  let sents := map (fun s => map (fun _ => [Float.one]) (str_split s)) batch in
  Ok (map (pad (foldr Nat.max 0 (map length sents))) sents).

#[export] Instance provider : Provider := {|
  torch_device := fun d => Ok d;
  from_pretrained := fun _ => Ok tt;
  tokenize := fun _ w => [w];
  embed := ref_embed
|}.

End Reference.

(** ** Notions the properties are stated with *)

Module Props.

(** The spans of a sentence of [L] words as the specification words them:
    for each length [d] in [1..max_len], the windows of [d] consecutive word
    indices, by start index. *)
Definition windows (L max_len : nat) : list (list nat) :=
  flat_map (fun d => map (fun i => seq i d) (seq 0 (L + 1 - d))) (seq 1 max_len).

(** A line of links is in the order of the integer pairs. *)
Definition numerically_sorted (line : string) : bool :=
  match mapR link_key (str_split line) with
  | Ok ks => forallb (fun p => pair_le p.1 p.2) (zip ks (tail ks))
  | Raise _ => false
  end.

(** A constant matrix: every cell is [c]. *)
Definition constant (c : float) (a : ndarray) : Prop :=
  Forall (Forall (fun v => v = c)) a.

(** [a'] is [a] with some cells overwritten by [0.]. *)
Definition zeroed (v v' : float) : Prop := v' = v \/ v' = Float.zero.
Definition zeroing (a a' : ndarray) : Prop := Forall2 (Forall2 zeroed) a a'.

(** The cell [(x, y)] of an alignment matrix is a committed pair. *)
Definition committed (A : ndarray) (x y : nat) : Prop :=
  exists a, Np.cell A x y = Some a /\ Float.gtb a Float.zero = true.

(** Two spans of a span list share a word index. *)
Definition overlap (spans : list (list nat)) (i k : nat) : Prop :=
  exists si sk e, spans !! i = Some si /\ spans !! k = Some sk /\ e ∈ si /\ e ∈ sk.

(** What [get_alignmatrix_iter] expects: the span lists index the rows and
    the columns of a non-empty matrix. *)
Definition fits (a : ndarray) (src_spans tgt_spans : list (list nat)) : Prop :=
  Np.rectangular a /\ 0 < Np.shape0 a /\ 0 < Np.shape1 a /\
  length src_spans = Np.shape0 a /\ length tgt_spans = Np.shape1 a.

(** No two committed pairs share a source word or a target word. *)
Definition conflict_free (A : ndarray) (src_spans tgt_spans : list (list nat)) : Prop :=
  forall x y x' y', committed A x y -> committed A x' y' -> (x, y) <> (x', y') ->
    ~ overlap src_spans x x' /\ ~ overlap tgt_spans y y'.

(** A program that only touches the array object [r]: started with
    contents [a] it returns [v] and leaves contents [a'], whatever the rest
    of the world. *)
Definition runs {A} (r : ref) (m : M A) (a : ndarray) (v : A) (a' : ndarray) : Prop :=
  forall w, heap w !! r = Some a -> m w = (Ok v, set_heap r a' w).

Definition row_zero (a : ndarray) (i : nat) : Prop :=
  forall j v, Np.cell a i j = Some v -> v = Float.zero.
Definition col_zero (a : ndarray) (j : nat) : Prop :=
  forall i v, Np.cell a i j = Some v -> v = Float.zero.

(** The measure of the [while] loop: how many cells are positive. *)
Definition positive (v : float) : bool := Float.gtb v Float.zero.
Definition npos_vec (r : vec) : nat := length (filter (fun v => positive v = true) r).
Definition npos (a : ndarray) : nat := sum_list (map npos_vec a).

(** The invariant of the [while] loop of [get_alignmatrix_iter], between
    the matrix [S] it was called on, the current contents [a] of that
    array, and the alignment matrix [A] built so far. *)
Record inv (S : ndarray) (src_spans tgt_spans : list (list nat)) (a A : ndarray)
  : Prop := MkInv {
  inv_zeroing : zeroing S a;
  inv_shape : Forall2 (fun r rA : vec => length r = length rA) a A;
  inv_source : forall x y, committed A x y ->
    exists v, Np.cell S x y = Some v /\ positive v = true;
  inv_cleared : forall x y, committed A x y ->
    Np.cell a x y = Some Float.zero /\
    (forall i, overlap src_spans x i -> row_zero a i) /\
    (forall j, overlap tgt_spans y j -> col_zero a j);
  inv_free : conflict_free A src_spans tgt_spans
}.

End Props.
Export Props.

(** ** Worked examples *)

Module Examples.
Import Reference.

Definition loader : EmbeddingLoader := MkLoader "bert-base-multilingual-cased" "cpu" 8.

(** An aligner on words with the forward matcher, and the same one with
    another [null_align]. *)
Definition fwd_words : Simalign.t :=
  Simalign.MkSimalign "bert-base-multilingual-cased" "word" Float.zero Float.one
    "fwd" "cpu" loader.
Definition fwd_words_half : Simalign.t :=
  Simalign.MkSimalign "bert-base-multilingual-cased" "word" Float.zero Float.half
    "fwd" "cpu" loader.

(** Eleven source words against one target word. *)
Definition eleven_to_one : M (list string) :=
  let* self := Simalign.__init__ "bert" "word" Float.zero Float.one "f" "cpu" 8 in
  Simalign.align_sentences self ["a b c d e f g h i j k"] ["x"] 100.

Definition quarter : float := Eval vm_compute in Float.div Float.one (Float.of_Z 4).

(** Three source spans and three target spans over two words each; the
    best cell is (1, 1), then (0, 0). *)
Definition spans3 : list (list nat) := [[0]; [1]; [0; 1]].
Definition sim3 : ndarray :=
  [[Float.half; quarter; quarter];
   [quarter; Float.one; quarter];
   [quarter; quarter; Float.half]].

(** Two rows against three columns: row 0 is best in column 0, row 1 in
    column 1; columns 0 and 2 are best in row 0, column 1 in row 1. *)
Definition sim23 : ndarray :=
  [[Float.nine_tenths; Float.zero; Float.half];
   [Float.zero; Float.half; quarter]].

(** Three words parted by a no-break space (U+00A0) and a next-line
    character (U+0085). *)
Definition three_words : string :=
  "a" +:+ String (Ascii.ascii_of_nat 160) "b" +:+ String (Ascii.ascii_of_nat 133) "c".

(** Two words parted by a no-break space. *)
Definition two_words : string := "a" +:+ String (Ascii.ascii_of_nat 160) "b".

End Examples.

(** ** Further notions *)

Module More.

(** Every character of a string passes a test. *)
Fixpoint string_forall (P : Ascii.ascii -> bool) (s : string) : bool :=
  match s with
  | EmptyString => true
  | String c s' => P c && string_forall P s'
  end.

(** A word as [str.split()] yields them: not empty, no whitespace. *)
Definition is_word (s : string) : bool :=
  negb (String.eqb s "") && string_forall (fun c => negb (is_space c)) s.

(** A decimal digit. *)
Definition is_digit (c : Ascii.ascii) : bool :=
  match digit c with
  | Some _ => true
  | None => false
  end.

(** The link of a pair of indices. *)
Definition link_of (p : nat * nat) : string := format_link p.1 p.2.

(** A program that leaves the world as it found it when it returns. *)
Definition effect_free {A} (m : M A) : Prop :=
  forall w v w', m w = (Ok v, w') -> w' = w.

(** What embedding the batches of a data loader adds to the trace: the
    source sentences of a batch, then its target sentences. *)
Definition embed_events (data_loader : list (list (nat * string * string)))
  : list event :=
  flat_map (fun batch => [Embed (map (fun d => d.1.2) batch);
                          Embed (map (fun d => d.2) batch)]) data_loader.

(** The sub-words of the words of a span, as [w2b_map] numbers them. *)
Definition subwords (words : list (list string)) (span : list nat) : list nat :=
  flat_map (fun i => default [] (Simalign.w2b_map words 0 !! i)) span.

(** [res] has the shape of [a] and holds [0.] and [1.] only. *)
Definition zero_one_like (a res : ndarray) : Prop :=
  Forall2 (Forall2 (fun (_ v : float) => v = Float.zero \/ v = Float.one)) a res.

End More.
Export More.

(** ** The null-alignment filters

    [gather_null_aligns] and [apply_percentile_null_aligns], with sklearn's
    [normalize], scipy's [entropy] and numpy's [log] as an interface. *)

Module NullAligns.

(** [normalize(a, axis=1, norm='l1')] (which refuses NaN and infinite
    cells), [entropy(pk)] and [np.log(x)]. *)
Class Stats : Type := {
  normalize_l1 : ndarray -> result ndarray;
  entropy : vec -> float;
  log : float -> float
}.

(** [a[:, j]]. *)
Definition column (a : ndarray) (j : nat) : result vec :=
  if decide (j < Np.shape1 a) then Ok (map (fun r : vec => default Float.zero (r !! j)) a)
  else Raise IndexError.

(** A binary operation on two matrices, an axis of length 1 stretched to
    the length of the other operand's. *)
Definition broadcast_len (p m : nat) : option nat :=
  if p =? m then Some m
  else if p =? 1 then Some m
  else if m =? 1 then Some p
  else None.
Definition stretched (a : ndarray) (i j : nat) : float :=
  default Float.zero
    (Np.cell a (if Np.shape0 a =? 1 then 0 else i) (if Np.shape1 a =? 1 then 0 else j)).
Definition broadcast2 (f : float -> float -> float) (a b : ndarray) : result ndarray :=
  match broadcast_len (Np.shape0 a) (Np.shape0 b),
        broadcast_len (Np.shape1 a) (Np.shape1 b) with
  | Some m, Some n =>
      Ok (map (fun i => map (fun j => f (stretched a i j) (stretched b i j)) (range 0 n))
              (range 0 m))
  | _, _ => Raise ValueError
  end.

Section WithStats.
Context {stats : Stats}.

(** [normalize(a, axis=0, norm='l1')] normalises the rows of the
    transpose. *)
Definition normalize_axis0 (a : ndarray) : result ndarray :=
  let? n := normalize_l1 (Np.transpose a) in
  Ok (Np.transpose n).

(** The result lists the cells in row-major order. *)
Definition gather_null_aligns (sim_matrix inter_matrix : ndarray) : result (list float) :=
  let s0 := Np.shape0 sim_matrix in
  let s1 := Np.shape1 sim_matrix in
  if Nat.min s0 s1 <=? 2 then Ok []
  else
    let? norm_x := normalize_l1 sim_matrix in
    let? norm_y := normalize_axis0 sim_matrix in
    let? entropy_x :=
      mapR (fun i => let? row := getitem norm_x i in
                     Ok (Float.div (entropy row) (log (Float.of_nat s1))))
           (range 0 s0) in
    let? entropy_y :=
      mapR (fun j => let? col := column norm_y j in
                     Ok (Float.div (entropy col) (log (Float.of_nat s0))))
           (range 0 s1) in
    let mask_x := Np.tile_cols entropy_x s1 in
    let mask_y := Np.tile_rows entropy_y s0 in
    let? all_ents :=
      broadcast2 Float.mul inter_matrix (Np.map2 Float.minimum mask_x mask_y) in
    Ok (filter (fun x => Float.gtb x Float.zero = true) (concat all_ents)).

Definition apply_percentile_null_aligns (sim_matrix : ndarray) (ratio : float)
  : result ndarray :=
  let s0 := Np.shape0 sim_matrix in
  let s1 := Np.shape1 sim_matrix in
  if Nat.min s0 s1 <=? 2 then Ok (Np.ones s0 s1)
  else
    let? norm_x := normalize_l1 sim_matrix in
    let? norm_y := normalize_axis0 sim_matrix in
    let? entropy_x :=
      mapR (fun i => let? row := getitem norm_x i in
                     Ok (Float.div (entropy row) (log (Float.of_nat s1))))
           (range 0 s0) in
    let? entropy_y :=
      mapR (fun j => let? col := column norm_y j in
                     Ok (Float.div (entropy col) (log (Float.of_nat s0))))
           (range 0 s1) in
    let mask_x := Np.tile_cols entropy_x s1 in
    let mask_y := Np.tile_rows entropy_y s0 in
    let ents_mask :=
      Np.map1 (fun v => if Float.gtb v ratio then Float.zero else Float.one)
              (Np.map2 Float.minimum mask_x mask_y) in
    Ok ents_mask.

End WithStats.
End NullAligns.
Export NullAligns.


(** * Properties *)

Import Simalign.

(** ** Outcomes, loops and the world *)

Lemma getitem_Ok {A} (l : list A) (i : nat) (a : A) :
  getitem l i = Ok a ↔ l !! i = Some a.
Proof. unfold getitem. destruct (l !! i); split; congruence. Qed.

Lemma getitem_lt {A} (l : list A) (i : nat) :
  i < length l → ∃ a, getitem l i = Ok a ∧ l !! i = Some a.
Proof.
  intros H. apply lookup_lt_is_Some in H as [a Ha].
  exists a. split; [by apply getitem_Ok | done].
Qed.

Lemma getitem_ge {A} (l : list A) (i : nat) :
  length l ≤ i → getitem l i = Raise IndexError.
Proof. intros H. unfold getitem. by rewrite lookup_ge_None_2. Qed.

Lemma getitem_take {A} (l : list A) (n i : nat) :
  i < n → getitem (take n l) i = getitem l i.
Proof. intros H. unfold getitem. by rewrite lookup_take_lt. Qed.

Lemma mapR_ext_in {A B} (f g : A → result B) (l : list A) :
  (∀ x, x ∈ l → f x = g x) → mapR f l = mapR g l.
Proof.
  induction l as [|x l IH]; intros H; simpl; [done|].
  rewrite H by left. rewrite IH; [done|]. intros y Hy. apply H. by right.
Qed.

Lemma mapR_ext_Ok {A B} (f : A → result B) (g : A → B) (l : list A) :
  (∀ x, x ∈ l → f x = Ok (g x)) → mapR f l = Ok (map g l).
Proof.
  induction l as [|x l IH]; intros H; simpl; [done|].
  rewrite H by left. simpl. rewrite IH; [done|]. intros y Hy. apply H. by right.
Qed.

Lemma mapR_raise {A B} (f : A → result B) (pre post : list A) (x : A) (e : exn) :
  (∀ y, y ∈ pre → ∃ v, f y = Ok v) → f x = Raise e →
  mapR f (pre ++ x :: post) = Raise e.
Proof.
  intros Hpre Hx. induction pre as [|y pre IH]; simpl.
  - by rewrite Hx.
  - destruct (Hpre y) as [v Hv]; [left|]. rewrite Hv. simpl.
    rewrite IH; [done|]. intros z Hz. apply Hpre. by right.
Qed.

Lemma mapR_Forall {A B} (f : A → result B) (P : B → Prop) (l : list A) (ys : list B) :
  (∀ x y, x ∈ l → f x = Ok y → P y) → mapR f l = Ok ys → Forall P ys.
Proof.
  revert ys. induction l as [|x l IH]; intros ys H Hm; simpl in Hm.
  - injection Hm as <-. constructor.
  - destruct (f x) as [y|] eqn:Hy; [|done]. simpl in Hm.
    destruct (mapR f l) as [ys'|]; [|done]. simpl in Hm. injection Hm as <-.
    constructor.
    + eapply H; [left|done].
    + apply IH; [|done]. intros z v Hz. apply H. by right.
Qed.

Lemma mapR_Ok_Forall {A B} (f : A → result B) (P : B → Prop) (l : list A) :
  Forall (λ x, ∃ y, f x = Ok y ∧ P y) l →
  ∃ ys, mapR f l = Ok ys ∧ Forall P ys ∧ length ys = length l.
Proof.
  induction 1 as [|x l (y & Hy & HP) _ (ys & IH & HF & HL)]; simpl.
  - exists []. auto.
  - exists (y :: ys). rewrite Hy. simpl. rewrite IH. simpl. split; [done|].
    split; [by constructor | by rewrite HL].
Qed.

Lemma bind_ext {A B} (m : M A) (k k' : A → M B) (w : world) :
  (∀ a w', m w = (Ok a, w') → k a w' = k' a w') → bind m k w = bind m k' w.
Proof. intros H. unfold bind. destruct (m w) as [[a|e] w']; auto. Qed.

Lemma mapW_ext_in {A B} (f g : A → M B) (l : list A) :
  (∀ x w, x ∈ l → f x w = g x w) → ∀ w, mapW f l w = mapW g l w.
Proof.
  induction l as [|x l IH]; intros H w; simpl; [done|].
  unfold bind. rewrite H by left. destruct (g x w) as [[y|e] w']; [|done].
  rewrite IH; [done|]. intros z w'' Hz. apply H. by right.
Qed.

Lemma range_split (k n : nat) :
  k < n → range 0 n = seq 0 k ++ k :: seq (S k) (n - S k).
Proof.
  intros H. unfold range. rewrite Nat.sub_0_r.
  replace n with (k + S (n - S k)) at 1 by lia.
  rewrite seq_app. simpl. done.
Qed.

Lemma map_lookup_seq {A B} (F : A → B) (d : B) (l : list A) :
  map (λ i, match l !! i with Some s => F s | None => d end) (seq 0 (length l))
  = map F l.
Proof.
  apply list_eq. intros i. rewrite !list_lookup_fmap.
  destruct (decide (i < length l)) as [Hlt|Hge].
  - rewrite lookup_seq_lt by done. simpl.
    destruct (lookup_lt_is_Some_2 l i Hlt) as [a Ha]. by rewrite Ha.
  - rewrite lookup_seq_ge by lia. rewrite lookup_ge_None_2 by lia. done.
Qed.

Lemma lookup_enumerate {A} (l : list A) (i : nat) (x : A) :
  enumerate l !! i = Some (i, x) ↔ l !! i = Some x.
Proof.
  unfold enumerate. rewrite lookup_zip_with_Some. split.
  - intros (k & y & [= <- <-] & _ & Hy). done.
  - intros Hx. exists i, x. split; [done|]. split; [|done].
    apply lookup_seq. split; [done|]. by eapply lookup_lt_Some.
Qed.

Lemma elem_of_enumerate {A} (l : list A) (i : nat) (x : A) :
  (i, x) ∈ enumerate l ↔ l !! i = Some x.
Proof.
  rewrite list_elem_of_lookup. split.
  - intros (k & Hk). unfold enumerate in Hk. apply lookup_zip_with_Some in Hk.
    destruct Hk as (k' & y & [= -> ->] & Hseq & Hy).
    apply lookup_seq in Hseq as [-> _]. done.
  - intros Hx. exists i. by apply lookup_enumerate.
Qed.

Lemma enumerate_Forall {A} (P : A → Prop) (l : list A) :
  Forall P l → Forall (λ ix, P ix.2) (enumerate l).
Proof.
  intros H. apply Forall_forall. intros [i x] Hix. simpl.
  apply elem_of_zip_r in Hix. by eapply Forall_forall in H.
Qed.

Lemma batches_from_Forall {A} (P : A → Prop) (n : nat) (cur l : list A) :
  Forall P cur → Forall P l → Forall (Forall P) (batches_from n cur l).
Proof.
  revert cur. induction l as [|x l IH]; intros cur Hcur Hl; simpl.
  - destruct cur; [constructor|]. constructor; [done|constructor].
  - apply Forall_cons in Hl as [Hx Hl].
    assert (Forall P (cur ++ [x])) by (apply Forall_app; auto).
    destruct (_ =? _); [constructor; [done|]|]; by apply IH.
Qed.

(** ** Construction: the method table (C10) *)

Lemma method_table_miss (k : string) :
  k ∉ ["a"; "m"; "i"; "f"; "r"] → all_matching_methods !! k = None.
Proof.
  intros Hk. unfold all_matching_methods. simpl.
  rewrite !not_elem_of_cons in Hk. destruct Hk as (?&?&?&?&?&_).
  rewrite !lookup_insert_ne by done. apply lookup_empty.
Qed.

(** C10.  Whatever the other arguments and the state of the world, building
    a [Simalign] with a [matching_methods] string that is not one of the
    keys ["a"], ["m"], ["i"], ["f"], ["r"] raises the [KeyError] of the
    method-table lookup and leaves the world as it was: no device was
    resolved and no model was loaded.  The declared default ["mai"] is such
    a string, so construction with the defaults fails the same way. *)
Theorem init_unknown_method_KeyError {prov : Provider}
    (model_arg token_type_arg : string) (distortion_arg null_align_arg : float)
    (matching_methods_arg device_arg : string) (layer : nat) (w : world) :
  (matching_methods_arg ∉ ["a"; "m"; "i"; "f"; "r"] →
   __init__ model_arg token_type_arg distortion_arg null_align_arg
            matching_methods_arg device_arg layer w
   = (Raise (KeyError matching_methods_arg), w)) ∧
  default_construction w = (Raise (KeyError "mai"), w).
Proof.
  split.
  - intros Hk. unfold __init__. rewrite method_table_miss by done. reflexivity.
  - unfold default_construction, __init__.
    rewrite method_table_miss; [reflexivity|].
    rewrite !not_elem_of_cons. repeat split; try discriminate. apply not_elem_of_nil.
Qed.

Lemma init_unknown_method_KeyError_witness :
("mai" ∉ ["a"; "m"; "i"; "f"; "r"]) ∧
  __init__ (prov := Reference.provider) "bert" "bpe" Float.zero Float.one "mai" "cpu" 8
           World.empty
  = (Raise (KeyError "mai"), World.empty).
Proof.
  assert ("mai" ∉ ["a"; "m"; "i"; "f"; "r"]) as Hk.
  { rewrite !not_elem_of_cons. repeat split; try discriminate. apply not_elem_of_nil. }
  split; [exact Hk|].
  apply (proj1 (init_unknown_method_KeyError (prov := Reference.provider)
                  "bert" "bpe" Float.zero Float.one "mai" "cpu" 8 World.empty)).
  exact Hk.
Defined.

(** ** The null-alignment parameter (C9) *)

(** C9.  Two [Simalign] objects that agree on every field but [null_align]
    behave alike in every alignment mode: on the same sentences, batch size
    and world, [align_sentences], [align_spans_iter], [align_spans_freq] and
    [align_spans_bidirection] give the same outcome (the same alignment
    strings, or the same exception) and leave the same world. *)
Theorem null_align_has_no_effect {prov : Provider} {num : Numerics} (self1 self2 : t)
    (source_sentences target_sentences : list string) (batch_size : nat) (w : world) :
  model self1 = model self2 →
  token_type self1 = token_type self2 →
  distortion self1 = distortion self2 →
  matching_methods self1 = matching_methods self2 →
  device self1 = device self2 →
  embed_loader self1 = embed_loader self2 →
  align_sentences self1 source_sentences target_sentences batch_size w
    = align_sentences self2 source_sentences target_sentences batch_size w ∧
  align_spans_iter self1 source_sentences target_sentences batch_size w
    = align_spans_iter self2 source_sentences target_sentences batch_size w ∧
  align_spans_freq self1 source_sentences target_sentences batch_size w
    = align_spans_freq self2 source_sentences target_sentences batch_size w ∧
  align_spans_bidirection self1 source_sentences target_sentences batch_size w
    = align_spans_bidirection self2 source_sentences target_sentences batch_size w.
Proof.
  destruct self1 as [m1 t1 d1 n1 mm1 dv1 l1], self2 as [m2 t2 d2 n2 mm2 dv2 l2].
  simpl. intros -> -> -> -> -> ->.
  repeat split; reflexivity.
Qed.

Lemma null_align_has_no_effect_witness :
  null_align Examples.fwd_words ≠ null_align Examples.fwd_words_half ∧
  align_sentences (prov := Reference.provider) (num := Reference.numerics)
      Examples.fwd_words ["the cat sat"] ["le chat assis"] 100 World.empty
  = align_sentences (prov := Reference.provider) (num := Reference.numerics)
      Examples.fwd_words_half ["the cat sat"] ["le chat assis"] 100 World.empty.
Proof.
  split; [discriminate|].
  apply (null_align_has_no_effect (prov := Reference.provider) (num := Reference.numerics)
           Examples.fwd_words Examples.fwd_words_half
           ["the cat sat"] ["le chat assis"] 100 World.empty);
    reflexivity.
Defined.

(** ** The distortion prior (C8) *)

(** C8.  [apply_distortion] returns its matrix unchanged when the ratio is
    [0.0], whatever the matrix, and when the matrix has fewer than two rows
    or fewer than two columns, whatever the ratio. *)
Theorem apply_distortion_identity (S : ndarray) (ratio : float) :
  apply_distortion S Float.zero = S ∧
  (Np.shape0 S < 2 ∨ Np.shape1 S < 2 → apply_distortion S ratio = S).
Proof.
  split.
  - unfold apply_distortion. rewrite orb_true_r. reflexivity.
  - intros H. unfold apply_distortion.
    destruct H as [H|H]; apply Nat.ltb_lt in H; rewrite H.
    + reflexivity.
    + rewrite orb_true_r. reflexivity.
Qed.

Lemma apply_distortion_identity_witness :
  (Np.shape0 [[Float.half; Float.one; Float.zero]] < 2 ∨
   Np.shape1 [[Float.half; Float.one; Float.zero]] < 2) ∧
  apply_distortion [[Float.half; Float.one; Float.zero]] Float.half
  = [[Float.half; Float.one; Float.zero]].
Proof.
  split; [left; simpl; lia|].
  apply (proj2 (apply_distortion_identity [[Float.half; Float.one; Float.zero]] Float.half)).
  left. simpl. lia.
Defined.

(** ** Forward and backward argmax, and [iter_max] on small matrices (C6) *)

Lemma argmax_from_lt (l : vec) (i : nat) (best : float) (besti : nat) :
  besti < i → Np.argmax_from l i best besti < i + length l.
Proof.
  revert i best besti. induction l as [|v l IH]; intros i best besti Hb; simpl.
  - lia.
  - destruct (Float.is_nan best); [lia|].
    destruct (negb (Float.leb v best)).
    + specialize (IH (S i) v i). lia.
    + specialize (IH (S i) best besti). lia.
Qed.

Lemma argmax_Ok (l : vec) :
  l ≠ [] → ∃ k, Np.argmax l = Ok k ∧ k < length l.
Proof.
  destruct l as [|v l]; [done|]. intros _. simpl. eexists. split; [done|].
  pose proof (argmax_from_lt l 1 v 0). lia.
Qed.

Lemma length_eye (n : nat) : length (Np.eye n) = n.
Proof. unfold Np.eye. by rewrite length_map, length_seq. Qed.

Lemma take_eye_Ok (n : nat) (idx : list nat) :
  Forall (λ k, k < n) idx →
  ∃ rows, Np.take (Np.eye n) idx = Ok rows ∧ length rows = length idx.
Proof.
  intros H. unfold Np.take.
  destruct (mapR_Ok_Forall (getitem (Np.eye n)) (λ _, True) idx) as (ys & Hys & _ & HL).
  - eapply Forall_impl; [exact H|]. intros k Hk. cbv beta.
    destruct (getitem_lt (Np.eye n) k) as (a & Ha & _).
    + by rewrite length_eye.
    + by exists a.
  - eauto.
Qed.

(** On a rectangular matrix with at least one row and one column the
    forward and backward argmax matrices exist. *)
Lemma get_alignment_matrix_defined (S : ndarray) :
  Np.rectangular S → 0 < Np.shape0 S → 0 < Np.shape1 S →
  ∃ forward backward_T, get_alignment_matrix S = Ok (forward, backward_T).
Proof.
  intros Hrect Hm Hn. unfold get_alignment_matrix.
  destruct (mapR_Ok_Forall Np.argmax (λ k, k < Np.shape1 S) S) as (am1 & H1 & HF1 & _).
  { eapply Forall_impl; [exact Hrect|]. intros r Hr. simpl in *.
    destruct (argmax_Ok r) as (k & Hk & Hlt).
    - intros ->. simpl in Hr. lia.
    - exists k. split; [done|]. lia. }
  unfold Np.argmax_axis1. rewrite H1. simpl.
  destruct (take_eye_Ok _ _ HF1) as (forward & Hf & _). rewrite Hf. simpl.
  destruct (mapR_Ok_Forall Np.argmax (λ k, k < Np.shape0 S) (Np.transpose S))
    as (am0 & H0 & HF0 & _).
  { unfold Np.transpose. apply Forall_forall. intros col Hcol.
    apply list_elem_of_fmap in Hcol as (j & -> & _).
    destruct (argmax_Ok (map (λ r : vec, default Float.zero (r !! j)) S))
      as (k & Hk & Hlt).
    - destruct S; [simpl in Hm; lia | done].
    - exists k. split; [done|]. rewrite length_map in Hlt. done. }
  unfold Np.argmax_axis0. destruct S as [|r S']; [simpl in Hm; lia|].
  rewrite H0. simpl.
  destruct (take_eye_Ok _ _ HF0) as (backward & Hb & _).
  simpl in Hb. rewrite Hb. simpl. eauto.
Qed.

(** ** The span index (C7) *)

Lemma slice_seq (L i d : nat) : i + d ≤ L → slice (seq 0 L) i (i + d) = seq i d.
Proof.
  intros H. unfold slice. rewrite drop_seq, take_seq. f_equal. lia.
Qed.

Lemma filter_fits_upto (N L d : nat) :
  1 ≤ d → filter (λ i, i + d ≤ N) (seq 0 L) = seq 0 (Nat.min L (N + 1 - d)).
Proof.
  intros Hd. induction L as [|L IH]; [done|].
  rewrite seq_S, filter_app, IH.
  destruct (decide (L + d ≤ N)) as [Hle|Hgt].
  - rewrite filter_cons_True by lia. rewrite filter_nil.
    replace (Nat.min (S L) (N + 1 - d)) with (S (Nat.min L (N + 1 - d))) by lia.
    rewrite seq_S. do 2 f_equal. simpl. f_equal. lia.
  - rewrite filter_cons_False by lia. rewrite filter_nil, app_nil_r.
    f_equal. lia.
Qed.

Lemma filter_fits (L d : nat) :
  1 ≤ d → filter (λ i, i + d ≤ L) (seq 0 L) = seq 0 (L + 1 - d).
Proof. intros Hd. rewrite filter_fits_upto by done. f_equal. lia. Qed.

(** The spans the code builds for a sentence of [L] words are the windows
    of the specification, in the same order. *)
Lemma span_idx_windows (L : nat) : span_idx (range 0 L) 3 = windows L 3.
Proof.
  unfold span_idx, windows, range. rewrite !Nat.sub_0_r, length_seq.
  replace (3 + 1 - 1) with 3 by lia. simpl seq at 3 5.
  simpl flat_map. rewrite !filter_fits by lia.
  f_equal; [|f_equal; [|f_equal]];
    apply map_ext_in; intros i Hi; apply in_seq in Hi; apply slice_seq; lia.
Qed.

Lemma length_windows (L : nat) : length (windows L 3) = L + (L - 1) + (L - 2).
Proof.
  unfold windows. simpl. rewrite !length_app, !length_map, !length_seq. simpl. lia.
Qed.

(** C7.  When every source sentence has a target sentence, [get_span_index]
    with [max_d = 3] succeeds and gives, for each source sentence and for
    the target sentence paired with it, the windows of lengths 1, 2 and 3
    over its [L] word indices, grouped by length then by start index; there
    are [L + (L - 1) + (L - 2)] of them, a term that would be negative
    counting for nothing (the subtraction is that of natural numbers). *)
Theorem get_span_index_windows (source_sentences target_sentences : list string) :
  length source_sentences ≤ length target_sentences →
  get_span_index source_sentences target_sentences 3 =
    Ok (map (λ s, windows (length (str_split s)) 3) source_sentences,
        map (λ s, windows (length (str_split s)) 3)
            (take (length source_sentences) target_sentences))
  ∧ ∀ L, span_idx (range 0 L) 3 = windows L 3
         ∧ length (windows L 3) = L + (L - 1) + (L - 2).
Proof.
  intros Hlen. split.
  2:{ intros L. split; [apply span_idx_windows | apply length_windows]. }
  unfold get_span_index.
  set (g := λ i : nat,
         (match source_sentences !! i with
          | Some s => windows (length (str_split s)) 3 | None => [] end,
          match take (length source_sentences) target_sentences !! i with
          | Some s => windows (length (str_split s)) 3 | None => [] end)).
  rewrite (mapR_ext_Ok _ g).
  - simpl. unfold g. rewrite !map_map. simpl. unfold range. rewrite Nat.sub_0_r.
    f_equal. f_equal.
    + apply map_lookup_seq.
    + rewrite <- (map_lookup_seq (λ s, windows (length (str_split s)) 3) []
                   (take (length source_sentences) target_sentences)).
      rewrite length_take. by rewrite Nat.min_l.
  - intros i Hi. unfold range in Hi. apply elem_of_seq in Hi.
    destruct (lookup_lt_is_Some_2 source_sentences i) as [s Hs]; [lia|].
    destruct (lookup_lt_is_Some_2 target_sentences i) as [t Ht]; [lia|].
    apply getitem_Ok in Hs as Hs'. apply getitem_Ok in Ht as Ht'.
    rewrite Hs', Ht'. simpl. unfold g. rewrite Hs.
    rewrite lookup_take_lt by lia. rewrite Ht.
    by rewrite !span_idx_windows.
Qed.

Lemma get_span_index_windows_witness :
  length ["a b c d"; "e"; Examples.three_words]
    ≤ length ["a b"; ""; "x"; "f g h i j k"] ∧
  get_span_index ["a b c d"; "e"; Examples.three_words]
                 ["a b"; ""; "x"; "f g h i j k"] 3 =
    Ok ([[[0]; [1]; [2]; [3]; [0; 1]; [1; 2]; [2; 3]; [0; 1; 2]; [1; 2; 3]];
         [[0]];
         [[0]; [1]; [2]; [0; 1]; [1; 2]; [0; 1; 2]]],
        [[[0]; [1]; [0; 1]]; []; [[0]]]).
Proof.
  split; [simpl; lia|].
  apply (proj1 (get_span_index_windows ["a b c d"; "e"; Examples.three_words]
                  ["a b"; ""; "x"; "f g h i j k"] ltac:(simpl; lia))).
Defined.

(** [split] parts words at every whitespace character of the strings, the
    no-break space and the next-line character among them. *)
Lemma str_split_latin1_whitespace :
  str_split Examples.three_words = ["a"; "b"; "c"] ∧
  Forall (λ n, is_space (Ascii.ascii_of_nat n) = true)
         [9; 10; 11; 12; 13; 28; 29; 30; 31; 32; 133; 160] ∧
  Forall (λ n, is_space (Ascii.ascii_of_nat n) = false) [8; 14; 27; 33; 132; 134; 159; 161].
Proof. split; [reflexivity|]. split; repeat constructor. Qed.

(** ** Min-max normalisation of a constant matrix (C3) *)

Lemma maximum_diag (c : float) : Float.maximum c c = c.
Proof. unfold Float.maximum. by destruct (_ || _). Qed.
Lemma minimum_diag (c : float) : Float.minimum c c = c.
Proof. unfold Float.minimum. by destruct (_ || _). Qed.

Lemma sub_diag (c : float) :
  Float.sub c c = S754_nan ∨ Float.sub c c = Float.zero.
Proof.
  destruct c as [[]|[]| |s m e]; simpl; auto.
  right. unfold Float.sub, SFsub. rewrite Z.sub_diag. reflexivity.
Qed.

(** [(c - c) / (c - c)] is NaN for every [c]: the difference is [0.0], or
    already NaN when [c] is infinite or NaN. *)
Lemma div_sub_diag (c : float) :
  Float.div (Float.sub c c) (Float.sub c c) = S754_nan.
Proof. destruct (sub_diag c) as [-> | ->]; reflexivity. Qed.

Lemma fold_left_idem (f : float → float → float) (c : float) (l : vec) :
  f c c = c → Forall (λ v, v = c) l → fold_left f l c = c.
Proof.
  intros Hf. induction 1 as [|v l -> _ IH]; simpl; [done|]. by rewrite Hf.
Qed.

Lemma reduce_constant (f : float → float → float) (c : float) (a : ndarray) :
  f c c = c → constant c a → concat a ≠ [] → Np.reduce f (concat a) = Ok c.
Proof.
  intros Hf Hc Hne. apply Forall_concat in Hc.
  destruct (concat a) as [|v l]; [done|].
  apply Forall_cons in Hc as [-> Hl]. simpl. f_equal. by apply fold_left_idem.
Qed.

Lemma map1_constant (g : float → float) (c : float) (a : ndarray) :
  constant c a → Np.map1 g a = Np.map1 (λ _, g c) a.
Proof.
  intros H. unfold Np.map1. apply map_ext_Forall.
  eapply Forall_impl; [exact H|]. intros r Hr. simpl.
  apply map_ext_Forall. eapply Forall_impl; [exact Hr|]. by intros v ->.
Qed.

(** C3, as the code has it.  When the raw cosine-similarity matrix of [X]
    and [Y] is constant (it has a cell and every cell is the same value
    [c]), [get_similarity_norm] does not single the case out: it divides
    [c - c] by [max - min = c - c] in every cell and returns a new array of
    the same shape whose every entry is NaN. *)
Theorem get_similarity_norm_constant {num : Numerics}
    (X Y : list vec) (data : ndarray) (c : float) (w : world) :
  cosine_similarity X Y = Ok data →
  concat data ≠ [] →
  constant c data →
  get_similarity_norm X Y w =
    (Ok (length (heap w)),
     MkWorld (heap w ++ [Np.map1 (λ _, S754_nan) data]) (trace w)).
Proof.
  intros Hcos Hne Hc. unfold get_similarity_norm, bind, lift.
  rewrite Hcos. unfold Np.max, Np.min.
  rewrite !(reduce_constant _ c) by auto using maximum_diag, minimum_diag.
  unfold alloc. rewrite (map1_constant _ c) by done.
  by rewrite div_sub_diag.
Qed.

Lemma get_similarity_norm_constant_witness :
  get_similarity_norm (num := Reference.numerics)
    [[Float.one; Float.zero]] [[Float.one; Float.zero]; [Float.two; Float.zero]]
    World.empty
  = (Ok 0, MkWorld [[[S754_nan; S754_nan]]] []).
Proof.
  apply (get_similarity_norm_constant (num := Reference.numerics)
           [[Float.one; Float.zero]] [[Float.one; Float.zero]; [Float.two; Float.zero]]
           [[Float.one; Float.one]] Float.one World.empty).
  - vm_compute. reflexivity.
  - discriminate.
  - repeat constructor.
Defined.

(** C3 as stated fails: one vector against itself has the constant cosine
    matrix [[1.0]] (its maximum is its minimum), and the normalised matrix
    that comes back is [[NaN]], which is not finite. *)
Lemma get_similarity_norm_constant_not_finite :
  cosine_similarity (Numerics := Reference.numerics) [[Float.one]] [[Float.one]]
    = Ok [[Float.one]] ∧
  Np.max [[Float.one]] = Np.min [[Float.one]] ∧
  (let* r := get_similarity_norm (num := Reference.numerics) [[Float.one]] [[Float.one]] in
   load r) World.empty
    = (Ok [[S754_nan]], MkWorld [[[S754_nan]]] []) ∧
  Float.is_finite S754_nan = false.
Proof. repeat split; vm_compute; reflexivity. Qed.

(** ** The order of the links of [align_sentences] (C1) *)

(** C1 fails on the code.  Eleven source words aligned forward to one target
    word give the links [i-0] for [i] from 0 to 10; [align_sentences] returns
    them in the order of their strings, ["10-0"] before ["2-0"], which is
    not the order of the integer pairs. *)
Theorem align_sentences_sorts_links_as_strings :
  (Examples.eleven_to_one World.empty).1
    = Ok ["0-0 1-0 10-0 2-0 3-0 4-0 5-0 6-0 7-0 8-0 9-0"] ∧
  numerically_sorted "0-0 1-0 10-0 2-0 3-0 4-0 5-0 6-0 7-0 8-0 9-0" = false ∧
  sorted_links (str_split "0-0 1-0 10-0 2-0 3-0 4-0 5-0 6-0 7-0 8-0 9-0")
    = Ok ["0-0"; "1-0"; "2-0"; "3-0"; "4-0"; "5-0"; "6-0"; "7-0"; "8-0"; "9-0"; "10-0"].
Proof. repeat split; vm_compute; reflexivity. Qed.

(** ** Source and target lists of different lengths (C2) *)

Section Mismatch.
Context {prov : Provider} {num : Numerics}.
Variables (self : t) (source_sentences target_sentences : list string).

(** The tokenisation loop every mode starts with runs over the source
    indices and raises at the first one that has no target. *)
Lemma words_tokens_of_short :
  length target_sentences < length source_sentences →
  words_tokens_of self source_sentences target_sentences = Raise IndexError.
Proof using Type.
  intros Hlen. unfold words_tokens_of.
  rewrite (range_split (length target_sentences)) by done.
  apply mapR_raise.
  - intros i Hi. apply elem_of_seq in Hi.
    destruct (lookup_lt_is_Some_2 source_sentences i) as [s Hs]; [lia|].
    destruct (lookup_lt_is_Some_2 target_sentences i) as [t' Ht]; [lia|].
    apply getitem_Ok in Hs, Ht. rewrite Hs, Ht. simpl. eauto.
  - destruct (lookup_lt_is_Some_2 source_sentences (length target_sentences))
      as [s Hs]; [lia|].
    apply getitem_Ok in Hs. rewrite Hs. simpl. by rewrite getitem_ge.
Qed.

(** Only the targets at source indices are ever read. *)
Let truncated := take (length source_sentences) target_sentences.

Lemma words_tokens_of_take :
  words_tokens_of self source_sentences target_sentences
  = words_tokens_of self source_sentences truncated.
Proof using Type.
  unfold words_tokens_of. apply mapR_ext_in. intros i Hi.
  unfold range in Hi. apply elem_of_seq in Hi.
  unfold truncated. rewrite getitem_take by lia. done.
Qed.

Lemma get_span_index_take (max_d : nat) :
  get_span_index source_sentences target_sentences max_d
  = get_span_index source_sentences truncated max_d.
Proof using Type.
  unfold get_span_index. f_equal. apply mapR_ext_in. intros i Hi.
  unfold range in Hi. apply elem_of_seq in Hi.
  unfold truncated. rewrite getitem_take by lia. done.
Qed.

Lemma dataset_take :
  dataset source_sentences target_sentences = dataset source_sentences truncated.
Proof using Type.
  unfold dataset. apply mapR_ext_in. intros i Hi.
  unfold range in Hi. apply elem_of_seq in Hi.
  unfold truncated. rewrite getitem_take by lia. done.
Qed.

Lemma dataset_idx (ds : list (nat * string * string)) :
  dataset source_sentences target_sentences = Ok ds →
  Forall (λ d, d.1.1 < length source_sentences) ds.
Proof using Type.
  apply mapR_Forall. intros i d Hi Hd.
  unfold range in Hi. apply elem_of_seq in Hi.
  destruct (getitem source_sentences i); [|done]. simpl in Hd.
  destruct (getitem target_sentences i); [|done]. simpl in Hd.
  injection Hd as <-. simpl. lia.
Qed.

Lemma batches_idx (ds : list (nat * string * string)) (batch_size : nat)
    (data_loader : list (list (nat * string * string))) :
  dataset source_sentences target_sentences = Ok ds →
  DataLoader ds batch_size = Ok data_loader →
  Forall (λ batch, Forall (λ ix : nat * nat, ix.2 < length source_sentences)
                     (enumerate (map (λ d, d.1.1) batch))) data_loader.
Proof using Type.
  intros Hds Hdl. apply dataset_idx in Hds.
  unfold DataLoader in Hdl. destruct (_ =? _); [done|]. injection Hdl as <-.
  eapply Forall_impl; [apply (batches_from_Forall _ _ _ _ (Forall_nil_2 _) Hds)|].
  intros batch Hb. simpl.
  apply (enumerate_Forall (λ i, i < length source_sentences)). by apply Forall_fmap.
Qed.

Lemma align_spans_freq_take (batch_size : nat) (w : world) :
  align_spans_freq self source_sentences target_sentences batch_size w
  = align_spans_freq self source_sentences truncated batch_size w.
Proof using Type.
  unfold align_spans_freq.
  rewrite (words_tokens_of_take), (get_span_index_take 3), dataset_take.
  fold truncated.
  apply bind_ext. intros words_tokens w1 _.
  apply bind_ext. intros [source_spans target_spans] w2 _.
  apply bind_ext. intros spans_pair_bpe w3 _.
  apply bind_ext. intros ds w4 Hds.
  apply bind_ext. intros data_loader w5 Hdl.
  injection Hds as Hds _. injection Hdl as Hdl _.
  rewrite <- dataset_take in Hds.
  pose proof (batches_idx _ _ _ Hds Hdl) as Hidx.
  unfold bind at 1 3. erewrite mapW_ext_in; [reflexivity|].
  intros batch w' Hbatch. eapply Forall_forall in Hidx; [|exact Hbatch].
  apply bind_ext. intros vs w6 _.
  apply bind_ext. intros vt w7 _.
  apply mapW_ext_in. intros [in_batch_id sent_id] w8 Hin.
  eapply Forall_forall in Hidx; [|exact Hin]. simpl in Hidx.
  unfold truncated. rewrite getitem_take by done. reflexivity.
Qed.

(** C2, as the code has it.  No mode compares the two lengths.  When the
    target list is the shorter one, each mode raises [IndexError] in its
    tokenisation loop, at the first source sentence that has no target,
    and leaves the world as it was: no embedding was asked for.  In every
    case the targets past the length of the source list are never read:
    each mode gives on the two lists what it gives on the source list and
    the target list cut to the length of the source list, so a longer
    target list raises nothing by itself. *)
Theorem length_mismatch_behaviour (batch_size : nat) (w : world) :
  (length target_sentences < length source_sentences →
     align_sentences self source_sentences target_sentences batch_size w
       = (Raise IndexError, w) ∧
     align_spans_iter self source_sentences target_sentences batch_size w
       = (Raise IndexError, w) ∧
     align_spans_freq self source_sentences target_sentences batch_size w
       = (Raise IndexError, w) ∧
     align_spans_bidirection self source_sentences target_sentences batch_size w
       = (Raise IndexError, w)) ∧
  (align_sentences self source_sentences target_sentences batch_size w
     = align_sentences self source_sentences
         (take (length source_sentences) target_sentences) batch_size w ∧
   align_spans_iter self source_sentences target_sentences batch_size w
     = align_spans_iter self source_sentences
         (take (length source_sentences) target_sentences) batch_size w ∧
   align_spans_freq self source_sentences target_sentences batch_size w
     = align_spans_freq self source_sentences
         (take (length source_sentences) target_sentences) batch_size w ∧
   align_spans_bidirection self source_sentences target_sentences batch_size w
     = align_spans_bidirection self source_sentences
         (take (length source_sentences) target_sentences) batch_size w).
Proof using Type.
  split.
  - intros Hlen.
    unfold align_sentences, align_spans_iter, align_spans_freq,
      align_spans_bidirection.
    unfold bind, lift. rewrite !words_tokens_of_short by done. done.
  - fold truncated. repeat split.
    + unfold align_sentences. by rewrite words_tokens_of_take, dataset_take.
    + unfold align_spans_iter.
      by rewrite words_tokens_of_take, (get_span_index_take 3), dataset_take.
    + apply align_spans_freq_take.
    + unfold align_spans_bidirection.
      by rewrite words_tokens_of_take, (get_span_index_take 3), dataset_take.
Qed.
End Mismatch.

Lemma length_mismatch_behaviour_witness :
  length ["le chat"] < length ["the cat"; "sat"] ∧
  align_sentences (prov := Reference.provider) (num := Reference.numerics)
    Examples.fwd_words ["the cat"; "sat"] ["le chat"] 100 World.empty
  = (Raise IndexError, World.empty).
Proof.
  split; [simpl; lia|].
  apply (proj1 (length_mismatch_behaviour (prov := Reference.provider)
                  (num := Reference.numerics)
                  Examples.fwd_words ["the cat"; "sat"] ["le chat"] 100 World.empty)).
  simpl. lia.
Defined.

(** C2 as stated fails: one source sentence against two target sentences
    is a batch of lists of different lengths, and [align_sentences],
    [align_spans_iter] and [align_spans_freq] return alignments for it. *)
Lemma length_mismatch_accepted :
  length ["the cat"] ≠ length ["le chat"; "assis"] ∧
  (align_sentences (prov := Reference.provider) (num := Reference.numerics)
     Examples.fwd_words ["the cat"] ["le chat"; "assis"] 100 World.empty).1
    = Ok ["0-0 1-0"] ∧
  (align_spans_iter (prov := Reference.provider) (num := Reference.numerics)
     Examples.fwd_words ["the cat"] ["le chat"; "assis"] 100 World.empty).1
    = Ok [""] ∧
  (align_spans_freq (prov := Reference.provider) (num := Reference.numerics)
     Examples.fwd_words ["the cat"] ["le chat"; "assis"] 100 World.empty).1
    = Ok ["0-0"].
Proof. repeat split; try discriminate; vm_compute; reflexivity. Qed.


(** ** The span-iterative matcher works in place (C4, C5) *)

(** *** One array object in the world *)
Lemma set_heap_lookup (r : ref) (a a' : ndarray) (w : world) :
  heap w !! r = Some a → heap (set_heap r a' w) !! r = Some a'.
Proof.
  intros H. simpl. apply list_lookup_insert_eq. by eapply lookup_lt_Some.
Qed.

Lemma set_heap_set_heap (r : ref) (a a' : ndarray) (w : world) :
  set_heap r a' (set_heap r a w) = set_heap r a' w.
Proof. unfold set_heap. simpl. by rewrite list_insert_insert_eq. Qed.

Lemma set_heap_id (r : ref) (a : ndarray) (w : world) :
  heap w !! r = Some a → set_heap r a w = w.
Proof. intros H. destruct w as [h t]. unfold set_heap. simpl in *. by rewrite list_insert_id. Qed.

Section Runs.
Context (r : ref).

Lemma runs_ret {A} (v : A) (a : ndarray) : runs r (ret v) a v a.
Proof. intros w Hw. unfold ret. by rewrite set_heap_id. Qed.

Lemma runs_lift {A} (res : result A) (v : A) (a : ndarray) :
  res = Ok v → runs r (lift res) a v a.
Proof. intros -> w Hw. unfold lift. by rewrite set_heap_id. Qed.

Lemma runs_bind {A B} (m : M A) (k : A → M B) (a a' a'' : ndarray) (v : A) (u : B) :
  runs r m a v a' → runs r (k v) a' u a'' → runs r (bind m k) a u a''.
Proof.
  intros Hm Hk w Hw. unfold bind. rewrite (Hm w Hw).
  rewrite (Hk _ (set_heap_lookup _ _ _ _ Hw)). by rewrite set_heap_set_heap.
Qed.

Lemma runs_load (a : ndarray) : runs r (load r) a a a.
Proof. intros w Hw. unfold load. rewrite Hw. by rewrite set_heap_id. Qed.

Lemma runs_update (f : ndarray → result ndarray) (a a' : ndarray) :
  f a = Ok a' → runs r (update r f) a tt a'.
Proof.
  intros Hf. unfold update.
  eapply runs_bind; [apply runs_load|].
  eapply runs_bind; [by apply runs_lift|].
  intros w Hw. reflexivity.
Qed.

(** A [for] loop with an invariant over the elements already visited. *)
Lemma runs_for {A} (body : A → M unit) (I : list A → ndarray → Prop) (l : list A) :
  (∀ pre x post a, l = pre ++ x :: post → I pre a →
     ∃ a', runs r (body x) a tt a' ∧ I (pre ++ [x]) a') →
  ∀ a, I [] a → ∃ a', runs r (for_ l body) a tt a' ∧ I l a'.
Proof.
  intros Hbody.
  cut (∀ rest pre a, l = pre ++ rest → I pre a →
         ∃ a', runs r (for_ rest body) a tt a' ∧ I l a').
  { intros H a Ha. by apply (H l [] a). }
  induction rest as [|x rest IH]; intros pre a Hl Ha.
  - rewrite app_nil_r in Hl. subst pre. exists a. split; [apply runs_ret|done].
  - destruct (Hbody pre x rest a Hl Ha) as (a1 & Hrun1 & HI1).
    destruct (IH (pre ++ [x]) a1) as (a2 & Hrun2 & HI2); [|done|].
    { by rewrite <- app_assoc. }
    exists a2. split; [|done]. simpl. eapply runs_bind; eauto.
Qed.
End Runs.

(** *** Overwriting cells with [0.] *)
Lemma zeroed_refl v : zeroed v v.
Proof. by left. Qed.

Lemma zeroed_trans v1 v2 v3 : zeroed v1 v2 → zeroed v2 v3 → zeroed v1 v3.
Proof. unfold zeroed. intros [->| ->] [->| ->]; auto. Qed.

Lemma zeroing_refl (a : ndarray) : zeroing a a.
Proof.
  apply Forall2_same_length_lookup_2; [done|]. intros i r r' Hr Hr'.
  assert (r' = r) as -> by congruence.
  apply Forall2_same_length_lookup_2; [done|]. intros j v v' Hv Hv'.
  assert (v' = v) as -> by congruence. apply zeroed_refl.
Qed.

Lemma zeroing_trans (a1 a2 a3 : ndarray) : zeroing a1 a2 → zeroing a2 a3 → zeroing a1 a3.
Proof.
  unfold zeroing. intros H12 H23.
  eapply Forall2_trans; [| exact H12 | exact H23].
  intros r1 r2 r3 Hr12 Hr23. eapply Forall2_trans; [| exact Hr12 | exact Hr23].
  apply zeroed_trans.
Qed.

Create HintDb zeroing.
#[local] Hint Resolve zeroed_refl zeroing_refl : zeroing.
#[local] Hint Extern 2 (zeroing _ _) => eapply zeroing_trans; eassumption : zeroing.

Lemma zeroing_length (a a' : ndarray) : zeroing a a' → length a' = length a.
Proof. intros H. symmetry. by eapply Forall2_length. Qed.

Lemma cell_Some (a : ndarray) (i j : nat) (v : float) :
  Np.cell a i j = Some v ↔ ∃ r, a !! i = Some r ∧ r !! j = Some v.
Proof.
  unfold Np.cell. destruct (a !! i) as [r|]; split.
  - intros H. by exists r.
  - intros (r' & [= <-] & H). done.
  - done.
  - intros (r' & [=] & _).
Qed.

Lemma zeroing_cell (a a' : ndarray) (i j : nat) (v : float) :
  zeroing a a' → Np.cell a i j = Some v →
  ∃ v', Np.cell a' i j = Some v' ∧ zeroed v v'.
Proof.
  intros Hz (r & Hr & Hv)%cell_Some.
  destruct (Forall2_lookup_l _ _ _ _ _ Hz Hr) as (r' & Hr' & Hrr).
  destruct (Forall2_lookup_l _ _ _ _ _ Hrr Hv) as (v' & Hv' & Hvv).
  exists v'. split; [|done]. apply cell_Some. eauto.
Qed.

Lemma zeroing_cell_r (a a' : ndarray) (i j : nat) (v' : float) :
  zeroing a a' → Np.cell a' i j = Some v' →
  ∃ v, Np.cell a i j = Some v ∧ zeroed v v'.
Proof.
  intros Hz (r' & Hr' & Hv')%cell_Some.
  destruct (Forall2_lookup_r _ _ _ _ _ Hz Hr') as (r & Hr & Hrr).
  destruct (Forall2_lookup_r _ _ _ _ _ Hrr Hv') as (v & Hv & Hvv).
  exists v. split; [|done]. apply cell_Some. eauto.
Qed.

Lemma zeroing_row_zero (a a' : ndarray) (i : nat) :
  zeroing a a' → row_zero a i → row_zero a' i.
Proof.
  intros Hz Hrow j v' Hv'.
  destruct (zeroing_cell_r _ _ _ _ _ Hz Hv') as (v & Hv & [-> | ->]); [|done].
  by eapply Hrow.
Qed.

Lemma zeroing_col_zero (a a' : ndarray) (j : nat) :
  zeroing a a' → col_zero a j → col_zero a' j.
Proof.
  intros Hz Hcol i v' Hv'.
  destruct (zeroing_cell_r _ _ _ _ _ Hz Hv') as (v & Hv & [-> | ->]); [|done].
  by eapply Hcol.
Qed.

Lemma zeroing_shape1 (a a' : ndarray) : zeroing a a' → Np.shape1 a' = Np.shape1 a.
Proof.
  intros H. destruct H as [|r r' a a' Hr _]; [done|]. simpl.
  symmetry. by eapply Forall2_length.
Qed.

Lemma zeroing_concat (a a' : ndarray) :
  zeroing a a' → length (concat a') = length (concat a).
Proof.
  induction 1 as [|r r' a a' Hr _ IH]; [done|]. simpl.
  rewrite !length_app, IH. f_equal. symmetry. by eapply Forall2_length.
Qed.

(** *** The positive cells, counted *)
Lemma npos_vec_cons (v : float) (r : vec) :
  npos_vec (v :: r) = (if positive v then 1 else 0) + npos_vec r.
Proof.
  unfold npos_vec. destruct (positive v) eqn:E.
  - by rewrite filter_cons_True.
  - rewrite filter_cons_False; [done|]. by rewrite E.
Qed.

Lemma zeroed_positive (v v' : float) :
  zeroed v v' → positive v' = true → positive v = true.
Proof. by intros [-> | ->]. Qed.

Lemma npos_vec_le (r r' : vec) : Forall2 zeroed r r' → npos_vec r' ≤ npos_vec r.
Proof.
  induction 1 as [|v v' r r' Hv _ IH]; [done|]. rewrite !npos_vec_cons.
  destruct (positive v') eqn:E'.
  - rewrite (zeroed_positive _ _ Hv E'). lia.
  - destruct (positive v); lia.
Qed.

Lemma npos_vec_lt (r r' : vec) (j : nat) (v : float) :
  Forall2 zeroed r r' → r !! j = Some v → positive v = true →
  r' !! j = Some Float.zero → npos_vec r' < npos_vec r.
Proof.
  intros H. revert j. induction H as [|u u' r r' Hu Hr IH]; intros j Hv Hpos Hz; [done|].
  rewrite !npos_vec_cons. destruct j as [|j]; simpl in *.
  - injection Hv as ->. injection Hz as ->. rewrite Hpos.
    pose proof (npos_vec_le _ _ Hr). simpl. lia.
  - specialize (IH j Hv Hpos Hz).
    destruct (positive u') eqn:E'.
    + rewrite (zeroed_positive _ _ Hu E'). lia.
    + destruct (positive u); lia.
Qed.

Lemma npos_le (a a' : ndarray) : zeroing a a' → npos a' ≤ npos a.
Proof.
  induction 1 as [|r r' a a' Hr _ IH]; [done|]. unfold npos in *. simpl.
  pose proof (npos_vec_le _ _ Hr). lia.
Qed.

Lemma npos_lt (a a' : ndarray) (i j : nat) (v : float) :
  zeroing a a' → Np.cell a i j = Some v → positive v = true →
  Np.cell a' i j = Some Float.zero → npos a' < npos a.
Proof.
  intros H. revert i. induction H as [|r r' a a' Hr Ha IH]; intros i Hv Hpos Hz.
  - by apply cell_Some in Hv as (? & ? & _).
  - unfold npos in *. simpl. destruct i as [|i].
    + apply cell_Some in Hv as (? & [= <-] & Hv). apply cell_Some in Hz as (? & [= <-] & Hz).
      pose proof (npos_vec_lt _ _ _ _ Hr Hv Hpos Hz).
      pose proof (npos_le _ _ Ha). unfold npos in *. lia.
    + assert (Np.cell a i j = Some v) as Hv' by (apply cell_Some; apply cell_Some in Hv; done).
      assert (Np.cell a' i j = Some Float.zero) as Hz'
        by (apply cell_Some; apply cell_Some in Hz; done).
      specialize (IH i Hv' Hpos Hz').
      pose proof (npos_vec_le _ _ Hr). lia.
Qed.

Lemma npos_bound (a : ndarray) : npos a ≤ length (concat a).
Proof.
  induction a as [|r a IH]; [done|]. unfold npos in *. simpl. rewrite length_app.
  assert (npos_vec r ≤ length r) by apply length_filter. lia.
Qed.

(** *** The three in-place assignments *)
Lemma Forall2_zeroed_insert (r : vec) (j : nat) : Forall2 zeroed r (<[j := Float.zero]> r).
Proof.
  apply Forall2_same_length_lookup_2; [by rewrite length_insert|].
  intros k v v' Hv Hv'. destruct (decide (j = k)) as [->|Hne].
  - rewrite list_lookup_insert_eq in Hv' by (by eapply lookup_lt_Some).
    injection Hv' as <-. by right.
  - rewrite list_lookup_insert_ne in Hv' by done. left. congruence.
Qed.

Lemma Forall2_zeroed_clear (r : vec) : Forall2 zeroed r (map (λ _, Float.zero) r).
Proof.
  apply Forall2_fmap_r. apply Forall2_same_length_lookup_2; [done|].
  intros k v v' _ _. by right.
Qed.

Lemma zeroing_insert_row (a : ndarray) (i : nat) (r r' : vec) :
  a !! i = Some r → Forall2 zeroed r r' → zeroing a (<[i := r']> a).
Proof.
  intros Hr Hrr. unfold zeroing.
  rewrite <- (list_insert_id a i r) at 1 by done.
  apply Forall2_insert; [apply zeroing_refl | done].
Qed.

Lemma set_cell_zero (a : ndarray) (x y : nat) (v : float) :
  Np.cell a x y = Some v →
  ∃ a', Np.set_cell a x y Float.zero = Ok a' ∧ zeroing a a' ∧
        Np.cell a' x y = Some Float.zero.
Proof.
  intros (r & Hr & Hv)%cell_Some. unfold Np.set_cell. rewrite Hr.
  apply lookup_lt_Some in Hv as Hlt. rewrite decide_True by done.
  eexists. split; [done|]. split.
  - eapply zeroing_insert_row; [done|]. apply Forall2_zeroed_insert.
  - apply cell_Some. exists (<[y := Float.zero]> r). split.
    + apply list_lookup_insert_eq. by eapply lookup_lt_Some.
    + by apply list_lookup_insert_eq.
Qed.

Lemma set_row_zero (a : ndarray) (i : nat) :
  i < length a →
  ∃ a', Np.set_row a i Float.zero = Ok a' ∧ zeroing a a' ∧ row_zero a' i.
Proof.
  intros Hlt. destruct (lookup_lt_is_Some_2 a i Hlt) as [r Hr].
  unfold Np.set_row. rewrite Hr. eexists. split; [done|]. split.
  - eapply zeroing_insert_row; [done|]. apply Forall2_zeroed_clear.
  - intros j v (r' & Hr' & Hv)%cell_Some.
    rewrite list_lookup_insert_eq in Hr' by done. injection Hr' as <-.
    rewrite list_lookup_fmap in Hv. destruct (r !! j); simpl in Hv; congruence.
Qed.

Lemma set_col_zero (a : ndarray) (j : nat) :
  j < Np.shape1 a →
  ∃ a', Np.set_col a j Float.zero = Ok a' ∧ zeroing a a' ∧ col_zero a' j.
Proof.
  intros Hlt. unfold Np.set_col. rewrite decide_True by done.
  eexists. split; [done|]. split.
  - unfold zeroing. apply Forall2_fmap_r.
    apply Forall2_same_length_lookup_2; [done|]. intros i r r' Hr Hr'.
    assert (r' = r) as -> by congruence. apply Forall2_zeroed_insert.
  - intros i v (r' & Hr' & Hv)%cell_Some.
    rewrite list_lookup_fmap in Hr'. destruct (a !! i) as [r|]; [|done].
    simpl in Hr'. injection Hr' as <-.
    apply list_lookup_insert_Some in Hv as [(_ & -> & _)|(Hne & _)]; done.
Qed.

(** *** The two clearing loops *)
Section Clearing.
Context (r : ref).

Lemma runs_clear_rows (src_spans : list (list nat)) (x : nat) (sx : list nat)
    (a : ndarray) :
  src_spans !! x = Some sx → length src_spans ≤ length a →
  ∃ a', runs r (clear_rows r src_spans x) a tt a' ∧ zeroing a a' ∧
        ∀ i, overlap src_spans x i → row_zero a' i.
Proof.
  intros Hx Hlen. unfold clear_rows.
  set (inner := λ e : nat,
    for_ (enumerate src_spans) (λ '(span_id, src_span),
      if bool_decide (e ∈ src_span)
      then update r (λ a, Np.set_row a span_id Float.zero) else ret tt)).
  assert (∀ e a0, zeroing a a0 →
    ∃ a', runs r (inner e) a0 tt a' ∧ zeroing a0 a' ∧
          ∀ i si, src_spans !! i = Some si → e ∈ si → row_zero a' i) as Hinner.
  { intros e a0 Ha0. unfold inner.
    destruct (runs_for r
      (λ '(span_id, src_span),
         if bool_decide (e ∈ src_span)
         then update r (λ a, Np.set_row a span_id Float.zero) else ret tt)
      (λ pre a', zeroing a0 a' ∧
         ∀ i si, (i, si) ∈ pre → e ∈ si → row_zero a' i)
      (enumerate src_spans)) with (a := a0) as (a' & Hrun & Hz & Hrows).
    - intros pre [i si] post a1 Hl [Hz1 Hrows1].
      assert (src_spans !! i = Some si) as Hi.
      { apply elem_of_enumerate. rewrite Hl. apply elem_of_app. right. left. }
      destruct (bool_decide (e ∈ si)) eqn:Hmem.
      + destruct (set_row_zero a1 i) as (a2 & Hset & Hz2 & Hrow2).
        { rewrite (zeroing_length _ _ Hz1), (zeroing_length _ _ Ha0).
          apply lookup_lt_Some in Hi. lia. }
        exists a2. split; [by apply runs_update|]. split.
        * by eapply zeroing_trans.
        * intros k sk [Hk|Hk]%elem_of_app Hek.
          -- eapply zeroing_row_zero; [exact Hz2|]. by eapply Hrows1.
          -- apply list_elem_of_singleton in Hk as [= -> ->]. done.
      + exists a1. split; [apply runs_ret|]. split; [done|].
        intros k sk [Hk|Hk]%elem_of_app Hek.
        * by eapply Hrows1.
        * apply list_elem_of_singleton in Hk as [= -> ->].
          apply bool_decide_eq_false in Hmem. done.
    - split; [auto with zeroing|]. intros i si Hi. by apply elem_of_nil in Hi.
    - exists a'. split; [done|]. split; [done|].
      intros i si Hi. apply Hrows. by apply elem_of_enumerate. }
  destruct (runs_for r inner
    (λ pre a', zeroing a a' ∧
       ∀ e i si, e ∈ pre → src_spans !! i = Some si → e ∈ si → row_zero a' i)
    sx) with (a := a) as (a' & Hrun & Hz & Hrows).
  - intros pre e post a1 _ [Hz1 Hrows1].
    destruct (Hinner e a1 Hz1) as (a2 & Hrun2 & Hz2 & Hrows2).
    exists a2. split; [done|]. split; [auto with zeroing|].
    intros e' i si [He'|He']%elem_of_app Hi Hmem.
    + eapply zeroing_row_zero; [exact Hz2|]. by eapply Hrows1.
    + apply list_elem_of_singleton in He' as ->. by eapply Hrows2.
  - split; [auto with zeroing|]. intros e i si He. by apply elem_of_nil in He.
  - exists a'. split.
    + eapply runs_bind; [apply runs_lift; by apply getitem_Ok|]. exact Hrun.
    + split; [done|]. intros i (sx' & si & e & Hx' & Hi & He & Hei).
      assert (sx' = sx) as -> by congruence. by eapply Hrows.
Qed.
End Clearing.

Section ClearingCols.
Context (r : ref).

Lemma runs_clear_cols (tgt_spans : list (list nat)) (y : nat) (sy : list nat)
    (a : ndarray) :
  tgt_spans !! y = Some sy → length tgt_spans ≤ Np.shape1 a →
  ∃ a', runs r (clear_cols r tgt_spans y) a tt a' ∧ zeroing a a' ∧
        ∀ j, overlap tgt_spans y j → col_zero a' j.
Proof.
  intros Hy Hlen. unfold clear_cols.
  set (inner := λ e : nat,
    for_ (enumerate tgt_spans) (λ '(span_id, tgt_span),
      if bool_decide (e ∈ tgt_span)
      then update r (λ a, Np.set_col a span_id Float.zero) else ret tt)).
  assert (∀ e a0, zeroing a a0 →
    ∃ a', runs r (inner e) a0 tt a' ∧ zeroing a0 a' ∧
          ∀ j sj, tgt_spans !! j = Some sj → e ∈ sj → col_zero a' j) as Hinner.
  { intros e a0 Ha0. unfold inner.
    destruct (runs_for r
      (λ '(span_id, tgt_span),
         if bool_decide (e ∈ tgt_span)
         then update r (λ a, Np.set_col a span_id Float.zero) else ret tt)
      (λ pre a', zeroing a0 a' ∧
         ∀ j sj, (j, sj) ∈ pre → e ∈ sj → col_zero a' j)
      (enumerate tgt_spans)) with (a := a0) as (a' & Hrun & Hz & Hcols).
    - intros pre [j sj] post a1 Hl [Hz1 Hcols1].
      assert (tgt_spans !! j = Some sj) as Hj.
      { apply elem_of_enumerate. rewrite Hl. apply elem_of_app. right. left. }
      destruct (bool_decide (e ∈ sj)) eqn:Hmem.
      + destruct (set_col_zero a1 j) as (a2 & Hset & Hz2 & Hcol2).
        { rewrite (zeroing_shape1 _ _ Hz1), (zeroing_shape1 _ _ Ha0).
          apply lookup_lt_Some in Hj. lia. }
        exists a2. split; [by apply runs_update|]. split.
        * by eapply zeroing_trans.
        * intros k sk [Hk|Hk]%elem_of_app Hek.
          -- eapply zeroing_col_zero; [exact Hz2|]. by eapply Hcols1.
          -- apply list_elem_of_singleton in Hk as [= -> ->]. done.
      + exists a1. split; [apply runs_ret|]. split; [done|].
        intros k sk [Hk|Hk]%elem_of_app Hek.
        * by eapply Hcols1.
        * apply list_elem_of_singleton in Hk as [= -> ->].
          apply bool_decide_eq_false in Hmem. done.
    - split; [auto with zeroing|]. intros j sj Hj. by apply elem_of_nil in Hj.
    - exists a'. split; [done|]. split; [done|].
      intros j sj Hj. apply Hcols. by apply elem_of_enumerate. }
  destruct (runs_for r inner
    (λ pre a', zeroing a a' ∧
       ∀ e j sj, e ∈ pre → tgt_spans !! j = Some sj → e ∈ sj → col_zero a' j)
    sy) with (a := a) as (a' & Hrun & Hz & Hcols).
  - intros pre e post a1 _ [Hz1 Hcols1].
    destruct (Hinner e a1 Hz1) as (a2 & Hrun2 & Hz2 & Hcols2).
    exists a2. split; [done|]. split; [auto with zeroing|].
    intros e' j sj [He'|He']%elem_of_app Hj Hmem.
    + eapply zeroing_col_zero; [exact Hz2|]. by eapply Hcols1.
    + apply list_elem_of_singleton in He' as ->. by eapply Hcols2.
  - split; [auto with zeroing|]. intros e j sj He. by apply elem_of_nil in He.
  - exists a'. split.
    + eapply runs_bind; [apply runs_lift; by apply getitem_Ok|]. exact Hrun.
    + split; [done|]. intros j (sy' & sj & e & Hy' & Hj & He & Hej).
      assert (sy' = sy) as -> by congruence. by eapply Hcols.
Qed.
End ClearingCols.

(** *** The maximum and where it is *)
Lemma maximum_cases (u v : float) : Float.maximum u v = u ∨ Float.maximum u v = v.
Proof. unfold Float.maximum. destruct (_ || _); auto. Qed.

Lemma fold_maximum_elem (l : vec) (x : float) :
  fold_left Float.maximum l x ∈ x :: l.
Proof.
  revert x. induction l as [|v l IH]; intros x; simpl; [left|].
  specialize (IH (Float.maximum x v)).
  apply elem_of_cons in IH as [-> | IH].
  - destruct (maximum_cases x v) as [-> | ->]; [left | right; left].
  - right. by right.
Qed.

Lemma max_elem (a : ndarray) (top : float) : Np.max a = Ok top → top ∈ concat a.
Proof.
  unfold Np.max, Np.reduce. destruct (concat a) as [|x l]; [done|].
  intros [= <-]. apply fold_maximum_elem.
Qed.

Lemma max_defined (a : ndarray) : concat a ≠ [] → ∃ top, Np.max a = Ok top.
Proof.
  unfold Np.max, Np.reduce. destruct (concat a) as [|x l]; [done|]. eauto.
Qed.

Lemma eqb_refl_positive (top : float) :
  Float.gtb top Float.zero = true → Float.eqb top top = true.
Proof.
  destruct top as [s|s| |s m e]; try done.
  - by destruct s.
  - unfold Float.eqb, SFeqb. simpl. destruct s; [done|].
    by rewrite Z.compare_refl, Pos.compare_cont_refl.
Qed.

Lemma eqb_positive (v top : float) :
  Float.eqb v top = true → Float.gtb top Float.zero = true → positive v = true.
Proof.
  unfold positive, Float.eqb, Float.gtb, SFeqb, SFltb.
  destruct top as [s|s| |s m e], v as [s'|s'| |s' m' e']; simpl; try done;
    destruct s, s'; simpl; done.
Qed.

Lemma where_first_from_spec (top : float) (a : ndarray) (k : nat) :
  (∃ v, v ∈ concat a ∧ Float.eqb v top = true) →
  ∃ x y v, Np.where_first_from top a k = Some (k + x, y) ∧
            Np.cell a x y = Some v ∧ Float.eqb v top = true.
Proof.
  revert k. induction a as [|r a IH]; intros k (v & Hv & Heq).
  - by apply elem_of_nil in Hv.
  - simpl. unfold Np.find_in_row.
    destruct (list_find (λ c, Float.eqb c top = true) r) as [[j c]|] eqn:Hfind; simpl.
    + apply list_find_Some in Hfind as (Hc & Hcq & _).
      exists 0, j, c. rewrite Nat.add_0_r. split; [done|]. split; [|done].
      apply cell_Some. by exists r.
    + simpl in Hv. apply elem_of_app in Hv as [Hv|Hv].
      * eapply list_find_None, Forall_forall in Hfind; [|exact Hv]. done.
      * destruct (IH (S k)) as (x & y & c & Hw & Hc & Hcq); [eauto|].
        exists (S x), y, c. rewrite <- Nat.add_succ_comm. split; [done|]. split; [|done].
        apply cell_Some. apply cell_Some in Hc. done.
Qed.

Lemma where_first_spec (top : float) (a : ndarray) :
  Np.max a = Ok top → Float.gtb top Float.zero = true →
  ∃ x y v, Np.where_first top a = Ok (x, y) ∧ Np.cell a x y = Some v ∧
            positive v = true.
Proof.
  intros Hmax Hpos.
  destruct (where_first_from_spec top a 0) as (x & y & v & Hw & Hc & Heq).
  { exists top. split; [by apply max_elem | by apply eqb_refl_positive]. }
  exists x, y, v. unfold Np.where_first. rewrite Hw. simpl.
  split; [done|]. split; [done|]. by eapply eqb_positive.
Qed.

Lemma zeroing_row_length (S a : ndarray) (i : nat) (r : vec) :
  Np.rectangular S → zeroing S a → a !! i = Some r → length r = Np.shape1 S.
Proof.
  intros Hrect Hz Hr.
  destruct (Forall2_lookup_r _ _ _ _ _ Hz Hr) as (rS & HrS & Hrr).
  rewrite <- (Forall2_length _ _ _ Hrr).
  eapply Forall_lookup_1 in Hrect; [|exact HrS]. done.
Qed.

Lemma cell_set_cell_ne (A A' : ndarray) (x y x0 y0 : nat) (v : float) :
  Np.set_cell A x y v = Ok A' → (x0, y0) ≠ (x, y) → Np.cell A' x0 y0 = Np.cell A x0 y0.
Proof.
  unfold Np.set_cell. destruct (A !! x) as [rA|] eqn:HrA; [|done].
  destruct (decide (y < length rA)); [|done]. intros [= <-] Hne.
  unfold Np.cell. destruct (decide (x0 = x)) as [->|Hx].
  - rewrite list_lookup_insert_eq by (by eapply lookup_lt_Some). rewrite HrA.
    apply list_lookup_insert_ne. congruence.
  - by rewrite list_lookup_insert_ne.
Qed.

Lemma set_cell_shape (a A : ndarray) (x y : nat) (v u : float) :
  Forall2 (λ r rA : vec, length r = length rA) a A → Np.cell a x y = Some v →
  ∃ A', Np.set_cell A x y u = Ok A' ∧
        Forall2 (λ r rA : vec, length r = length rA) a A' ∧
        Np.cell A' x y = Some u.
Proof.
  intros Hsh (r & Hr & Hv)%cell_Some.
  destruct (Forall2_lookup_l _ _ _ _ _ Hsh Hr) as (rA & HrA & Hlen).
  apply lookup_lt_Some in Hv as Hlt.
  unfold Np.set_cell. rewrite HrA. rewrite decide_True by lia.
  eexists. split; [done|]. split.
  - rewrite <- (list_insert_id a x r) by done. apply Forall2_insert; [done|].
    by rewrite length_insert.
  - apply cell_Some. exists (<[y := u]> rA). split.
    + apply list_lookup_insert_eq. by eapply lookup_lt_Some.
    + apply list_lookup_insert_eq. lia.
Qed.

Lemma zeroing_shape (a a' A : ndarray) :
  zeroing a a' → Forall2 (λ r rA : vec, length r = length rA) a A →
  Forall2 (λ r rA : vec, length r = length rA) a' A.
Proof.
  intros Hz Hsh. apply Forall2_flip in Hz.
  eapply Forall2_trans; [| exact Hz | exact Hsh].
  intros r' r rA Hrr Hlen. simpl in Hrr. rewrite <- Hlen.
  symmetry. by eapply Forall2_length.
Qed.

Lemma positive_not_zero (v : float) : positive v = true → v ≠ Float.zero.
Proof. by intros H ->. Qed.

Lemma overlap_sym (spans : list (list nat)) (i k : nat) :
  overlap spans i k → overlap spans k i.
Proof. intros (si & sk & e & ? & ? & ? & ?). exists sk, si, e. auto. Qed.

(** One statement of a program that works on the array [r]. *)
Ltac step :=
  eapply runs_bind;
  [first [apply runs_load | by apply runs_lift | by apply runs_update]|].

(** *** The loop *)

Section Loop.
Context (r : ref) (S : ndarray) (src_spans tgt_spans : list (list nat)).
Hypothesis Hfits : fits S src_spans tgt_spans.

Lemma inv_step (a A : ndarray) (x y : nat) (v : float) :
  inv S src_spans tgt_spans a A →
  Np.cell a x y = Some v → positive v = true →
  ∃ A' a',
    Np.set_cell A x y Float.one = Ok A' ∧
    (∀ B (k : M B) (u : B) (a'' : ndarray), runs r k a' u a'' →
       runs r (update r (λ a, Np.set_cell a x y Float.zero);;
               clear_rows r src_spans x;; clear_cols r tgt_spans y;; k) a u a'') ∧
    inv S src_spans tgt_spans a' A' ∧ npos a' < npos a.
Proof using Hfits.
  destruct Hfits as (Hrect & Hm & Hn & Hsrc & Htgt).
  intros [Hz Hsh Hsrc0 Hcl Hfree] Hv Hpos.
  destruct (set_cell_shape a A x y v Float.one Hsh Hv) as (A' & HA' & Hsh' & HcA').
  destruct (set_cell_zero a x y v Hv) as (a1 & Ha1 & Hz1 & Hc1).
  apply cell_Some in Hv as Hv'. destruct Hv' as (row & Hrow & Hy).
  assert (x < length src_spans) as Hx.
  { rewrite Hsrc. unfold Np.shape0. rewrite <- (zeroing_length _ _ Hz).
    by eapply lookup_lt_Some. }
  assert (y < length tgt_spans) as Hylt.
  { rewrite Htgt. rewrite <- (zeroing_row_length S a x row) by done.
    by eapply lookup_lt_Some. }
  destruct (lookup_lt_is_Some_2 _ _ Hx) as [sx Hsx].
  destruct (lookup_lt_is_Some_2 _ _ Hylt) as [sy Hsy].
  destruct (runs_clear_rows r src_spans x sx a1 Hsx) as (a2 & Hrun2 & Hz2 & Hrows2).
  { rewrite (zeroing_length _ _ Hz1), (zeroing_length _ _ Hz). unfold Np.shape0 in Hsrc. lia. }
  destruct (runs_clear_cols r tgt_spans y sy a2 Hsy) as (a3 & Hrun3 & Hz3 & Hcols3).
  { rewrite (zeroing_shape1 _ _ Hz2), (zeroing_shape1 _ _ Hz1), (zeroing_shape1 _ _ Hz). lia. }
  assert (zeroing a a3) as Hz13 by (eapply zeroing_trans; [|eapply zeroing_trans]; done).
  assert (Np.cell a3 x y = Some Float.zero) as Hc3.
  { destruct (zeroing_cell a1 a3 x y Float.zero) as (v3 & Hv3 & [-> | ->]); try done.
    by eapply zeroing_trans. }
  exists A', a3. split; [done|]. split.
  { intros B k u a'' Hk. eapply runs_bind; [by apply runs_update|].
    eapply runs_bind; [exact Hrun2|]. eapply runs_bind; [exact Hrun3|]. exact Hk. }
  split; [|by eapply npos_lt].
  assert (∀ x0 y0, committed A' x0 y0 → (x0, y0) = (x, y) ∨ committed A x0 y0) as Hcom.
  { intros x0 y0 Hc. destruct (decide ((x0, y0) = (x, y))) as [|Hne]; [by left|].
    right. unfold committed in *. by rewrite <- (cell_set_cell_ne A A' x y x0 y0 Float.one). }
  split.
  - by eapply zeroing_trans.
  - by eapply zeroing_shape.
  - intros x0 y0 [[= -> ->]|Hold]%Hcom; [|by apply Hsrc0].
    destruct (zeroing_cell_r S a x y v Hz Hv) as (v0 & Hv0 & [-> | ->]); [by exists v0|].
    done.
  - intros x0 y0 [[= -> ->]|Hold]%Hcom.
    + split; [done|]. split.
      * intros i Hi. eapply zeroing_row_zero; [exact Hz3|]. by apply Hrows2.
      * done.
    + destruct (Hcl x0 y0 Hold) as (Hc0 & Hrows0 & Hcols0). split; [|split].
      * destruct (zeroing_cell a a3 x0 y0 Float.zero) as (v3 & Hv3 & [-> | ->]); done.
      * intros i Hi. eapply zeroing_row_zero; [exact Hz13|]. by apply Hrows0.
      * intros j Hj. eapply zeroing_col_zero; [exact Hz13|]. by apply Hcols0.
  - assert (∀ x0 y0, committed A x0 y0 →
              ¬ overlap src_spans x0 x ∧ ¬ overlap tgt_spans y0 y) as Hnew.
    { intros x0 y0 Hold. destruct (Hcl x0 y0 Hold) as (_ & Hrows0 & Hcols0).
      split; intros Hov.
      - apply (positive_not_zero v Hpos). by eapply (Hrows0 x Hov y).
      - apply (positive_not_zero v Hpos). by eapply (Hcols0 y Hov x). }
    intros x1 y1 x2 y2 [[= -> ->]|H1]%Hcom [[= -> ->]|H2]%Hcom Hne.
    + done.
    + destruct (Hnew x2 y2 H2) as [Hs Ht].
      split; intros Hov; [apply Hs | apply Ht]; by apply overlap_sym.
    + by apply Hnew.
    + by eapply Hfree.
Qed.

Lemma concat_nonempty (a : ndarray) : zeroing S a → concat a ≠ [].
Proof using Hfits.
  destruct Hfits as (_ & Hm & Hn & _). intros Hz Hnil.
  apply zeroing_concat in Hz. rewrite Hnil in Hz. simpl in Hz.
  destruct S as [|row S']; [simpl in Hm; lia|]. simpl in *.
  rewrite length_app in Hz. lia.
Qed.

Lemma runs_iter_loop (fuel : nat) : ∀ (a A : ndarray),
  npos a < fuel → inv S src_spans tgt_spans a A →
  ∃ A' a', runs r (iter_loop fuel r src_spans tgt_spans A) a A' a' ∧
           inv S src_spans tgt_spans a' A'.
Proof using Hfits.
  induction fuel as [|fuel IH]; intros a A Hfuel Hinv; [lia|].
  destruct (max_defined a) as [top Htop].
  { apply concat_nonempty. apply Hinv. }
  simpl. destruct (Float.gtb top Float.zero) eqn:Hpos.
  - destruct (where_first_spec top a Htop Hpos) as (x & y & v & Hw & Hv & Hvpos).
    destruct (inv_step a A x y v Hinv Hv Hvpos) as (A1 & a1 & HA1 & Hrun1 & Hinv1 & Hlt).
    destruct (IH a1 A1) as (A' & a' & Hrun & Hinv'); [lia|done|].
    exists A', a'. split; [|done].
    do 2 step. rewrite Hpos. do 3 step. simpl. step.
    by apply Hrun1.
  - exists A, a. split; [|done].
    do 2 step. rewrite Hpos. apply runs_ret.
Qed.

Lemma inv_init : inv S src_spans tgt_spans S (Np.zeros (Np.shape0 S) (Np.shape1 S)).
Proof using Hfits.
  destruct Hfits as (Hrect & _).
  assert (∀ x y, ¬ committed (Np.zeros (Np.shape0 S) (Np.shape1 S)) x y) as Hnone.
  { intros x y (v & (row & Hrow & Hv)%cell_Some & Hpos).
    unfold Np.zeros, Np.full in Hrow.
    apply lookup_replicate in Hrow as [-> _].
    apply lookup_replicate in Hv as [-> _]. done. }
  split.
  - apply zeroing_refl.
  - unfold Np.zeros, Np.full, Np.shape0.
    apply Forall2_same_length_lookup_2; [by rewrite length_replicate|].
    intros i row rowA Hrow HrowA. apply lookup_replicate in HrowA as [-> _].
    rewrite length_replicate. eapply Forall_lookup_1 in Hrect; [|exact Hrow]. done.
  - intros x y Hc. by apply Hnone in Hc.
  - intros x y Hc. by apply Hnone in Hc.
  - intros x y x' y' Hc. by apply Hnone in Hc.
Qed.

Lemma runs_get_alignmatrix_iter :
  ∃ A S', runs r (get_alignmatrix_iter r src_spans tgt_spans) S A S' ∧
          inv S src_spans tgt_spans S' A.
Proof using Hfits.
  destruct (runs_iter_loop (Datatypes.S (length (concat S))) S
              (Np.zeros (Np.shape0 S) (Np.shape1 S))) as (A & S' & Hrun & Hinv).
  { pose proof (npos_bound S). lia. }
  { apply inv_init. }
  exists A, S'. split; [|done].
  unfold get_alignmatrix_iter. step. exact Hrun.
Qed.
End Loop.

(** C5.  Called on an array whose rows and columns the two span lists
    index (a rectangular matrix with at least one row and one column, of
    any sign), [get_alignmatrix_iter] returns, and no two distinct committed
    pairs of the alignment matrix it returns share a word: the source spans
    of two committed pairs have no word index in common, nor have their
    target spans. *)
Theorem committed_pairs_conflict_free (r : ref) (w : world) (S : ndarray)
    (src_spans tgt_spans : list (list nat)) :
  heap w !! r = Some S → fits S src_spans tgt_spans →
  ∃ A S', get_alignmatrix_iter r src_spans tgt_spans w = (Ok A, set_heap r S' w) ∧
          conflict_free A src_spans tgt_spans.
Proof.
  intros Hw Hfits.
  destruct (runs_get_alignmatrix_iter r S src_spans tgt_spans Hfits)
    as (A & S' & Hrun & Hinv).
  exists A, S'. split; [by apply Hrun | apply Hinv].
Qed.

Lemma committed_pairs_conflict_free_witness :
  fits Examples.sim3 Examples.spans3 Examples.spans3 ∧
  ∃ A S', get_alignmatrix_iter 0 Examples.spans3 Examples.spans3
            (MkWorld [Examples.sim3] [])
          = (Ok A, set_heap 0 S' (MkWorld [Examples.sim3] [])) ∧
          conflict_free A Examples.spans3 Examples.spans3.
Proof.
  assert (fits Examples.sim3 Examples.spans3 Examples.spans3) as Hfits.
  { unfold fits, Np.rectangular. simpl. repeat split; try lia. repeat constructor. }
  split; [exact Hfits|].
  apply (committed_pairs_conflict_free 0 (MkWorld [Examples.sim3] []) Examples.sim3
           Examples.spans3 Examples.spans3); [reflexivity | exact Hfits].
Defined.

(** C4, as the code has it.  [get_alignmatrix_iter] works on the caller's
    array, in place: called on an array whose rows and columns the span
    lists index, it returns and leaves in that array a matrix of the same
    shape in which every cell holds either the value it held or [0.0]; and
    every committed cell, positive in the matrix the caller handed over,
    holds [0.0] afterwards. *)
Theorem get_alignmatrix_iter_in_place (r : ref) (w : world) (S : ndarray)
    (src_spans tgt_spans : list (list nat)) :
  heap w !! r = Some S → fits S src_spans tgt_spans →
  ∃ A S', get_alignmatrix_iter r src_spans tgt_spans w = (Ok A, set_heap r S' w) ∧
          zeroing S S' ∧
          ∀ x y, committed A x y →
            (∃ v, Np.cell S x y = Some v ∧ positive v = true) ∧
            Np.cell S' x y = Some Float.zero.
Proof.
  intros Hw Hfits.
  destruct (runs_get_alignmatrix_iter r S src_spans tgt_spans Hfits)
    as (A & S' & Hrun & Hinv).
  exists A, S'. split; [by apply Hrun|]. split; [apply Hinv|].
  intros x y Hc. split; [by apply Hinv | by apply Hinv].
Qed.

Lemma get_alignmatrix_iter_in_place_witness :
  fits [[Float.half; Float.zero]] [[0]] [[0]; [1]] ∧
  ∃ A S', get_alignmatrix_iter 0 [[0]] [[0]; [1]] (MkWorld [[[Float.half; Float.zero]]] [])
          = (Ok A, set_heap 0 S' (MkWorld [[[Float.half; Float.zero]]] [])) ∧
          zeroing [[Float.half; Float.zero]] S' ∧
          ∀ x y, committed A x y →
            (∃ v, Np.cell [[Float.half; Float.zero]] x y = Some v ∧ positive v = true) ∧
            Np.cell S' x y = Some Float.zero.
Proof.
  assert (fits [[Float.half; Float.zero]] [[0]] [[0]; [1]]) as Hfits.
  { unfold fits, Np.rectangular. simpl. repeat split; try lia. repeat constructor. }
  split; [exact Hfits|].
  apply (get_alignmatrix_iter_in_place 0 (MkWorld [[[Float.half; Float.zero]]] [])
           [[Float.half; Float.zero]] [[0]] [[0]; [1]]); [reflexivity | exact Hfits].
Defined.

(** C4 as stated fails: after the call on the matrix [sim3] the caller's
    array holds zeros only, and the cell of the first committed pair, which
    was [1.0], reads [0.0]. *)
Lemma get_alignmatrix_iter_overwrites_input :
  get_alignmatrix_iter 0 Examples.spans3 Examples.spans3 (MkWorld [Examples.sim3] [])
  = (Ok [[Float.one; Float.zero; Float.zero];
         [Float.zero; Float.one; Float.zero];
         [Float.zero; Float.zero; Float.zero]],
     MkWorld [Np.zeros 3 3] []) ∧
  Np.zeros 3 3 ≠ Examples.sim3 ∧
  Np.cell Examples.sim3 1 1 = Some Float.one ∧
  (get_alignmatrix_iter 0 Examples.spans3 Examples.spans3;;
   let* a := load 0 in lift (Np.getcell a 1 1)) (MkWorld [Examples.sim3] [])
  = (Ok Float.zero, MkWorld [Np.zeros 3 3] []).
Proof. repeat split; try discriminate; vm_compute; reflexivity. Qed.

(** * Further properties of the code *)

(** ** Batches *)

Lemma concat_batches_from {A} (n : nat) (cur l : list A) :
  concat (batches_from n cur l) = cur ++ l.
Proof.
  revert cur. induction l as [|x l IH]; intros cur; simpl.
  - destruct cur; simpl; by rewrite ?app_nil_r.
  - destruct (_ =? _); simpl; rewrite IH; by rewrite <- ?app_assoc.
Qed.

Lemma batches_from_sizes {A} (n : nat) (cur l : list A) :
  length cur < n →
  Forall (λ b, 0 < length b ≤ n) (batches_from n cur l).
Proof.
  revert cur. induction l as [|x l IH]; intros cur Hcur; simpl.
  - destruct cur as [|c cur]; [constructor|].
    constructor; [simpl in *; lia | constructor].
  - destruct (length (cur ++ [x]) =? n) eqn:E.
    + apply Nat.eqb_eq in E. constructor; [lia|]. apply IH. simpl. lia.
    + apply Nat.eqb_neq in E. apply IH. rewrite length_app in *. simpl in *. lia.
Qed.

Lemma batches_from_full {A} (n : nat) (cur l : list A) (i : nat) (b : list A) :
  length cur < n →
  batches_from n cur l !! i = Some b → S i < length (batches_from n cur l) →
  length b = n.
Proof.
  revert cur i. induction l as [|x l IH]; intros cur i Hcur Hb Hi; simpl in *.
  - destruct cur; simpl in *; [lia|]. destruct i; simpl in *; lia.
  - destruct (length (cur ++ [x]) =? n) eqn:E.
    + apply Nat.eqb_eq in E. destruct i as [|i]; simpl in *.
      * by injection Hb as <-.
      * eapply (IH [] i); [simpl; lia | done | lia].
    + apply Nat.eqb_neq in E. eapply (IH (cur ++ [x]) i); [|done|done].
      rewrite length_app in *. simpl in *. lia.
Qed.

(** [DataLoader] refuses a batch size of zero; with a positive batch
    size it cuts the dataset into consecutive batches: put end to end they
    give the dataset back, in order; none is empty or longer than the batch
    size, and every batch but the last has exactly the batch size. *)
Lemma DataLoader_batches {A} (ds : list A) (batch_size : nat) :
  DataLoader ds 0 = Raise ValueError ∧
  (0 < batch_size →
   ∃ batches, DataLoader ds batch_size = Ok batches ∧
     concat batches = ds ∧
     Forall (λ b, 0 < length b ≤ batch_size) batches ∧
     ∀ i b, batches !! i = Some b → S i < length batches → length b = batch_size).
Proof.
  split; [done|]. intros Hpos. unfold DataLoader.
  destruct (batch_size =? 0) eqn:E; [apply Nat.eqb_eq in E; lia|].
  eexists. split; [done|]. split; [apply concat_batches_from|]. split.
  - apply batches_from_sizes. simpl. lia.
  - intros i b. apply batches_from_full. simpl. lia.
Qed.

(** ** One line of links per sentence pair *)

Lemma bind_Ok {A B} (m : M A) (k : A → M B) (w w' : world) (v : B) :
  bind m k w = (Ok v, w') → ∃ a w1, m w = (Ok a, w1) ∧ k a w1 = (Ok v, w').
Proof.
  unfold bind. destruct (m w) as [[a|e] w1]; [|done]. intros H. by exists a, w1.
Qed.

Lemma lift_Ok {A} (res : result A) (w w' : world) (v : A) :
  lift res w = (Ok v, w') → res = Ok v ∧ w' = w.
Proof. unfold lift. by intros [= -> ->]. Qed.

Lemma ret_Ok {A} (a v : A) (w w' : world) :
  ret a w = (Ok v, w') → v = a ∧ w' = w.
Proof. unfold ret. by intros [= -> ->]. Qed.

Lemma mapR_length {A B} (f : A → result B) (l : list A) (ys : list B) :
  mapR f l = Ok ys → length ys = length l.
Proof.
  revert ys. induction l as [|x l IH]; intros ys H; simpl in H.
  - by injection H as <-.
  - destruct (f x); [|done]. simpl in H. destruct (mapR f l); [|done].
    simpl in H. injection H as <-. simpl. f_equal. by apply IH.
Qed.

Lemma mapW_Forall2 {A B} (f : A → M B) (l : list A) (w w' : world) (ys : list B) :
  mapW f l w = (Ok ys, w') →
  Forall2 (λ x y, ∃ w1 w2, f x w1 = (Ok y, w2)) l ys.
Proof.
  revert w w' ys. induction l as [|x l IH]; intros w w' ys H; simpl in H.
  - apply ret_Ok in H as [-> _]. constructor.
  - apply bind_Ok in H as (y & w1 & Hy & H).
    apply bind_Ok in H as (ys' & w2 & Hys & H).
    apply ret_Ok in H as [-> _]. constructor; [eauto|]. by eapply IH.
Qed.

Lemma length_concat_Forall2 {A B} (bs : list (list A)) (ss : list (list B)) :
  Forall2 (λ b s, length s = length b) bs ss →
  length (concat ss) = length (concat bs).
Proof.
  induction 1 as [|b s bs ss Hbs _ IH]; [done|]. simpl.
  rewrite !length_app. lia.
Qed.

Lemma length_enumerate {A} (l : list A) : length (enumerate l) = length l.
Proof.
  unfold enumerate. rewrite length_zip_with, length_seq. lia.
Qed.

Lemma DataLoader_concat {A} (ds : list A) (batch_size : nat) (batches : list (list A)) :
  DataLoader ds batch_size = Ok batches → concat batches = ds.
Proof.
  unfold DataLoader. destruct (_ =? _); [done|]. intros [= <-].
  apply concat_batches_from.
Qed.

(** Running a loop over the batches, one line per dataset element of each
    batch, gives as many lines as the dataset has elements. *)
Lemma batched_lines {D} (source_sentences target_sentences : list string)
    (ds : list (nat * string * string)) (batch_size : nat)
    (data_loader : list (list (nat * string * string)))
    (F : list (nat * string * string) → M (list D))
    (w w' : world) (aligns : list (list D)) :
  dataset source_sentences target_sentences = Ok ds →
  DataLoader ds batch_size = Ok data_loader →
  (∀ batch w1 w2 lines, F batch w1 = (Ok lines, w2) → length lines = length batch) →
  mapW F data_loader w = (Ok aligns, w') →
  length (concat aligns) = length source_sentences.
Proof.
  intros Hds Hdl HF Hmap.
  apply mapW_Forall2 in Hmap.
  rewrite (length_concat_Forall2 data_loader aligns).
  - rewrite (DataLoader_concat _ _ _ Hdl). apply mapR_length in Hds.
    rewrite Hds. unfold range. rewrite length_seq. lia.
  - eapply Forall2_impl; [exact Hmap|]. intros batch lines (w1 & w2 & H). eauto.
Qed.

Lemma mapW_length {A B} (f : A → M B) (l : list A) (w w' : world) (ys : list B) :
  mapW f l w = (Ok ys, w') → length ys = length l.
Proof. intros H. apply mapW_Forall2 in H. symmetry. by eapply Forall2_length. Qed.

Tactic Notation "inv_bind" hyp(H) "as" ident(a) ident(Ha) :=
  let w := fresh "w" in apply bind_Ok in H as (a & w & Ha & H).
Tactic Notation "inv_bind" hyp(H) :=
  let a := fresh "a" in let Ha := fresh "Ha" in inv_bind H as a Ha.

Section Lines.
Context {prov : Provider} {num : Numerics}.
Variables (self : t) (source_sentences target_sentences : list string).
Variables (batch_size : nat) (w w' : world) (out : list string).

Lemma align_sentences_lines :
  align_sentences self source_sentences target_sentences batch_size w = (Ok out, w') →
  length out = length source_sentences.
Proof using Type.
  unfold align_sentences. intros H.
  inv_bind H. inv_bind H as ds Hds. apply lift_Ok in Hds as [Hds _].
  inv_bind H as data_loader Hdl. apply lift_Ok in Hdl as [Hdl _].
  inv_bind H as aligns Hmap. apply ret_Ok in H as [-> _].
  eapply batched_lines; [exact Hds | exact Hdl | | exact Hmap].
  clear. intros batch w1 w2 lines H.
  inv_bind H. inv_bind H. inv_bind H as vs Hvs. destruct vs as [[? ?] ?].
  apply mapW_length in H. rewrite H, length_enumerate. by rewrite length_map.
Qed.

Lemma align_spans_iter_lines :
  align_spans_iter self source_sentences target_sentences batch_size w = (Ok out, w') →
  length out = length source_sentences.
Proof using Type.
  unfold align_spans_iter. intros H.
  inv_bind H. inv_bind H as spans Hspans. destruct spans as [source_spans target_spans].
  inv_bind H. inv_bind H as ds Hds. apply lift_Ok in Hds as [Hds _].
  inv_bind H as data_loader Hdl. apply lift_Ok in Hdl as [Hdl _].
  inv_bind H as aligns Hmap. apply ret_Ok in H as [-> _].
  eapply batched_lines; [exact Hds | exact Hdl | | exact Hmap].
  clear. intros batch w1 w2 lines H.
  inv_bind H. inv_bind H.
  apply mapW_length in H. rewrite H, length_enumerate. by rewrite length_map.
Qed.

Lemma align_spans_freq_lines :
  align_spans_freq self source_sentences target_sentences batch_size w = (Ok out, w') →
  length out = length source_sentences.
Proof using Type.
  unfold align_spans_freq. intros H.
  inv_bind H. inv_bind H as spans Hspans. destruct spans as [source_spans target_spans].
  inv_bind H. inv_bind H as ds Hds. apply lift_Ok in Hds as [Hds _].
  inv_bind H as data_loader Hdl. apply lift_Ok in Hdl as [Hdl _].
  inv_bind H as aligns Hmap. apply ret_Ok in H as [-> _].
  eapply batched_lines; [exact Hds | exact Hdl | | exact Hmap].
  clear. intros batch w1 w2 lines H.
  inv_bind H. inv_bind H.
  apply mapW_length in H. rewrite H, length_enumerate. by rewrite length_map.
Qed.
End Lines.

(** X1.  When [align_sentences], [align_spans_iter] or [align_spans_freq]
    returns, it returns exactly one line of links per source sentence. *)
Theorem one_line_per_sentence {prov : Provider} {num : Numerics} (self : t)
    (source_sentences target_sentences : list string) (batch_size : nat)
    (w w' : world) (out : list string) :
  (align_sentences self source_sentences target_sentences batch_size w = (Ok out, w') →
   length out = length source_sentences) ∧
  (align_spans_iter self source_sentences target_sentences batch_size w = (Ok out, w') →
   length out = length source_sentences) ∧
  (align_spans_freq self source_sentences target_sentences batch_size w = (Ok out, w') →
   length out = length source_sentences).
Proof.
  split; [|split].
  - apply align_sentences_lines.
  - apply align_spans_iter_lines.
  - apply align_spans_freq_lines.
Qed.

Lemma one_line_per_sentence_witness :
  align_sentences (prov := Reference.provider) (num := Reference.numerics)
    Examples.fwd_words ["the cat sat"; "a dog"] ["le chat assis"; "un chien"] 1
    World.empty
  = (Ok ["0-0 1-0 2-0"; "0-0 1-0"],
     MkWorld [] [Embed ["the cat sat"]; Embed ["le chat assis"];
                 Embed ["a dog"]; Embed ["un chien"]]) ∧
  length ["0-0 1-0 2-0"; "0-0 1-0"] = length ["the cat sat"; "a dog"].
Proof.
  assert (align_sentences (prov := Reference.provider) (num := Reference.numerics)
            Examples.fwd_words ["the cat sat"; "a dog"] ["le chat assis"; "un chien"] 1
            World.empty
          = (Ok ["0-0 1-0 2-0"; "0-0 1-0"],
             MkWorld [] [Embed ["the cat sat"]; Embed ["le chat assis"];
                         Embed ["a dog"]; Embed ["un chien"]])) as Hrun
    by (vm_compute; reflexivity).
  split; [exact Hrun|].
  apply (proj1 (one_line_per_sentence (prov := Reference.provider)
                  (num := Reference.numerics) Examples.fwd_words
                  ["the cat sat"; "a dog"] ["le chat assis"; "un chien"] 1
                  World.empty _ _) Hrun).
Defined.

(** ** Sorting *)

Section SortedSpec.
Context {A K : Type} (le : K → K → bool) (key : A → K).
Hypothesis le_total : ∀ a b, le a b = true ∨ le b a = true.
Hypothesis le_trans : ∀ a b c, le a b = true → le b c = true → le a c = true.

Let ordered (x y : A) : Prop := le (key x) (key y) = true.

Lemma insert_sorted_perm (x : A) (l : list A) : insert_sorted le key x l ≡ₚ x :: l.
Proof using Type.
  induction l as [|y l IH]; simpl; [done|].
  destruct (le (key x) (key y)); [done|]. rewrite IH. apply Permutation_swap.
Qed.

Lemma insert_sorted_sorted (x : A) (l : list A) :
  StronglySorted ordered l → StronglySorted ordered (insert_sorted le key x l).
Proof using le_total le_trans.
  induction 1 as [|y l Hl IH Hy]; simpl.
  - repeat constructor.
  - destruct (le (key x) (key y)) eqn:E.
    + constructor; [by constructor|]. constructor; [done|].
      eapply Forall_impl; [exact Hy|]. intros z Hz. unfold ordered in *. eauto.
    + constructor; [done|].
      rewrite insert_sorted_perm. constructor; [|done].
      unfold ordered. destruct (le_total (key x) (key y)); congruence.
Qed.

Lemma sorted_perm (l : list A) : sorted le key l ≡ₚ l.
Proof using Type.
  induction l as [|x l IH]; simpl; [done|]. by rewrite insert_sorted_perm, IH.
Qed.

Lemma sorted_sorted (l : list A) : StronglySorted ordered (sorted le key l).
Proof using le_total le_trans.
  induction l as [|x l IH]; simpl; [constructor|]. by apply insert_sorted_sorted.
Qed.

(** Stability: among the elements whose key is equivalent to [k], the
    order of the input is kept. *)
Let same (k : K) (x : A) : Prop := le (key x) k = true ∧ le k (key x) = true.

Lemma insert_sorted_stable (k : K) (x : A) (l : list A) `{∀ y, Decision (same k y)} :
  filter (same k) (insert_sorted le key x l) = filter (same k) (x :: l).
Proof using le_trans.
  induction l as [|y l IH]; simpl; [done|].
  destruct (le (key x) (key y)) eqn:E; [done|].
  rewrite filter_cons, IH, !(filter_cons _ x), (filter_cons _ y).
  destruct (decide (same k y)) as [[Hy1 Hy2]|]; [|done].
  destruct (decide (same k x)) as [[Hx1 Hx2]|]; [|done].
  assert (le (key x) (key y) = true) by eauto. congruence.
Qed.

Lemma sorted_stable (k : K) (l : list A) `{∀ y, Decision (same k y)} :
  filter (same k) (sorted le key l) = filter (same k) l.
Proof using le_trans.
  induction l as [|x l IH]; simpl; [done|].
  rewrite insert_sorted_stable, !filter_cons, IH. done.
Qed.
End SortedSpec.

(** ** Links as strings *)

Lemma string_app_cons (c : ascii) (s t : string) :
  String c s +:+ t = String c (s +:+ t).
Proof. reflexivity. Qed.

Lemma string_app_nil_l (t : string) : "" +:+ t = t.
Proof. reflexivity. Qed.

Lemma string_app_assoc (s t u : string) : (s +:+ t) +:+ u = s +:+ (t +:+ u).
Proof.
  induction s as [|c s IH]; [done|]. rewrite !string_app_cons. by f_equal.
Qed.

Lemma string_app_nil_r (s : string) : s +:+ "" = s.
Proof. induction s as [|c s IH]; [done|]. rewrite string_app_cons. by f_equal. Qed.

Lemma string_forall_app (P : ascii → bool) (s t : string) :
  string_forall P (s +:+ t) = string_forall P s && string_forall P t.
Proof.
  induction s as [|c s IH]; [done|]. rewrite string_app_cons. simpl.
  rewrite <- andb_assoc. by f_equal.
Qed.

Lemma string_forall_impl (P Q : ascii → bool) (s : string) :
  (∀ c, P c = true → Q c = true) → string_forall P s = true → string_forall Q s = true.
Proof.
  intros HPQ. induction s as [|c s IH]; simpl; [done|].
  intros [Hc Hs]%andb_true_iff. apply andb_true_iff. auto.
Qed.

Lemma digit_pretty_N_char (d : N) :
  (d < 10)%N → digit (pretty_N_char d) = Some (N.to_nat d).
Proof.
  intros H.
  assert (d = 0 ∨ d = 1 ∨ d = 2 ∨ d = 3 ∨ d = 4 ∨ d = 5 ∨ d = 6 ∨ d = 7 ∨ d = 8 ∨ d = 9)%N
    as Hd by lia.
  repeat (destruct Hd as [-> | Hd]; [reflexivity|]). by subst.
Qed.

Lemma pretty_N_go_app (x : N) (s : string) :
  pretty_N_go x s = pretty_N_go x "" +:+ s.
Proof.
  revert s. induction (N.lt_wf_0 x) as [x _ IH]; intros s.
  assert (x = 0 ∨ 0 < x)%N as [-> | Hx] by lia; [by rewrite !pretty_N_go_0|].
  assert (x `div` 10 < x)%N as Hlt by (by apply N.div_lt).
  rewrite (pretty_N_go_step x s), (pretty_N_go_step x "") by done.
  rewrite (IH _ Hlt (String _ s)), (IH _ Hlt (String _ "")).
  by rewrite string_app_assoc.
Qed.

Lemma pretty_N_go_digits (x : N) :
  string_forall is_digit (pretty_N_go x "") = true.
Proof.
  induction (N.lt_wf_0 x) as [x _ IH].
  assert (x = 0 ∨ 0 < x)%N as [-> | Hx] by lia; [done|].
  rewrite pretty_N_go_step, pretty_N_go_app by done.
  rewrite string_forall_app, IH by (by apply N.div_lt). simpl.
  unfold is_digit. rewrite digit_pretty_N_char; [done|]. by apply N.mod_lt.
Qed.

Lemma pretty_N_go_value (x : N) :
  ∃ p, ∀ s acc, int_digits (pretty_N_go x s) acc = int_digits s (acc * p + N.to_nat x).
Proof.
  induction (N.lt_wf_0 x) as [x _ IH].
  assert (x = 0 ∨ 0 < x)%N as [-> | Hx] by lia.
  - exists 1. intros s acc. rewrite pretty_N_go_0. f_equal. simpl. lia.
  - destruct (IH (x `div` 10)%N) as [p Hp]; [by apply N.div_lt|].
    exists (10 * p). intros s acc. rewrite pretty_N_go_step, Hp by done. simpl.
    rewrite digit_pretty_N_char by (by apply N.mod_lt). f_equal.
    pose proof (N.div_mod x 10 ltac:(done)) as Hdm.
    assert (N.to_nat x = 10 * N.to_nat (x `div` 10) + N.to_nat (x `mod` 10)) by lia.
    lia.
Qed.

Lemma pretty_N_go_nonempty (x : N) : (0 < x)%N → pretty_N_go x "" ≠ "".
Proof.
  intros Hx. rewrite pretty_N_go_step, pretty_N_go_app by done.
  by destruct (pretty_N_go (x `div` 10) "").
Qed.

Lemma pretty_nat_cases (n : nat) :
  (n = 0 ∧ pretty n = "0") ∨
  (0 < n ∧ pretty n = pretty_N_go (N.of_nat n) "").
Proof.
  unfold pretty, pretty_nat, pretty, pretty_N.
  destruct (decide (N.of_nat n = 0%N)); [left | right]; split; auto; lia.
Qed.

Lemma pretty_nat_digits (n : nat) : string_forall is_digit (pretty n) = true.
Proof.
  destruct (pretty_nat_cases n) as [[_ ->] | [_ ->]]; [done|apply pretty_N_go_digits].
Qed.

Lemma pretty_nat_nonempty (n : nat) : pretty n ≠ "".
Proof.
  destruct (pretty_nat_cases n) as [[_ ->] | [Hn ->]]; [done|].
  apply pretty_N_go_nonempty. lia.
Qed.

(** [int(str(n)) == n]. *)
Lemma int_pretty (n : nat) : int (pretty n) = Ok n.
Proof.
  pose proof (pretty_nat_nonempty n) as Hne. unfold int.
  destruct (pretty n) as [|c s] eqn:E; [done|]. rewrite <- E. clear Hne.
  destruct (pretty_nat_cases n) as [[-> ->] | [Hn ->]]; [done|].
  destruct (pretty_N_go_value (N.of_nat n)) as [p Hp]. rewrite Hp. simpl.
  f_equal. lia.
Qed.

Lemma split_on_app (sep : ascii) (t u cur : string) :
  string_forall (λ c, negb (Ascii.eqb c sep)) t = true →
  split_on sep (t +:+ u) cur = split_on sep u (cur +:+ t).
Proof.
  revert cur. induction t as [|c t IH]; intros cur Ht; simpl in *.
  - by rewrite string_app_nil_r.
  - apply andb_true_iff in Ht as [Hc Ht]. apply negb_true_iff in Hc. rewrite Hc.
    rewrite IH by done. by rewrite string_app_assoc.
Qed.

Lemma is_digit_not_dash (c : ascii) : is_digit c = true → negb (Ascii.eqb c "-") = true.
Proof.
  unfold is_digit. destruct (Ascii.eqb_spec c "-") as [-> | ]; [done|done].
Qed.

Lemma is_digit_not_space (c : ascii) : is_digit c = true → negb (is_space c) = true.
Proof.
  unfold is_digit, digit, is_space.
  destruct ((48 <=? nat_of_ascii c) && (nat_of_ascii c <=? 57)) eqn:E; [|done].
  intros _. apply andb_true_iff in E as [E1 E2].
  apply Nat.leb_le in E1, E2. apply negb_true_iff.
  assert ((nat_of_ascii c <=? 13) = false) as -> by (apply Nat.leb_gt; lia).
  assert ((nat_of_ascii c <=? 32) = false) as -> by (apply Nat.leb_gt; lia).
  assert ((nat_of_ascii c =? 133) = false) as -> by (apply Nat.eqb_neq; lia).
  assert ((nat_of_ascii c =? 160) = false) as -> by (apply Nat.eqb_neq; lia).
  by rewrite !andb_false_r.
Qed.

Lemma split_on_whole (sep : ascii) (t cur : string) :
  string_forall (λ c, negb (Ascii.eqb c sep)) t = true →
  split_on sep t cur = [cur +:+ t].
Proof.
  intros Ht. rewrite <- (string_app_nil_r t) at 1. by rewrite split_on_app.
Qed.

Lemma pretty_nat_no_dash (n : nat) :
  string_forall (λ c, negb (Ascii.eqb c "-")) (pretty n) = true.
Proof.
  eapply string_forall_impl; [apply is_digit_not_dash | apply pretty_nat_digits].
Qed.

(** A link written by ['{}-{}'.format(i, j)] reads back as the pair
    [(i, j)]. *)
Lemma link_key_format_link (i j : nat) : link_key (format_link i j) = Ok (i, j).
Proof.
  unfold link_key, format_link.
  rewrite split_on_app by apply pretty_nat_no_dash.
  rewrite string_app_cons, !string_app_nil_l. simpl.
  rewrite split_on_whole by apply pretty_nat_no_dash.
  rewrite string_app_nil_l. simpl. rewrite !int_pretty. reflexivity.
Qed.

Lemma pair_le_total (p q : nat * nat) : pair_le p q = true ∨ pair_le q p = true.
Proof.
  unfold pair_le. destruct p as [a b], q as [c d]. simpl.
  destruct (Nat.ltb_spec a c), (Nat.ltb_spec c a), (Nat.eqb_spec a c),
    (Nat.eqb_spec c a), (Nat.leb_spec b d), (Nat.leb_spec d b); simpl; auto; lia.
Qed.

Lemma pair_le_trans (p q r : nat * nat) :
  pair_le p q = true → pair_le q r = true → pair_le p r = true.
Proof.
  unfold pair_le. destruct p as [a b], q as [c d], r as [e f]. simpl.
  destruct (Nat.ltb_spec a c), (Nat.ltb_spec c e), (Nat.ltb_spec a e),
    (Nat.eqb_spec a c), (Nat.eqb_spec c e), (Nat.eqb_spec a e),
    (Nat.leb_spec b d), (Nat.leb_spec d f), (Nat.leb_spec b f);
    simpl; auto; lia.
Qed.

(** ** The order of the links of the span modes *)

Lemma insert_sorted_map {A B K} (le : K → K → bool) (key : B → K) (f : A → B)
    (x : A) (l : list A) :
  insert_sorted le key (f x) (map f l) = map f (insert_sorted le (λ a, key (f a)) x l).
Proof.
  induction l as [|y l IH]; simpl; [done|].
  destruct (le (key (f x)) (key (f y))); simpl; [done|]. by rewrite IH.
Qed.

Lemma sorted_map {A B K} (le : K → K → bool) (key : B → K) (f : A → B) (l : list A) :
  sorted le key (map f l) = map f (sorted le (λ a, key (f a)) l).
Proof.
  induction l as [|x l IH]; simpl; [done|]. by rewrite IH, insert_sorted_map.
Qed.

Lemma mapR_map_Ok {A B C} (f : B → result C) (g : A → B) (h : A → C) (l : list A) :
  (∀ a, a ∈ l → f (g a) = Ok (h a)) → mapR f (map g l) = Ok (map h l).
Proof.
  induction l as [|x l IH]; intros H; simpl; [done|].
  rewrite H by left. simpl. rewrite IH; [done|]. intros y Hy. apply H. by right.
Qed.

Lemma sorted_links_format (ps : list (nat * nat)) :
  sorted_links (map link_of ps) = Ok (map link_of (sorted pair_le id ps)).
Proof.
  unfold sorted_links.
  rewrite (mapR_map_Ok _ _ (λ p, (p, link_of p))).
  - simpl. f_equal.
    rewrite (sorted_map pair_le fst (λ p, (p, link_of p)) ps).
    rewrite map_map. reflexivity.
  - intros [i j] _. unfold link_of. simpl. by rewrite link_key_format_link.
Qed.

(** X2.  The sort key of the span modes,
    [(int(x.split('-')[0]), int(x.split('-')[1]))], reads a link written by
    ['{}-{}'.format(i, j)] back as the pair [(i, j)].  So on the links of a
    list of index pairs the sort never fails and gives the links of the
    pairs in the order of the integer pairs: a rearrangement of the pairs in
    which no pair is followed by a smaller one. *)
Theorem sorted_links_numeric (ps : list (nat * nat)) :
  mapR link_key (map link_of ps) = Ok ps ∧
  sorted_links (map link_of ps) = Ok (map link_of (sorted pair_le id ps)) ∧
  sorted pair_le id ps ≡ₚ ps ∧
  StronglySorted (λ p q, pair_le p q = true) (sorted pair_le id ps).
Proof.
  split; [|split; [|split]].
  - rewrite (mapR_map_Ok _ _ id); [by rewrite map_id|].
    intros [i j] _. apply link_key_format_link.
  - apply sorted_links_format.
  - apply sorted_perm.
  - apply (sorted_sorted pair_le id pair_le_total pair_le_trans).
Qed.

(** ** Lines and words *)

Lemma split_ws_run (w rest cur : string) :
  string_forall (λ c, negb (is_space c)) w = true →
  split_ws (w +:+ rest) (Some cur) = split_ws rest (Some (cur +:+ w)).
Proof.
  revert cur. induction w as [|c w IH]; intros cur Hw.
  - by rewrite string_app_nil_l, string_app_nil_r.
  - simpl in Hw. apply andb_true_iff in Hw as [Hc Hw]. apply negb_true_iff in Hc.
    rewrite string_app_cons. simpl. rewrite Hc. rewrite IH by done. simpl.
    by rewrite string_app_assoc.
Qed.

Lemma split_ws_word (w rest : string) :
  is_word w = true → split_ws (w +:+ rest) None = split_ws rest (Some w).
Proof.
  unfold is_word. intros [Hne Hw]%andb_true_iff.
  destruct w as [|c w]; [done|]. simpl in Hw.
  apply andb_true_iff in Hw as [Hc Hw]. apply negb_true_iff in Hc.
  rewrite string_app_cons. simpl. rewrite Hc. rewrite split_ws_run by done.
  reflexivity.
Qed.

Lemma join_space_cons (w : string) (ws : list string) :
  ws ≠ [] → join_space (w :: ws) = w +:+ " " +:+ join_space ws.
Proof. destruct ws; [done|]. reflexivity. Qed.

Lemma split_ws_is_word (s : string) (cur : option string) :
  (∀ w, cur = Some w → is_word w = true) →
  Forall (λ w, is_word w = true) (split_ws s cur).
Proof.
  revert cur. induction s as [|c s IH]; intros cur Hcur; simpl.
  - destruct cur; [|constructor]. constructor; [by apply Hcur | constructor].
  - destruct (is_space c) eqn:Hc.
    + destruct cur; [constructor; [by apply Hcur|]|]; by apply IH.
    + apply IH. intros w [= <-]. unfold is_word.
      assert (string_forall (λ c, negb (is_space c)) (default "" cur) = true) as Hd.
      { destruct cur as [w|]; [|done]. specialize (Hcur w eq_refl).
        unfold is_word in Hcur. by apply andb_true_iff in Hcur as [_ ?]. }
      rewrite string_forall_app, Hd. simpl. rewrite Hc. simpl.
      rewrite andb_true_r. apply negb_true_iff. apply String.eqb_neq.
      by destruct (default "" cur).
Qed.

(** [str.split()] and [' '.join] undo each other on words: every piece
    that [split] yields is a word, and a line made by joining words with
    one space splits back into these words. *)
Lemma str_split_words (s : string) : Forall (λ w, is_word w = true) (str_split s).
Proof. by apply split_ws_is_word. Qed.

Lemma str_split_join_space (ws : list string) :
  Forall (λ w, is_word w = true) ws → str_split (join_space ws) = ws.
Proof.
  unfold str_split. induction 1 as [|w ws Hw Hws IH]; [done|].
  destruct ws as [|w2 ws].
  - change (join_space [w]) with w.
    rewrite <- (string_app_nil_r w) at 1. by rewrite split_ws_word.
  - rewrite join_space_cons by done. rewrite split_ws_word by done.
    rewrite string_app_cons, string_app_nil_l. simpl. by rewrite IH.
Qed.

(** A link is a word, so a line of links splits back into its links. *)
Lemma is_word_format_link (i j : nat) : is_word (format_link i j) = true.
Proof.
  unfold is_word, format_link. apply andb_true_iff. split.
  - apply negb_true_iff, String.eqb_neq.
    pose proof (pretty_nat_nonempty i). by destruct (pretty i).
  - rewrite string_forall_app, string_app_cons, string_app_nil_l. simpl.
    rewrite !(string_forall_impl is_digit _ _ is_digit_not_space)
      by apply pretty_nat_digits.
    reflexivity.
Qed.

(** ** Dictionaries *)

Lemma dict_get_update {V} (dflt : V) (f : V → V) (d : dict V) (k k' : string) :
  dict_get (dict_update dflt f d k) k' =
    if String.eqb k' k then Some (f (default dflt (dict_get d k))) else dict_get d k'.
Proof.
  induction d as [|[k0 v0] d IH]; simpl.
  - by destruct (String.eqb k' k).
  - destruct (String.eqb_spec k k0) as [-> | Hne]; simpl.
    + destruct (String.eqb_spec k' k0); done.
    + destruct (String.eqb_spec k' k0) as [-> | Hne'].
      * destruct (String.eqb_spec k0 k); [congruence | done].
      * apply IH.
Qed.

Lemma keys_update {V} (dflt : V) (f : V → V) (d : dict V) (k : string) :
  keys (dict_update dflt f d k) = if bool_decide (k ∈ keys d) then keys d else keys d ++ [k].
Proof.
  unfold keys. induction d as [|[k0 v0] d IH]; simpl; [done|].
  destruct (String.eqb_spec k k0) as [-> | Hne]; simpl.
  - rewrite bool_decide_eq_true_2; [done | left].
  - rewrite IH. destruct (decide (k ∈ map fst d)) as [Hin | Hnin].
    + rewrite !bool_decide_eq_true_2; [done | by right | done].
    + rewrite !bool_decide_eq_false_2; [done | | done].
      intros [?|?]%elem_of_cons; done.
Qed.

Lemma elem_of_keys_update {V} (dflt : V) (f : V → V) (d : dict V) (k k' : string) :
  k' ∈ keys (dict_update dflt f d k) ↔ k' ∈ keys d ∨ k' = k.
Proof.
  rewrite keys_update. case_bool_decide as Hk.
  - split; [by left|]. intros [?| ->]; done.
  - rewrite elem_of_app, list_elem_of_singleton. done.
Qed.

Lemma NoDup_keys_update {V} (dflt : V) (f : V → V) (d : dict V) (k : string) :
  NoDup (keys d) → NoDup (keys (dict_update dflt f d k)).
Proof.
  intros Hnd. rewrite keys_update. case_bool_decide; [done|].
  apply NoDup_app. split; [done|]. split; [|apply NoDup_singleton].
  intros x Hx ->%list_elem_of_singleton. done.
Qed.

(** ** The links of the frequency aggregation *)

(** A loop that only adds keys to a dictionary adds those of each round. *)
Lemma foldR_adds {A V} (body : dict V → A → result (dict V))
    (Q : A → string → Prop) (l : list A) :
  (∀ acc x acc', x ∈ l → body acc x = Ok acc' →
     ∀ k, k ∈ keys acc' ↔ k ∈ keys acc ∨ Q x k) →
  ∀ init r, foldR body l init = Ok r →
    ∀ k, k ∈ keys r ↔ k ∈ keys init ∨ ∃ x, x ∈ l ∧ Q x k.
Proof.
  induction l as [|x l IH]; intros Hbody init r Hr k; simpl in Hr.
  - injection Hr as <-. split; [by left|]. intros [?|(x & Hx & _)]; [done|].
    by apply elem_of_nil in Hx.
  - destruct (body init x) as [acc1|] eqn:E; [|done]. simpl in Hr.
    rewrite (IH (λ acc y acc' Hy, Hbody acc y acc' (list_elem_of_further _ _ _ Hy))
               acc1 r Hr k).
    rewrite (Hbody init x acc1 (list_elem_of_here _ _) E k). split.
    + intros [[?|?]|(y & Hy & HQ)]; [by left | right; exists x; split; [left|done] |].
      right. exists y. split; [by right | done].
    + intros [?|(y & [->|Hy]%elem_of_cons & HQ)]; [by left; left | by left; right |].
      right. by exists y.
Qed.

Lemma foldR_preserves {A S} (body : S → A → result S) (P : S → Prop) (l : list A) :
  (∀ acc x acc', P acc → body acc x = Ok acc' → P acc') →
  ∀ init r, P init → foldR body l init = Ok r → P r.
Proof.
  intros Hbody. induction l as [|x l IH]; intros init r Hinit Hr; simpl in Hr.
  - by injection Hr as <-.
  - destruct (body init x) as [acc1|] eqn:E; [|done]. simpl in Hr. eauto.
Qed.

Lemma elem_of_range (a b i : nat) : i ∈ range a b ↔ a ≤ i < b.
Proof. unfold range. rewrite elem_of_seq. lia. Qed.

(** X3.  When [get_alignments_freq] returns, its keys are exactly the links
    [x-y] of the words [x] of a source span and [y] of a target span whose
    cell in the alignment matrix is positive, and no link is listed twice. *)
Theorem get_alignments_freq_keys (al_matrix : ndarray)
    (src_spans tgt_spans : list (list nat)) (align_count : dict float) :
  get_alignments_freq al_matrix src_spans tgt_spans = Ok align_count →
  NoDup (keys align_count) ∧
  ∀ k, k ∈ keys align_count ↔
    ∃ i j a src_span tgt_span x y,
      i < Np.shape0 al_matrix ∧ j < Np.shape1 al_matrix ∧
      Np.cell al_matrix i j = Some a ∧ Float.gtb a Float.zero = true ∧
      src_spans !! i = Some src_span ∧ tgt_spans !! j = Some tgt_span ∧
      x ∈ src_span ∧ y ∈ tgt_span ∧ k = format_link x y.
Proof.
  unfold get_alignments_freq. intros H. split.
  - pose (P := λ d : dict float, NoDup (keys d)).
    eapply (foldR_preserves _ P); [| |exact H]; [|by apply NoDup_nil_2].
    intros acc0 i acc0' Hacc0 H0.
    eapply (foldR_preserves _ P); [| |exact H0]; [|exact Hacc0].
    intros acc j acc' Hacc. cbv beta.
    destruct (Np.getcell al_matrix i j) as [a|]; simpl. 2:{ done. }
    destruct (Float.gtb a Float.zero); [|by intros [= <-]].
    destruct (getitem src_spans i) as [src_span|]; simpl; [|done].
    intros H1. eapply (foldR_preserves _ P); [| |exact H1]; [|exact Hacc].
    intros acc1 src_id acc1' Hacc1. cbv beta.
    destruct (getitem tgt_spans j) as [tgt_span|]; simpl; [|done].
    intros H2. eapply (foldR_preserves _ P); [| |exact H2]; [|exact Hacc1].
    intros acc2 tgt_id acc2' Hacc2. cbv beta.
    destruct (getitem src_span src_id); simpl; [|done].
    destruct (getitem tgt_span tgt_id); simpl; [|done].
    intros [= <-]. by apply NoDup_keys_update.
  - intros k.
    eapply iff_trans; [eapply (foldR_adds _ (λ i k, ∃ j a src_span tgt_span x y,
               j < Np.shape1 al_matrix ∧
               Np.cell al_matrix i j = Some a ∧ Float.gtb a Float.zero = true ∧
               src_spans !! i = Some src_span ∧ tgt_spans !! j = Some tgt_span ∧
               x ∈ src_span ∧ y ∈ tgt_span ∧ k = format_link x y)); [|exact H]|].
    2:{ split.
        - intros [Hk|(i & Hi & j & a & ss & ts & x & y & Hj & ?)];
            [by apply elem_of_nil in Hk|].
          apply elem_of_range in Hi. exists i, j, a, ss, ts, x, y.
          split; [lia|]. by split.
        - intros (i & j & a & ss & ts & x & y & Hi & ?). right. exists i.
          split; [apply elem_of_range; lia|]. exists j, a, ss, ts, x, y. done. }
    clear H k. intros acc i acc' _ H k. cbv beta in H.
    eapply iff_trans; [eapply (foldR_adds _ (λ j k, ∃ a src_span tgt_span x y,
               Np.cell al_matrix i j = Some a ∧ Float.gtb a Float.zero = true ∧
               src_spans !! i = Some src_span ∧ tgt_spans !! j = Some tgt_span ∧
               x ∈ src_span ∧ y ∈ tgt_span ∧ k = format_link x y)); [|exact H]|].
    2:{ split.
        - intros [?|(j & Hj & a & ss & ts & x & y & ?)]; [by left|].
          apply elem_of_range in Hj.
          right. exists j, a, ss, ts, x, y. split; [lia|done].
        - intros [?|(j & a & ss & ts & x & y & Hj & ?)]; [by left|]. right.
          exists j. split; [apply elem_of_range; lia|]. exists a, ss, ts, x, y. done. }
    clear H k acc acc'. intros acc j acc' _ H k. cbv beta in H.
    unfold Np.getcell in H.
    destruct (Np.cell al_matrix i j) as [a|] eqn:Hcell; [|done]. simpl in H.
    destruct (Float.gtb a Float.zero) eqn:Hpos.
    2:{ injection H as <-. split; [by left|].
        intros [?|(a' & ? & ? & ? & ? & Ha & Hp & _)]; [done|]. congruence. }
    destruct (getitem src_spans i) as [src_span|] eqn:Hsrc; [|done]. simpl in H.
    apply getitem_Ok in Hsrc.
    eapply iff_trans; [eapply (foldR_adds _ (λ src_id k, ∃ tgt_span x y,
               tgt_spans !! j = Some tgt_span ∧ src_span !! src_id = Some x ∧
               y ∈ tgt_span ∧ k = format_link x y)); [|exact H]|].
    2:{ split.
        - intros [?|(src_id & _ & ts & x & y & ? & Hx & ?)]; [by left|]. right.
          exists a, src_span, ts, x, y. apply list_elem_of_lookup_2 in Hx. done.
        - intros [?|(a' & ss & ts & x & y & Ha & _ & Hss & Hts & Hx & Hy & ->)];
            [by left|]. right.
          assert (ss = src_span) as -> by congruence.
          apply list_elem_of_lookup_1 in Hx as [src_id Hx].
          exists src_id. split.
          { apply elem_of_range. apply lookup_lt_Some in Hx. lia. }
          exists ts, x, y. done. }
    clear H k acc acc'. intros acc src_id acc' _ H k. cbv beta in H.
    destruct (getitem tgt_spans j) as [tgt_span|] eqn:Htgt; [|done]. simpl in H.
    apply getitem_Ok in Htgt.
    eapply iff_trans; [eapply (foldR_adds _ (λ tgt_id k, ∃ x y,
               src_span !! src_id = Some x ∧ tgt_span !! tgt_id = Some y ∧
               k = format_link x y)); [|exact H]|].
    2:{ split.
        - intros [?|(tgt_id & _ & x & y & ? & Hy & ?)]; [by left|]. right.
          exists tgt_span, x, y. apply list_elem_of_lookup_2 in Hy. done.
        - intros [?|(ts & x & y & Hts & Hx & Hy & ->)]; [by left|]. right.
          assert (ts = tgt_span) as -> by congruence.
          apply list_elem_of_lookup_1 in Hy as [tgt_id Hy].
          exists tgt_id. split.
          { apply elem_of_range. apply lookup_lt_Some in Hy. lia. }
          exists x, y. done. }
    clear H k acc acc'. intros acc tgt_id acc' _ H k. cbv beta in H.
    destruct (getitem src_span src_id) as [x|] eqn:Hx; [|done]. simpl in H.
    destruct (getitem tgt_span tgt_id) as [y|] eqn:Hy; [|done]. simpl in H.
    apply getitem_Ok in Hx, Hy. injection H as <-.
    rewrite elem_of_keys_update. split.
    + intros [?| ->]; [by left|]. right. by exists x, y.
    + intros [?|(x' & y' & ? & ? & ->)]; [by left|]. right. congruence.
Qed.

Lemma get_alignments_freq_keys_witness :
  get_alignments_freq [[Float.one; Float.zero]] [[0; 1]] [[0]; [1]]
    = Ok [("0-0", Float.half); ("1-0", Float.half)] ∧
  NoDup (keys [("0-0", Float.half); ("1-0", Float.half)]) ∧
  ∀ k, k ∈ keys [("0-0", Float.half); ("1-0", Float.half)] ↔
    ∃ i j a src_span tgt_span x y,
      i < Np.shape0 [[Float.one; Float.zero]] ∧ j < Np.shape1 [[Float.one; Float.zero]] ∧
      Np.cell [[Float.one; Float.zero]] i j = Some a ∧ Float.gtb a Float.zero = true ∧
      [[0; 1]] !! i = Some src_span ∧ [[0]; [1]] !! j = Some tgt_span ∧
      x ∈ src_span ∧ y ∈ tgt_span ∧ k = format_link x y.
Proof.
  assert (get_alignments_freq [[Float.one; Float.zero]] [[0; 1]] [[0]; [1]]
          = Ok [("0-0", Float.half); ("1-0", Float.half)]) as Hrun
    by (vm_compute; reflexivity).
  split; [exact Hrun|].
  apply (get_alignments_freq_keys [[Float.one; Float.zero]] [[0; 1]] [[0]; [1]]
           [("0-0", Float.half); ("1-0", Float.half)] Hrun).
Defined.

(** ** Words and sub-words *)

Lemma length_w2b_map (words : list (list string)) (cnt : nat) :
  length (w2b_map words cnt) = length words.
Proof. revert cnt. induction words as [|w words IH]; intros cnt; simpl; [done|]. by rewrite IH. Qed.

Lemma concat_w2b_map (words : list (list string)) (cnt : nat) :
  concat (w2b_map words cnt) = seq cnt (length (concat words)).
Proof.
  revert cnt. induction words as [|w words IH]; intros cnt; simpl; [done|].
  rewrite IH, length_app, seq_app. done.
Qed.

Lemma lookup_w2b_map (words : list (list string)) (cnt i : nat) (w : list string) :
  words !! i = Some w →
  w2b_map words cnt !! i = Some (seq (cnt + length (concat (take i words))) (length w)).
Proof.
  revert cnt i. induction words as [|w0 words IH]; intros cnt i Hw; [done|].
  destruct i as [|i]; simpl in *.
  - injection Hw as ->. by rewrite Nat.add_0_r.
  - rewrite (IH _ _ Hw), length_app. f_equal. f_equal. lia.
Qed.

(** [[i for i, w in enumerate(sent) for _ in w]], with the count of
    [enumerate] started at [c]. *)
Lemma b2w_map_from (c : nat) (sent : list (list string)) :
  flat_map (λ '(i, w), map (λ _ : string, i) w) (zip (seq c (length sent)) sent)
  = concat (zip_with (λ i w, replicate (length w) i) (seq c (length sent)) sent).
Proof.
  revert c. induction sent as [|w sent IH]; intros c; simpl; [done|].
  rewrite IH. f_equal. clear. induction w; simpl; [done|]. by f_equal.
Qed.

Lemma lookup_b2w_from (c : nat) (sent : list (list string)) (k i : nat) :
  concat (zip_with (λ i w, replicate (length w) i) (seq c (length sent)) sent) !! k
    = Some i ↔
  ∃ w, c ≤ i ∧ sent !! (i - c) = Some w ∧
       length (concat (take (i - c) sent)) ≤ k
         < length (concat (take (i - c) sent)) + length w.
Proof.
  revert c k. induction sent as [|w0 sent IH]; intros c k; simpl.
  - split; [done|]. by intros (w & _ & ? & _).
  - destruct (decide (k < length w0)) as [Hk|Hk].
    + rewrite lookup_app_l by (by rewrite length_replicate).
      rewrite lookup_replicate. split.
      * intros [-> _]. exists w0. rewrite Nat.sub_diag. simpl. split; [done|]. split; [done|lia].
      * intros (w & Hc & Hw & Hlo & Hhi).
        destruct (i - c) as [|d] eqn:Hd; [split; [lia|done]|].
        simpl in Hlo. rewrite length_app in Hlo. lia.
    + rewrite lookup_app_r by (rewrite length_replicate; lia).
      rewrite length_replicate, IH. split.
      * intros (w & Hc & Hw & Hlo & Hhi). exists w.
        replace (i - c) with (S (i - S c)) by lia. simpl. rewrite length_app.
        split; [lia|]. split; [done|lia].
      * intros (w & Hc & Hw & Hlo & Hhi).
        destruct (i - c) as [|d] eqn:Hd.
        { simpl in *. injection Hw as ->. lia. }
        simpl in Hw, Hlo, Hhi. rewrite length_app in Hlo, Hhi.
        replace (i - S c) with d by lia. exists w. split; [lia|]. split; [done|lia].
Qed.

Lemma elem_of_concat {A} (x : A) (ls : list (list A)) :
  x ∈ concat ls ↔ ∃ l, x ∈ l ∧ l ∈ ls.
Proof.
  induction ls as [|l ls IH]; simpl.
  - split; [by intros ?%elem_of_nil|]. by intros (l & _ & ?%elem_of_nil).
  - rewrite elem_of_app, IH. split.
    + intros [?|(l' & ? & ?)]; [exists l; split; [done|left]|exists l'; split; [done|by right]].
    + intros (l' & Hx & [-> | ?]%elem_of_cons); [by left|right; by exists l'].
Qed.

(** X4.  The two maps between words and sub-words agree.  The word-to-
    sub-word map of [average_embeds_over_words] numbers the sub-words of a
    sentence consecutively from 0, one list per word; the sub-word-to-word
    map of the alignment methods has one entry per sub-word; and sub-word
    [k] is listed under word [i] exactly when entry [k] of the sub-word-to-
    word map is [i]. *)
Theorem w2b_b2w_agree (words : list (list string)) :
  length (w2b_map words 0) = length words ∧
  concat (w2b_map words 0) = seq 0 (length (bpe_list words)) ∧
  length (b2w_map words) = length (bpe_list words) ∧
  ∀ i k, (∃ ws, w2b_map words 0 !! i = Some ws ∧ k ∈ ws) ↔ b2w_map words !! k = Some i.
Proof.
  split; [apply length_w2b_map|]. split; [apply concat_w2b_map|].
  assert (∀ i k, (∃ ws, w2b_map words 0 !! i = Some ws ∧ k ∈ ws)
                 ↔ b2w_map words !! k = Some i) as Hagree.
  { intros i k. unfold b2w_map, enumerate. rewrite b2w_map_from, lookup_b2w_from.
    rewrite Nat.sub_0_r. split.
    - intros (ws & Hws & Hk).
      destruct (words !! i) as [w|] eqn:Hw.
      + rewrite (lookup_w2b_map _ _ _ _ Hw) in Hws. injection Hws as <-.
        apply elem_of_seq in Hk. exists w. split; [lia|]. split; [done|]. simpl in Hk. lia.
      + apply lookup_ge_None in Hw. apply lookup_lt_Some in Hws.
        rewrite length_w2b_map in Hws. lia.
    - intros (w & _ & Hw & Hk). eexists. split; [by apply lookup_w2b_map|].
      apply elem_of_seq. simpl. lia. }
  split; [|exact Hagree].
  unfold bpe_list. apply Nat.le_antisymm.
  - destruct (decide (length (b2w_map words) ≤ length (concat words))) as [|Hn]; [done|].
    destruct (lookup_lt_is_Some_2 (b2w_map words) (length (concat words))) as [i Hi]; [lia|].
    apply Hagree in Hi as (ws & Hws & Hk).
    assert (length (concat words) ∈ concat (w2b_map words 0)) as Hin.
    { apply elem_of_concat. exists ws. split; [done|]. by eapply list_elem_of_lookup_2. }
    rewrite concat_w2b_map in Hin. apply elem_of_seq in Hin. lia.
  - destruct (decide (length (concat words) ≤ length (b2w_map words))) as [|Hn]; [done|].
    assert (length (b2w_map words) ∈ concat (w2b_map words 0)) as Hin.
    { rewrite concat_w2b_map. apply elem_of_seq. lia. }
    apply elem_of_concat in Hin as (ws & Hk & Hws).
    apply list_elem_of_lookup_1 in Hws as [i Hws].
    assert (b2w_map words !! length (b2w_map words) = Some i) as Hi
      by (apply Hagree; eauto).
    apply lookup_lt_Some in Hi. lia.
Qed.

(** ** Averages over words and spans *)

Lemma take_seq_Ok {A} (V : list A) (a n : nat) :
  a + n ≤ length V → Np.take V (seq a n) = Ok (take n (drop a V)).
Proof.
  unfold Np.take. revert a. induction n as [|n IH]; intros a H; simpl.
  - by rewrite take_0.
  - destruct (getitem_lt V a) as (v & Hv & Hl); [lia|]. rewrite Hv. simpl.
    rewrite IH by lia. simpl. f_equal.
    rewrite (drop_S _ _ _ Hl). done.
Qed.

Lemma take_seq_Raise {A} (V : list A) (a n : nat) :
  0 < n → length V < a + n → Np.take V (seq a n) = Raise IndexError.
Proof.
  unfold Np.take. revert a. induction n as [|n IH]; intros a Hn H; simpl; [lia|].
  destruct (decide (a < length V)) as [Ha|Ha].
  - destruct (getitem_lt V a Ha) as (v & Hv & _). rewrite Hv. simpl.
    rewrite IH by lia. done.
  - rewrite getitem_ge by lia. done.
Qed.

Section Averages.
Context {num : Numerics}.

(** The loop [for word_set in w2b_map[l_id]] on one side. *)
Lemma word_vectors_Ok (V : list vec) (words : list (list string)) (cnt : nat) :
  cnt + length (concat words) ≤ length V →
  ∃ vs, mapR (λ word_set, let? sel := Np.take V word_set in Ok (mean0 sel))
             (w2b_map words cnt) = Ok vs ∧
        length vs = length words ∧
        ∀ i w, words !! i = Some w →
          vs !! i = Some (mean0 (take (length w)
                                   (drop (cnt + length (concat (take i words))) V))).
Proof using Type.
  revert cnt. induction words as [|w0 words IH]; intros cnt H; simpl in *.
  - exists []. by repeat split.
  - rewrite length_app in H. rewrite take_seq_Ok by lia. simpl.
    destruct (IH (cnt + length w0)) as (vs & -> & Hlen & Hvs); [lia|]. simpl.
    eexists. split; [done|]. split; [simpl; by rewrite Hlen|].
    intros [|i] w Hw; simpl in *.
    + injection Hw as ->. by rewrite Nat.add_0_r.
    + rewrite (Hvs i w Hw), length_app. do 4 f_equal. lia.
Qed.

Lemma word_vectors_Raise (V : list vec) (words : list (list string)) (cnt : nat) :
  cnt ≤ length V → length V < cnt + length (concat words) →
  mapR (λ word_set, let? sel := Np.take V word_set in Ok (mean0 sel))
       (w2b_map words cnt) = Raise IndexError.
Proof using Type.
  revert cnt. induction words as [|w0 words IH]; intros cnt Hc H; simpl in *; [lia|].
  rewrite length_app in H.
  destruct (decide (cnt + length w0 ≤ length V)) as [Hw|Hw].
  - rewrite take_seq_Ok by done. simpl. rewrite IH by lia. done.
  - rewrite take_seq_Raise by lia. done.
Qed.

(** X5.  [average_embeds_over_words] returns exactly when each side has at
    least as many vectors as the words of that side have sub-words, and
    raises [IndexError] otherwise.  When it returns there is one vector per
    word, the mean of the vectors of the word's sub-words: those that follow
    the sub-words of the words before it. *)
Theorem average_embeds_over_words_spec (bpe_vectors : list vec * list vec)
    (word_tokens_pair : list (list string) * list (list string)) :
  (length (bpe_list word_tokens_pair.1) ≤ length bpe_vectors.1 ∧
   length (bpe_list word_tokens_pair.2) ≤ length bpe_vectors.2 →
   ∃ v0 v1,
     average_embeds_over_words bpe_vectors word_tokens_pair = Ok (v0, v1) ∧
     length v0 = length word_tokens_pair.1 ∧
     length v1 = length word_tokens_pair.2 ∧
     (∀ i w, word_tokens_pair.1 !! i = Some w →
        v0 !! i = Some (mean0 (take (length w)
                    (drop (length (bpe_list (take i word_tokens_pair.1)))
                          bpe_vectors.1)))) ∧
     (∀ i w, word_tokens_pair.2 !! i = Some w →
        v1 !! i = Some (mean0 (take (length w)
                    (drop (length (bpe_list (take i word_tokens_pair.2)))
                          bpe_vectors.2))))) ∧
  (length bpe_vectors.1 < length (bpe_list word_tokens_pair.1) ∨
   length bpe_vectors.2 < length (bpe_list word_tokens_pair.2) →
   average_embeds_over_words bpe_vectors word_tokens_pair = Raise IndexError).
Proof using Type.
  unfold average_embeds_over_words, bpe_list. split.
  - intros [H1 H2].
    destruct (word_vectors_Ok bpe_vectors.1 word_tokens_pair.1 0) as (v0 & -> & L0 & E0);
      [simpl; lia|].
    destruct (word_vectors_Ok bpe_vectors.2 word_tokens_pair.2 0) as (v1 & -> & L1 & E1);
      [simpl; lia|].
    exists v0, v1. simpl. done.
  - intros H.
    destruct (decide (length bpe_vectors.1 < length (concat word_tokens_pair.1)))
      as [H1|H1].
    + rewrite word_vectors_Raise by (simpl; lia). done.
    + destruct (word_vectors_Ok bpe_vectors.1 word_tokens_pair.1 0) as (v0 & -> & _);
        [simpl; lia|].
      simpl. rewrite word_vectors_Raise by (simpl; lia). done.
Qed.
End Averages.

Lemma average_embeds_over_words_spec_witness :
  (length (bpe_list [["a"; "##b"]; ["c"]]) ≤ length [[Float.one]; [Float.zero]; [Float.one]] ∧
   length (bpe_list [["x"]]) ≤ length [[Float.one]]) ∧
  ∃ v0 v1,
    average_embeds_over_words (num := Reference.numerics)
      ([[Float.one]; [Float.zero]; [Float.one]], [[Float.one]])
      ([["a"; "##b"]; ["c"]], [["x"]]) = Ok (v0, v1) ∧
    length v0 = 2 ∧ length v1 = 1.
Proof.
  assert (length (bpe_list [["a"; "##b"]; ["c"]])
            ≤ length [[Float.one]; [Float.zero]; [Float.one]] ∧
          length (bpe_list [["x"]]) ≤ length [[Float.one]]) as H by (simpl; lia).
  split; [exact H|].
  destruct (proj1 (average_embeds_over_words_spec (num := Reference.numerics)
                     ([[Float.one]; [Float.zero]; [Float.one]], [[Float.one]])
                     ([["a"; "##b"]; ["c"]], [["x"]])) H)
    as (v0 & v1 & Hrun & L0 & L1 & _).
  exists v0, v1. split; [exact Hrun|]. split; [exact L0|exact L1].
Defined.

(** ** The argmax matrices *)

Lemma mapR_lookup {A B} (f : A → result B) (l : list A) (ys : list B) (i : nat) (y : B) :
  mapR f l = Ok ys → ys !! i = Some y → ∃ x, l !! i = Some x ∧ f x = Ok y.
Proof.
  revert ys i. induction l as [|x l IH]; intros ys i H Hy; simpl in H.
  - injection H as <-. done.
  - destruct (f x) as [y0|] eqn:Hx; [|done]. simpl in H.
    destruct (mapR f l) as [ys'|] eqn:Hl; [|done]. simpl in H. injection H as <-.
    destruct i as [|i]; simpl in *.
    + injection Hy as ->. eauto.
    + by eapply IH.
Qed.

Lemma fold_maximum_nan (l : vec) (x : float) :
  Float.is_nan x = true → fold_left Float.maximum l x = x.
Proof.
  intros Hx. induction l as [|v l IH]; simpl; [done|].
  unfold Float.maximum at 2. rewrite Hx, orb_true_r. done.
Qed.

(** [argmax] points at a cell that holds the maximum. *)
Lemma argmax_from_max (pre l : vec) (best : float) (besti : nat) :
  (pre ++ l) !! besti = Some best →
  (pre ++ l) !! Np.argmax_from l (length pre) best besti
    = Some (fold_left Float.maximum l best).
Proof.
  revert pre best besti. induction l as [|v l IH]; intros pre best besti Hb; simpl.
  - done.
  - destruct (Float.is_nan best) eqn:Hnan.
    + rewrite Hb. f_equal. symmetry.
      rewrite (fold_maximum_nan l); unfold Float.maximum; rewrite Hnan, orb_true_r; done.
    + unfold Float.maximum at 2. unfold Float.geb, Float.leb. rewrite Hnan, orb_false_r.
      replace (pre ++ v :: l) with ((pre ++ [v]) ++ l) in * by (by rewrite <- app_assoc).
      replace (S (length pre)) with (length (pre ++ [v])) by (rewrite length_app; simpl; lia).
      destruct (SFleb v best); simpl.
      * by apply IH.
      * apply IH. rewrite lookup_app_l by (rewrite !length_app; simpl; lia).
        rewrite lookup_app_r by done. by rewrite Nat.sub_diag.
Qed.

Lemma argmax_max (l : vec) (k : nat) :
  Np.argmax l = Ok k →
  k < length l ∧ ∃ v, l !! k = Some v ∧ Np.reduce Float.maximum l = Ok v.
Proof.
  destruct l as [|x l]; [done|]. simpl. intros [= <-]. split.
  - pose proof (argmax_from_lt l 1 x 0). simpl. lia.
  - eexists. split; [|done]. apply (argmax_from_max [x] l x 0). done.
Qed.

Lemma lookup_eye (n k : nat) : k < n → Np.eye n !! k = Some (Np.one_hot n k).
Proof.
  intros H. unfold Np.eye. rewrite list_lookup_fmap, lookup_seq_lt by done. done.
Qed.

Lemma lookup_one_hot (n k j : nat) :
  j < n → Np.one_hot n k !! j = Some (if k =? j then Float.one else Float.zero).
Proof.
  intros H. unfold Np.one_hot. rewrite list_lookup_fmap, lookup_seq_lt by done. done.
Qed.

Lemma length_one_hot (n k : nat) : length (Np.one_hot n k) = n.
Proof. unfold Np.one_hot. by rewrite length_map, length_seq. Qed.

(** [np.eye(n)[idx]] *)
Lemma take_eye_cells (n : nat) (idx : list nat) (rows : ndarray) :
  Np.take (Np.eye n) idx = Ok rows →
  length rows = length idx ∧
  ∀ i k, idx !! i = Some k → k < n ∧ rows !! i = Some (Np.one_hot n k).
Proof.
  unfold Np.take. intros H. split; [by eapply mapR_length|].
  intros i k Hk.
  destruct (lookup_lt_is_Some_2 rows i) as [row Hrow].
  { rewrite (mapR_length _ _ _ H). by eapply lookup_lt_Some. }
  destruct (mapR_lookup _ _ _ _ _ H Hrow) as (k' & Hk' & Hget).
  assert (k' = k) as -> by congruence.
  apply getitem_Ok in Hget. pose proof (lookup_lt_Some _ _ _ Hget) as Hlt.
  rewrite length_eye in Hlt. split; [done|].
  rewrite lookup_eye in Hget by done. congruence.
Qed.

Lemma length_transpose (a : ndarray) : length (Np.transpose a) = Np.shape1 a.
Proof. unfold Np.transpose. by rewrite length_map, length_seq. Qed.

Lemma lookup_transpose (a : ndarray) (j : nat) :
  j < Np.shape1 a →
  Np.transpose a !! j = Some (map (λ r : vec, default Float.zero (r !! j)) a).
Proof.
  intros H. unfold Np.transpose. rewrite list_lookup_fmap, lookup_seq_lt by done. done.
Qed.

(** Cell [(i, j)] of [get_alignment_matrix]'s two matrices, by the argmax
    of row [i] and of column [j]. *)
Lemma alignment_matrix_cells (S : ndarray) :
  Np.rectangular S → 0 < Np.shape0 S → 0 < Np.shape1 S →
  ∃ forward backward_T am1 am0,
    get_alignment_matrix S = Ok (forward, backward_T) ∧
    Np.argmax_axis1 S = Ok am1 ∧ Np.argmax_axis0 S = Ok am0 ∧
    length am1 = Np.shape0 S ∧ length am0 = Np.shape1 S ∧
    length forward = Np.shape0 S ∧ length backward_T = Np.shape0 S ∧
    (∀ i k, am1 !! i = Some k →
       forward !! i = Some (Np.one_hot (Np.shape1 S) k) ∧
       ∃ row v, S !! i = Some row ∧ row !! k = Some v ∧
                Np.reduce Float.maximum row = Ok v) ∧
    (∀ j k, am0 !! j = Some k →
       (∀ i, i < Np.shape0 S → ∃ row, backward_T !! i = Some row ∧ length row = Np.shape1 S ∧
          row !! j = Some (if k =? i then Float.one else Float.zero)) ∧
       ∃ v, Np.cell S k j = Some v ∧
            Np.reduce Float.maximum (map (λ r : vec, default Float.zero (r !! j)) S) = Ok v).
Proof.
  intros Hrect Hm Hn.
  destruct (get_alignment_matrix_defined S Hrect Hm Hn) as (forward & backward_T & Hrun).
  exists forward, backward_T. unfold get_alignment_matrix in *.
  destruct (Np.argmax_axis1 S) as [am1|] eqn:H1; [|done]. simpl in Hrun.
  destruct (Np.take (Np.eye (Np.shape1 S)) am1) as [fwd|] eqn:Hf; [|done]. simpl in Hrun.
  destruct (Np.argmax_axis0 S) as [am0|] eqn:H0; [|done]. simpl in Hrun.
  destruct (Np.take (Np.eye (Np.shape0 S)) am0) as [backward|] eqn:Hb; [|done].
  simpl in Hrun. injection Hrun as <- <-.
  exists am1, am0. split; [simpl; rewrite Hf; simpl; by rewrite Hb|].
  split; [done|]. split; [done|].
  unfold Np.argmax_axis1 in H1.
  assert (Np.argmax_axis0 S = mapR Np.argmax (Np.transpose S)) as E0.
  { unfold Np.argmax_axis0. destruct S; [simpl in Hm; lia|done]. }
  rewrite E0 in H0. clear E0.
  pose proof (mapR_length _ _ _ H1) as L1.
  pose proof (mapR_length _ _ _ H0) as L0. rewrite length_transpose in L0.
  destruct (take_eye_cells _ _ _ Hf) as [Lf Cf].
  destruct (take_eye_cells _ _ _ Hb) as [Lb Cb].
  assert (Np.shape1 backward = Np.shape0 S) as Hsb.
  { destruct (lookup_lt_is_Some_2 am0 0) as [k0 Hk0]; [lia|].
    destruct (Cb 0 k0 Hk0) as [_ Hrow]. destruct backward as [|r b]; [done|].
    simpl in *. injection Hrow as ->. apply length_one_hot. }
  split; [done|]. split; [done|]. split; [unfold Np.shape0 in *; lia|].
  split; [by rewrite length_transpose|]. split.
  - intros i k Hk. destruct (Cf i k Hk) as [Hlt Hrow]. split; [done|].
    destruct (mapR_lookup _ _ _ _ _ H1 Hk) as (row & Hr & Ha).
    apply argmax_max in Ha as (_ & v & Hv & Hmax). eauto.
  - intros j k Hk. destruct (Cb j k Hk) as [Hlt Hrow].
    pose proof (lookup_lt_Some _ _ _ Hk) as Hj. rewrite L0 in Hj. split.
    + intros i Hi. rewrite lookup_transpose by lia. eexists. split; [done|].
      split; [rewrite length_map; lia|].
      rewrite list_lookup_fmap, Hrow. simpl. rewrite lookup_one_hot by done. done.
    + destruct (mapR_lookup _ _ _ _ _ H0 Hk) as (col & Hc & Ha).
      rewrite lookup_transpose in Hc by done. injection Hc as <-.
      apply argmax_max in Ha as (Hk' & v & Hv & Hmax).
      exists v. split; [|done].
      rewrite list_lookup_fmap in Hv. unfold Np.cell.
      destruct (S !! k) as [row|] eqn:Hrowk; [|done]. simpl in Hv.
      assert (j < length row) as Hjr.
      { eapply Forall_lookup_1 in Hrect; [|exact Hrowk]. simpl in Hrect. lia. }
      destruct (lookup_lt_is_Some_2 row j Hjr) as [u Hu]. rewrite Hu in Hv |- *.
      simpl in Hv. done.
Qed.

(** X6.  On a rectangular matrix with at least one row and one column,
    [get_alignment_matrix] returns two matrices of the shape of its
    argument.  Every row of [forward] is a row of the identity: its one [1.]
    stands where the row of the similarity matrix holds its maximum.
    Likewise every column of [backward.T] holds one [1.], where the column
    of the similarity matrix holds its maximum, and [0.] elsewhere. *)
Theorem get_alignment_matrix_argmax (S : ndarray) :
  Np.rectangular S → 0 < Np.shape0 S → 0 < Np.shape1 S →
  ∃ forward backward_T,
    get_alignment_matrix S = Ok (forward, backward_T) ∧
    length forward = Np.shape0 S ∧ length backward_T = Np.shape0 S ∧
    (∀ i, i < Np.shape0 S →
       ∃ k row v, S !! i = Some row ∧ row !! k = Some v ∧
         Np.reduce Float.maximum row = Ok v ∧
         forward !! i = Some (Np.one_hot (Np.shape1 S) k)) ∧
    (∀ j, j < Np.shape1 S →
       ∃ k v, Np.cell S k j = Some v ∧
         Np.reduce Float.maximum (map (λ r : vec, default Float.zero (r !! j)) S) = Ok v ∧
         ∀ i, i < Np.shape0 S →
           Np.cell backward_T i j = Some (if k =? i then Float.one else Float.zero)).
Proof.
  intros Hrect Hm Hn.
  destruct (alignment_matrix_cells S Hrect Hm Hn)
    as (forward & backward_T & am1 & am0 & Hrun & _ & _ & L1 & L0 & Lf & Lb & Hf & Hb).
  exists forward, backward_T. split; [done|]. split; [done|]. split; [done|]. split.
  - intros i Hi. destruct (lookup_lt_is_Some_2 am1 i) as [k Hk]; [lia|].
    destruct (Hf i k Hk) as (Hrow & row & v & ? & ? & ?). by exists k, row, v.
  - intros j Hj. destruct (lookup_lt_is_Some_2 am0 j) as [k Hk]; [lia|].
    destruct (Hb j k Hk) as (Hcells & v & ? & ?). exists k, v.
    split; [done|]. split; [done|]. intros i Hi.
    destruct (Hcells i Hi) as (row & Hrow & _ & Hc). unfold Np.cell. by rewrite Hrow.
Qed.

Lemma get_alignment_matrix_argmax_witness :
  ∃ forward backward_T,
    get_alignment_matrix Examples.sim3 = Ok (forward, backward_T) ∧
    length forward = 3 ∧ length backward_T = 3.
Proof.
  destruct (get_alignment_matrix_argmax Examples.sim3)
    as (forward & backward_T & Hrun & Lf & Lb & _).
  - unfold Np.rectangular. simpl. repeat constructor.
  - simpl. lia.
  - simpl. lia.
  - exists forward, backward_T. split; [exact Hrun|]. split; [exact Lf|exact Lb].
Defined.

Lemma cell_map2 (f : float → float → float) (a b : ndarray) (i j : nat) (v : float) :
  Np.cell (Np.map2 f a b) i j = Some v →
  ∃ x y, Np.cell a i j = Some x ∧ Np.cell b i j = Some y ∧ v = f x y.
Proof.
  unfold Np.cell, Np.map2. rewrite lookup_zip_with.
  destruct (a !! i) as [ra|]; [|done]. destruct (b !! i) as [rb|]; [|done]. simpl.
  rewrite lookup_zip_with.
  destruct (ra !! j) as [x|]; [|done]. destruct (rb !! j) as [y|]; [|done]. simpl.
  intros [= <-]. eauto.
Qed.

(** X7.  The intersection [fwd * rev] that [align_sentences] builds is a
    partial matching: two distinct links of it share neither their source
    index nor their target index.  Each link joins a row and a column at a
    cell that holds the maximum of both. *)
Theorem inter_is_matching (S : ndarray) :
  Np.rectangular S → 0 < Np.shape0 S → 0 < Np.shape1 S →
  ∃ fwd rev,
    get_alignment_matrix S = Ok (fwd, rev) ∧
    (∀ i j i' j',
       committed (Np.map2 Float.mul fwd rev) i j →
       committed (Np.map2 Float.mul fwd rev) i' j' →
       (i = i' ↔ j = j')) ∧
    (∀ i j, committed (Np.map2 Float.mul fwd rev) i j →
       ∃ row v, S !! i = Some row ∧ row !! j = Some v ∧
         Np.reduce Float.maximum row = Ok v ∧
         Np.reduce Float.maximum (map (λ r : vec, default Float.zero (r !! j)) S) = Ok v).
Proof.
  intros Hrect Hm Hn.
  destruct (alignment_matrix_cells S Hrect Hm Hn)
    as (fwd & rev & am1 & am0 & Hrun & _ & _ & L1 & L0 & Lf & Lb & Hf & Hb).
  exists fwd, rev. split; [done|].
  assert (∀ i j, committed (Np.map2 Float.mul fwd rev) i j →
                 am1 !! i = Some j ∧ am0 !! j = Some i) as Hlink.
  { intros i j (a & Ha & Hpos).
    apply cell_map2 in Ha as (x & y & Hx & Hy & ->).
    unfold Np.cell in Hx, Hy.
    destruct (fwd !! i) as [rf|] eqn:Hrf; [|done].
    destruct (rev !! i) as [rr|] eqn:Hrr; [|done].
    pose proof (lookup_lt_Some _ _ _ Hrf) as Hi. rewrite Lf in Hi.
    destruct (lookup_lt_is_Some_2 am1 i) as [k1 Hk1]; [lia|].
    destruct (Hf i k1 Hk1) as (Hrow & _). rewrite Hrf in Hrow. injection Hrow as ->.
    pose proof (lookup_lt_Some _ _ _ Hx) as Hj. rewrite length_one_hot in Hj.
    rewrite lookup_one_hot in Hx by done. injection Hx as <-.
    destruct (lookup_lt_is_Some_2 am0 j) as [k0 Hk0]; [lia|].
    destruct (Hb j k0 Hk0) as (Hcells & _).
    destruct (Hcells i Hi) as (row & Hrow & _ & Hc).
    rewrite Hrr in Hrow. injection Hrow as <-. rewrite Hy in Hc. injection Hc as ->.
    destruct (Nat.eqb_spec k1 j) as [E1|E1], (Nat.eqb_spec k0 i) as [E0|E0];
      [by subst | vm_compute in Hpos; discriminate ..]. }
  split.
  - intros i j i' j' [H1 H0]%Hlink [H1' H0']%Hlink. split; intros ->; congruence.
  - intros i j Hc. destruct (Hlink i j Hc) as [H1 H0].
    destruct (Hf i j H1) as (_ & row & v & Hrow & Hv & Hmax).
    destruct (Hb j i H0) as (_ & v' & Hv' & Hmax').
    unfold Np.cell in Hv'. rewrite Hrow in Hv'.
    assert (v' = v) as -> by congruence. by exists row, v.
Qed.

Lemma inter_is_matching_witness :
  ∃ fwd rev,
    get_alignment_matrix Examples.sim3 = Ok (fwd, rev) ∧
    ∀ i j i' j',
       committed (Np.map2 Float.mul fwd rev) i j →
       committed (Np.map2 Float.mul fwd rev) i' j' →
       (i = i' ↔ j = j').
Proof.
  destruct (inter_is_matching Examples.sim3) as (fwd & rev & Hrun & Hmatch & _).
  - unfold Np.rectangular. simpl. repeat constructor.
  - simpl. lia.
  - simpl. lia.
  - exists fwd, rev. split; [exact Hrun|exact Hmatch].
Defined.

(** ** [iter_max] on a small matrix (C6) *)

(** C6.  On a matrix whose smaller dimension is at most 2, [iter_max]
    returns, whatever its round budget, exactly [forward * 0.5 +
    backward.T * 0.5] for the forward and backward argmax matrices that
    [get_alignment_matrix] computes (and fails as [get_alignment_matrix]
    does on a matrix that has no argmax).  On a rectangular matrix with at
    least one row and one column that result exists and has the shape of
    the matrix; cell by cell it is [f * 0.5 + b * 0.5] for the cells [f] of
    [forward] and [b] of [backward.T], each of them [0.] or [1.]: so it is
    [1.] where a row and a column agree on their argmax, [0.5] where one of
    them points, and [0.] elsewhere. *)
Theorem iter_max_small (S : ndarray) (max_count : nat) :
  Nat.min (Np.shape0 S) (Np.shape1 S) ≤ 2 →
  iter_max S max_count =
    (let? (forward, backward_T) := get_alignment_matrix S in
     Ok (Np.map2 Float.add (Np.map1 (λ v, Float.mul v Float.half) forward)
                           (Np.map1 (λ v, Float.mul v Float.half) backward_T))) ∧
  (Np.rectangular S → 0 < Np.shape0 S → 0 < Np.shape1 S →
   ∃ forward backward_T inter,
     get_alignment_matrix S = Ok (forward, backward_T) ∧
     iter_max S max_count = Ok inter ∧
     length inter = Np.shape0 S ∧
     Forall (λ row, length row = Np.shape1 S) inter ∧
     ∀ i j, i < Np.shape0 S → j < Np.shape1 S →
       ∃ f b, Np.cell forward i j = Some f ∧ Np.cell backward_T i j = Some b ∧
              (f = Float.zero ∨ f = Float.one) ∧ (b = Float.zero ∨ b = Float.one) ∧
              Np.cell inter i j
                = Some (Float.add (Float.mul f Float.half) (Float.mul b Float.half)) ∧
              Np.cell inter i j
                = Some (if Float.eqb f Float.one && Float.eqb b Float.one then Float.one
                        else if Float.eqb f Float.one || Float.eqb b Float.one
                             then Float.half
                             else Float.zero)).
Proof.
  intros H. apply Nat.leb_le in H.
  assert (iter_max S max_count =
    (let? (forward, backward_T) := get_alignment_matrix S in
     Ok (Np.map2 Float.add (Np.map1 (λ v, Float.mul v Float.half) forward)
                           (Np.map1 (λ v, Float.mul v Float.half) backward_T)))) as Heq.
  { unfold iter_max, get_alignment_matrix, half_sum.
    destruct (Np.argmax_axis1 S) as [am1|]; [|reflexivity]. simpl.
    destruct (Np.take _ am1) as [forward|]; [|reflexivity]. simpl.
    destruct (Np.argmax_axis0 S) as [am0|]; [|reflexivity]. simpl.
    destruct (Np.take _ am0) as [backward|]; [|reflexivity]. simpl.
    rewrite H. reflexivity. }
  split; [exact Heq|]. intros Hrect Hm Hn.
  destruct (alignment_matrix_cells S Hrect Hm Hn)
    as (fwd & rev & am1 & am0 & Hrun & _ & _ & L1 & L0 & Lf & Lb & Hf & Hb).
  exists fwd, rev. eexists. split; [done|]. rewrite Heq, Hrun.
  split; [reflexivity|].
  assert (∀ i, i < Np.shape0 S →
            ∃ k rb, am1 !! i = Some k ∧ k < Np.shape1 S ∧
                    fwd !! i = Some (Np.one_hot (Np.shape1 S) k) ∧
                    rev !! i = Some rb ∧ length rb = Np.shape1 S ∧
                    ∀ j, j < Np.shape1 S →
                      ∃ k0, am0 !! j = Some k0 ∧
                            rb !! j = Some (if k0 =? i then Float.one else Float.zero))
    as Hrows.
  { intros i Hi. destruct (lookup_lt_is_Some_2 am1 i) as [k Hk]; [lia|].
    destruct (Hf i k Hk) as (Hrow & row & v & HS & Hv & _).
    destruct (lookup_lt_is_Some_2 am0 0) as [k00 Hk00]; [lia|].
    destruct (Hb 0 k00 Hk00) as (Hcells0 & _).
    destruct (Hcells0 i Hi) as (rb & Hrb & Lrb & _).
    exists k, rb. split; [done|]. split.
    { eapply Forall_lookup_1 in Hrect; [|exact HS]. simpl in Hrect.
      rewrite <- Hrect. by eapply lookup_lt_Some. }
    split; [done|]. split; [done|]. split; [done|].
    intros j Hj. destruct (lookup_lt_is_Some_2 am0 j) as [k0 Hk0]; [lia|].
    destruct (Hb j k0 Hk0) as (Hcells & _).
    destruct (Hcells i Hi) as (rb' & Hrb' & _ & Hc).
    assert (rb' = rb) as -> by congruence. by exists k0. }
  split; [|split].
  - unfold Np.map2, Np.map1. rewrite length_zip_with, !length_map. lia.
  - apply Forall_forall. intros row Hrow. unfold Np.map2, Np.map1 in Hrow.
    apply list_elem_of_lookup_1 in Hrow as [i Hrow].
    apply lookup_zip_with_Some in Hrow as (rf & rb & -> & Hrf & Hrb).
    rewrite list_lookup_fmap in Hrf, Hrb.
    destruct (fwd !! i) as [rf0|] eqn:Hrf0; [|done].
    destruct (rev !! i) as [rb0|] eqn:Hrb0; [|done].
    simpl in Hrf, Hrb. injection Hrf as <-. injection Hrb as <-.
    destruct (Hrows i) as (k & rb & _ & _ & Hfi & Hri & Lrb & _).
    { apply lookup_lt_Some in Hrf0. lia. }
    assert (rf0 = Np.one_hot (Np.shape1 S) k) as -> by congruence.
    assert (rb0 = rb) as -> by congruence.
    rewrite length_zip_with, !length_map, length_one_hot. lia.
  - intros i j Hi Hj.
    destruct (Hrows i Hi) as (k & rb & Hk & Hkn & Hfi & Hri & Lrb & Hcells).
    destruct (Hcells j Hj) as (k0 & Hk0 & Hbj).
    exists (if k =? j then Float.one else Float.zero),
           (if k0 =? i then Float.one else Float.zero).
    assert (Np.cell fwd i j = Some (if k =? j then Float.one else Float.zero)) as Hcf.
    { unfold Np.cell. rewrite Hfi. by apply lookup_one_hot. }
    assert (Np.cell rev i j = Some (if k0 =? i then Float.one else Float.zero)) as Hcb.
    { unfold Np.cell. by rewrite Hri. }
    split; [done|]. split; [done|].
    split; [destruct (k =? j); auto|]. split; [destruct (k0 =? i); auto|].
    assert (Np.cell (Np.map2 Float.add (Np.map1 (λ v, Float.mul v Float.half) fwd)
                       (Np.map1 (λ v, Float.mul v Float.half) rev)) i j
            = Some (Float.add (Float.mul (if k =? j then Float.one else Float.zero) Float.half)
                      (Float.mul (if k0 =? i then Float.one else Float.zero) Float.half)))
      as Hcell.
    { unfold Np.cell, Np.map2, Np.map1.
      rewrite lookup_zip_with, !list_lookup_fmap, Hfi, Hri. simpl.
      rewrite lookup_zip_with, !list_lookup_fmap, Hbj, lookup_one_hot by done.
      reflexivity. }
    split; [exact Hcell|]. rewrite Hcell.
    destruct (k =? j), (k0 =? i); vm_compute; reflexivity.
Qed.

(** The worked matrix: [forward] is [[1, 0, 0], [0, 1, 0]], [backward.T] is
    [[1, 0, 1], [0, 1, 0]], and [iter_max] returns their half sum. *)
Lemma iter_max_small_witness :
  Nat.min (Np.shape0 Examples.sim23) (Np.shape1 Examples.sim23) ≤ 2 ∧
  get_alignment_matrix Examples.sim23
    = Ok ([[Float.one; Float.zero; Float.zero]; [Float.zero; Float.one; Float.zero]],
          [[Float.one; Float.zero; Float.one]; [Float.zero; Float.one; Float.zero]]) ∧
  iter_max Examples.sim23 5
    = Ok [[Float.one; Float.zero; Float.half]; [Float.zero; Float.one; Float.zero]].
Proof.
  assert (Nat.min (Np.shape0 Examples.sim23) (Np.shape1 Examples.sim23) ≤ 2) as Hsmall
    by (simpl; lia).
  split; [exact Hsmall|]. split; [vm_compute; reflexivity|].
  rewrite (proj1 (iter_max_small Examples.sim23 5 Hsmall)).
  vm_compute. reflexivity.
Defined.

(** ** The greedy matcher on a matrix without a positive maximum *)

Lemma maximum_nan_r (x v : float) :
  Float.is_nan v = true → Float.is_nan (Float.maximum x v) = true.
Proof.
  intros Hv. unfold Float.maximum.
  destruct (Float.is_nan x) eqn:Hx; [by rewrite orb_true_r|].
  rewrite orb_false_r. by destruct v.
Qed.

Lemma fold_maximum_has_nan (l : vec) (x : float) :
  (∃ v, v ∈ x :: l ∧ Float.is_nan v = true) →
  Float.is_nan (fold_left Float.maximum l x) = true.
Proof.
  revert x. induction l as [|u l IH]; intros x (v & Hin & Hv); simpl.
  - apply list_elem_of_singleton in Hin as ->. done.
  - apply elem_of_cons in Hin as [-> | Hin].
    + rewrite fold_maximum_nan; unfold Float.maximum; rewrite Hv, orb_true_r; done.
    + apply elem_of_cons in Hin as [-> | Hin].
      * apply IH. exists (Float.maximum x u). split; [left|]. by apply maximum_nan_r.
      * apply IH. exists v. split; [by right|done].
Qed.

Lemma nan_not_positive (v : float) : Float.is_nan v = true → Float.gtb v Float.zero = false.
Proof. by destruct v. Qed.

(** X8.  [get_alignmatrix_iter] commits nothing when [np.max] of the matrix
    is not positive.  On a matrix without a cell, [np.max] raises
    [ValueError].  On a matrix that holds a NaN anywhere, or no positive
    cell, the loop is never entered: the result is the zero matrix and the
    matrix handed over is left as it was, whatever the span lists. *)
Theorem get_alignmatrix_iter_no_maximum (r : ref) (w : world) (S : ndarray)
    (src_spans tgt_spans : list (list nat)) :
  heap w !! r = Some S →
  (concat S = [] →
   get_alignmatrix_iter r src_spans tgt_spans w = (Raise ValueError, w)) ∧
  ((∃ v, v ∈ concat S ∧ Float.is_nan v = true) ∨
   (concat S ≠ [] ∧ Forall (λ v, positive v = false) (concat S)) →
   get_alignmatrix_iter r src_spans tgt_spans w
   = (Ok (Np.zeros (Np.shape0 S) (Np.shape1 S)), w)).
Proof.
  intros Hw. unfold get_alignmatrix_iter, bind, load. rewrite Hw. simpl.
  unfold bind, load. rewrite Hw. unfold lift, Np.max, Np.reduce. split.
  - intros ->. done.
  - intros [(v & Hin & Hv) | [Hne Hall]].
    + destruct (concat S) as [|x l] eqn:E; [by apply elem_of_nil in Hin|].
      rewrite nan_not_positive; [done|].
      apply fold_maximum_has_nan. eauto.
    + destruct (concat S) as [|x l] eqn:E; [done|].
      pose proof (fold_maximum_elem l x) as Hin.
      eapply Forall_forall in Hall; [|exact Hin]. unfold positive in Hall.
      by rewrite Hall.
Qed.

Lemma get_alignmatrix_iter_no_maximum_witness :
  heap (MkWorld [[[Float.one; S754_nan]; [Float.half; Float.one]]] []) !! 0
    = Some [[Float.one; S754_nan]; [Float.half; Float.one]] ∧
  get_alignmatrix_iter 0 [[0]; [1]] [[0]; [1]]
    (MkWorld [[[Float.one; S754_nan]; [Float.half; Float.one]]] [])
  = (Ok (Np.zeros 2 2), MkWorld [[[Float.one; S754_nan]; [Float.half; Float.one]]] []).
Proof.
  split; [reflexivity|].
  apply (proj2 (get_alignmatrix_iter_no_maximum 0
                  (MkWorld [[[Float.one; S754_nan]; [Float.half; Float.one]]] [])
                  [[Float.one; S754_nan]; [Float.half; Float.one]]
                  [[0]; [1]] [[0]; [1]] eq_refl)).
  left. exists S754_nan. split; [|reflexivity].
  simpl. apply elem_of_cons. right. apply elem_of_cons. by left.
Defined.

(** ** The bidirectional mode on sentence pairs of one shape *)

Lemma foldW_preserves {A S} (body : S → A → M S) (P : S → Prop) (l : list A) :
  (∀ acc x w acc' w', x ∈ l → P acc → body acc x w = (Ok acc', w') → P acc') →
  ∀ init w r w', P init → foldW body l init w = (Ok r, w') → P r.
Proof.
  induction l as [|x l IH]; intros Hbody init w r w' Hinit H; simpl in H.
  - apply ret_Ok in H as [-> _]. done.
  - apply bind_Ok in H as (acc & w1 & Hx & H). eapply IH; [| |exact H].
    + intros acc0 y w0 acc' w0' Hy. apply Hbody. by right.
    + eapply Hbody; [left|exact Hinit|exact Hx].
Qed.

Lemma zip_diag {A} (l : list A) : zip l l = map (λ x, (x, x)) l.
Proof. induction l; simpl; [done|]. by f_equal. Qed.

Lemma replicate_map_const {A B} (i : B) (w : list A) :
  map (λ _ : A, i) w = replicate (length w) i.
Proof. induction w; simpl; [done|]. by f_equal. Qed.

(** The sub-word-to-word map depends on the number of sub-words of each
    word only. *)
Lemma b2w_map_shape (s1 s2 : list (list string)) :
  map length s1 = map length s2 → b2w_map s1 = b2w_map s2.
Proof.
  unfold b2w_map, enumerate. generalize 0 as c. revert s2.
  induction s1 as [|w1 s1 IH]; intros [|w2 s2] c H; try done.
  simpl in *. injection H as Hw H. rewrite !replicate_map_const, Hw.
  f_equal. by apply IH.
Qed.

Lemma map_fst_snd {A} (l : list (A * A)) :
  Forall (λ p, p.1 = p.2) l → map fst l = map snd l.
Proof. induction 1 as [|[a b] l H _ IH]; simpl in *; [done|]. by rewrite H, IH. Qed.

Section Bidirection.
Context {prov : Provider} {num : Numerics}.
Variables (self : t) (source_sentences target_sentences : list string).

(** Word by word, the two sentences of every pair have the same number of
    sub-words. *)
Hypothesis Hshape :
  Forall2 (λ s t,
      map (λ x, length (tokenize (embed_loader self) x)) (str_split s)
      = map (λ x, length (tokenize (embed_loader self) x)) (str_split t))
    source_sentences target_sentences.

Lemma words_tokens_same_shape (words_tokens : list (list (list string) * list (list string))) :
  words_tokens_of self source_sentences target_sentences = Ok words_tokens →
  Forall (λ p, b2w_map p.1 = b2w_map p.2) words_tokens.
Proof using Hshape.
  unfold words_tokens_of. apply mapR_Forall. intros sent_id [l1 l2] _ H.
  destruct (getitem source_sentences sent_id) as [src|] eqn:Hsrc; [|done]. simpl in H.
  destruct (getitem target_sentences sent_id) as [tgt|] eqn:Htgt; [|done]. simpl in H.
  injection H as <- <-. apply getitem_Ok in Hsrc, Htgt. simpl.
  apply b2w_map_shape. rewrite !map_map.
  eapply Forall2_lookup_lr in Hshape; [|exact Hsrc|exact Htgt]. exact Hshape.
Qed.

Lemma spans_same_shape (source_spans target_spans : list (list (list nat))) :
  get_span_index source_sentences target_sentences 3 = Ok (source_spans, target_spans) →
  source_spans = target_spans.
Proof using Hshape.
  unfold get_span_index.
  destruct (mapR _ _) as [spans|] eqn:Hspans; [|done]. simpl. intros [= <- <-].
  apply map_fst_snd. revert Hspans. apply mapR_Forall. intros sent_id [a b] _ H.
  destruct (getitem source_sentences sent_id) as [src|] eqn:Hsrc; [|done]. simpl in H.
  destruct (getitem target_sentences sent_id) as [tgt|] eqn:Htgt; [|done]. simpl in H.
  injection H as <- <-. apply getitem_Ok in Hsrc, Htgt. simpl.
  eapply Forall2_lookup_lr in Hshape; [|exact Hsrc|exact Htgt]. simpl in Hshape.
  apply (f_equal length) in Hshape. rewrite !length_map in Hshape. by rewrite Hshape.
Qed.

Lemma get_bpe_index_reverse (bpe_map : list (list nat * list nat))
    (src_idx tgt_idx : list (list (list nat))) :
  Forall (λ maps, maps.1 = maps.2) bpe_map →
  get_bpe_index bpe_map src_idx tgt_idx true = get_bpe_index bpe_map src_idx tgt_idx false.
Proof using Type.
  intros Hmaps. unfold get_bpe_index. apply mapR_ext_in. intros sent_id _.
  destruct (getitem bpe_map sent_id) as [maps|] eqn:Hm; [|done]. simpl.
  apply getitem_Ok in Hm. eapply Forall_lookup_1 in Hmaps; [|exact Hm].
  simpl in Hmaps. by rewrite Hmaps.
Qed.

Lemma align_spans_bidirection_nil (batch_size : nat) (w w' : world) (out : list string) :
  align_spans_bidirection self source_sentences target_sentences batch_size w
    = (Ok out, w') →
  out = [].
Proof using Hshape.
  unfold align_spans_bidirection. intros H.
  inv_bind H as words_tokens Hwt. apply lift_Ok in Hwt as [Hwt _].
  inv_bind H as spans Hspans. destruct spans as [source_spans target_spans].
  apply lift_Ok in Hspans as [Hspans _].
  apply spans_same_shape in Hspans as ->.
  inv_bind H as s2t Hs2t. apply lift_Ok in Hs2t as [Hs2t _].
  inv_bind H as t2s Ht2s. apply lift_Ok in Ht2s as [Ht2s _].
  assert (s2t = t2s) as ->.
  { rewrite get_bpe_index_reverse in Ht2s.
    - rewrite zip_diag, !map_map in Hs2t, Ht2s. simpl in Hs2t, Ht2s. congruence.
    - apply Forall_fmap. apply words_tokens_same_shape in Hwt.
      eapply Forall_impl; [exact Hwt|]. by intros [a b]. }
  inv_bind H as aligns Hfold. destruct aligns as [s2t_aligns t2s_aligns].
  assert (s2t_aligns = []) as ->.
  { pose (P := λ acc : list string * list string, acc.1 = []).
    change (P (s2t_aligns, t2s_aligns)).
    eapply (foldW_preserves _ P); [| |exact Hfold]; [|reflexivity].
    clear. intros acc spans_pair_bpe w acc' w' Hin Hacc H. cbv beta in H.
    assert (spans_pair_bpe = t2s) as ->.
    { apply elem_of_cons in Hin as [->|Hin]; [done|].
      by apply list_elem_of_singleton in Hin. }
    clear Hin. rewrite bool_decide_eq_true_2 in H by done.
    inv_bind H. inv_bind H.
    eapply (foldW_preserves _ P); [| |exact H]; [|exact Hacc].
    clear. intros acc batch w acc' w' _ Hacc H. cbv beta in H.
    inv_bind H. inv_bind H.
    eapply (foldW_preserves _ P); [| |exact H]; [|exact Hacc].
    clear. intros acc [in_batch_id sent_id] w acc' w' _ Hacc H. cbv beta in H.
    repeat (let a := fresh "a" in let Ha := fresh "Ha" in
            apply bind_Ok in H as (a & ? & Ha & H); try destruct a as [? ?]).
    apply ret_Ok in H as [-> _]. exact Hacc. }
  apply lift_Ok in H as [H _]. simpl in H. by injection H as <-.
Qed.
End Bidirection.

(** X9.  [align_spans_bidirection] returns no line at all when, word by
    word, the two sentences of every pair have the same number of
    sub-words.  Then the two lists of sub-word spans are equal, the test
    [spans_pair_bpe == t2s_spans_pair_bpe] holds in the first pass as well
    as in the second, every line goes to [t2s_aligns], and the result,
    built over [range(len(s2t_aligns))], is empty. *)
Theorem align_spans_bidirection_same_shape {prov : Provider} {num : Numerics}
    (self : t) (source_sentences target_sentences : list string)
    (batch_size : nat) (w w' : world) (out : list string) :
  Forall2 (λ s t,
      map (λ x, length (tokenize (embed_loader self) x)) (str_split s)
      = map (λ x, length (tokenize (embed_loader self) x)) (str_split t))
    source_sentences target_sentences →
  align_spans_bidirection self source_sentences target_sentences batch_size w
    = (Ok out, w') →
  out = [].
Proof. intros Hshape H. by eapply align_spans_bidirection_nil. Qed.

Lemma align_spans_bidirection_same_shape_witness :
  Forall2 (λ s t,
      map (λ x, length (tokenize (Provider := Reference.provider)
                          (embed_loader Examples.fwd_words) x)) (str_split s)
      = map (λ x, length (tokenize (Provider := Reference.provider)
                            (embed_loader Examples.fwd_words) x)) (str_split t))
    ["the cat"; "a"] ["le chat"; "b"] ∧
  align_spans_bidirection (prov := Reference.provider) (num := Reference.numerics)
    Examples.fwd_words ["the cat"; "a"] ["le chat"; "b"] 1 World.empty
  = (Ok [],
     MkWorld [] [Embed ["the cat"]; Embed ["le chat"]; Embed ["a"]; Embed ["b"];
                 Embed ["the cat"]; Embed ["le chat"]; Embed ["a"]; Embed ["b"]]) ∧
  ([] : list string) = [].
Proof.
  assert (Forall2 (λ s t,
      map (λ x, length (tokenize (Provider := Reference.provider)
                          (embed_loader Examples.fwd_words) x)) (str_split s)
      = map (λ x, length (tokenize (Provider := Reference.provider)
                            (embed_loader Examples.fwd_words) x)) (str_split t))
    ["the cat"; "a"] ["le chat"; "b"]) as Hshape
    by (repeat constructor).
  assert (align_spans_bidirection (prov := Reference.provider) (num := Reference.numerics)
            Examples.fwd_words ["the cat"; "a"] ["le chat"; "b"] 1 World.empty
          = (Ok [],
             MkWorld [] [Embed ["the cat"]; Embed ["le chat"]; Embed ["a"]; Embed ["b"];
                         Embed ["the cat"]; Embed ["le chat"]; Embed ["a"]; Embed ["b"]]))
    as Hrun by (vm_compute; reflexivity).
  split; [exact Hshape|]. split; [exact Hrun|].
  apply (align_spans_bidirection_same_shape (prov := Reference.provider)
           (num := Reference.numerics) Examples.fwd_words
           ["the cat"; "a"] ["le chat"; "b"] 1 World.empty _ [] Hshape Hrun).
Defined.

(** Two words against one are not of one shape, whatever whitespace parts
    the two words: the same aligner on such a pair returns a line. *)
Lemma align_spans_bidirection_two_against_one :
  str_split Examples.two_words = ["a"; "b"] ∧
  align_spans_bidirection (prov := Reference.provider) (num := Reference.numerics)
    Examples.fwd_words [Examples.two_words] ["x"] 1 World.empty
  = (Ok ["0-0"],
     MkWorld [] [Embed [Examples.two_words]; Embed ["x"];
                 Embed [Examples.two_words]; Embed ["x"]]).
Proof. split; vm_compute; reflexivity. Qed.

(** ** The lines of links *)

Lemma mapW_Forall {A B} (f : A → M B) (P : B → Prop) (l : list A) (w w' : world)
    (ys : list B) :
  (∀ x w1 y w2, f x w1 = (Ok y, w2) → P y) →
  mapW f l w = (Ok ys, w') → Forall P ys.
Proof.
  intros Hf H. apply mapW_Forall2 in H.
  induction H as [|x y l ys (w1 & w2 & Hy) _ IH]; constructor; eauto.
Qed.

(** A dictionary whose keys are links, each listed once. *)
Lemma links_update {V} (dflt : V) (f : V → V) (d : dict V) (x y : nat) :
  NoDup (keys d) ∧ Forall (λ k, ∃ p, k = link_of p) (keys d) →
  NoDup (keys (dict_update dflt f d (format_link x y))) ∧
  Forall (λ k, ∃ p, k = link_of p) (keys (dict_update dflt f d (format_link x y))).
Proof.
  intros [Hnd Hall]. split; [by apply NoDup_keys_update|].
  apply Forall_forall. intros k [Hk| ->]%elem_of_keys_update.
  - by eapply Forall_forall in Hall.
  - by exists (x, y).
Qed.

Lemma links_of_keys (ks : list string) :
  Forall (λ k, ∃ p, k = link_of p) ks → ∃ ps, ks = map link_of ps.
Proof.
  induction 1 as [|k ks [p ->] _ [ps ->]]; [by exists []|]. by exists (p :: ps).
Qed.

Lemma str_split_links (ps : list (nat * nat)) :
  str_split (join_space (map link_of ps)) = map link_of ps.
Proof.
  apply str_split_join_space. apply Forall_forall. intros k (p & -> & _)%list_elem_of_fmap.
  apply is_word_format_link.
Qed.

(** What the span modes make of the keys of a dictionary of links. *)
Lemma numeric_line (ks links : list string) :
  NoDup ks → Forall (λ k, ∃ p, k = link_of p) ks →
  sorted_links ks = Ok links →
  ∃ ps, join_space links = join_space (map link_of ps) ∧
        str_split (join_space links) = map link_of ps ∧
        NoDup ps ∧ StronglySorted (λ p q, pair_le p q = true) ps.
Proof.
  intros Hnd Hall H. apply links_of_keys in Hall as [ps ->].
  rewrite sorted_links_format in H. injection H as <-.
  exists (sorted pair_le id ps). split; [done|]. split; [apply str_split_links|]. split.
  - rewrite sorted_perm. by eapply NoDup_fmap_1.
  - apply (sorted_sorted pair_le id pair_le_total pair_le_trans).
Qed.

Lemma string_leb_total (a b : string) : String.leb a b = true ∨ String.leb b a = true.
Proof. apply String.leb_total. Qed.

Lemma string_leb_trans (a b c : string) :
  String.leb a b = true → String.leb b c = true → String.leb a c = true.
Proof.
  intros H1 H2. apply Is_true_true. apply Is_true_true in H1, H2.
  exact (transitivity (R := String.le) H1 H2).
Qed.

(** What [align_sentences] makes of them. *)
Lemma string_line (ks : list string) :
  NoDup ks → Forall (λ k, ∃ p, k = link_of p) ks →
  ∃ ps, join_space (sorted_str ks) = join_space (map link_of ps) ∧
        str_split (join_space (sorted_str ks)) = map link_of ps ∧
        NoDup ps ∧
        StronglySorted (λ p q, String.leb (link_of p) (link_of q) = true) ps.
Proof.
  intros Hnd Hall. apply links_of_keys in Hall as [ps ->].
  unfold sorted_str. rewrite (sorted_map String.leb id link_of ps).
  exists (sorted String.leb (λ p, id (link_of p)) ps).
  split; [done|]. split; [apply str_split_links|]. split.
  - rewrite sorted_perm. by eapply NoDup_fmap_1.
  - apply (sorted_sorted String.leb (λ p, id (link_of p)) string_leb_total string_leb_trans).
Qed.

Lemma links_filter {V} (f : string * V → Prop) `{∀ x, Decision (f x)} (d : dict V) :
  NoDup (keys d) ∧ Forall (λ k, ∃ p, k = link_of p) (keys d) →
  NoDup (map fst (filter f d)) ∧ Forall (λ k, ∃ p, k = link_of p) (map fst (filter f d)).
Proof.
  unfold keys. intros [Hnd Hall]. induction d as [|[k v] d IH]; [done|].
  simpl in Hnd, Hall.
  apply NoDup_cons in Hnd as [Hk Hnd]. apply Forall_cons in Hall as [Hp Hall].
  destruct (IH Hnd Hall) as [IH1 IH2].
  change (dict V) with (list (string * V)) in *. rewrite filter_cons.
  destruct (decide (f (k, v))); simpl; [|done]. split.
  - apply NoDup_cons. split; [|done].
    intros (kv & -> & [_ Hin]%list_elem_of_filter)%list_elem_of_fmap.
    apply Hk. apply list_elem_of_fmap. by exists kv.
  - by constructor.
Qed.

(** Loops of [result] and their steps, taken apart. *)
Ltac inv_result H :=
  repeat (simpl in H;
    match type of H with
    | rbind ?m _ = Ok _ =>
        let E := fresh "E" in destruct m eqn:E; [|discriminate H]
    | (if ?b then _ else _) = Ok _ => destruct b eqn:?
    end).

Section LinkLines.
Context {prov : Provider} {num : Numerics}.

Lemma gather_span_scores_links (n0 n1 : nat) (alignment_matrix : ndarray)
    (row column : list (list nat)) (sim_at : nat → nat → M float)
    (w w' : world) (d : dict (list float)) :
  gather_span_scores n0 n1 alignment_matrix row column format_link sim_at w = (Ok d, w') →
  NoDup (keys d) ∧ Forall (λ k, ∃ p, k = link_of p) (keys d).
Proof using Type.
  unfold gather_span_scores. intros H.
  pose (P := λ d : dict (list float),
          NoDup (keys d) ∧ Forall (λ k, ∃ p, k = link_of p) (keys d)).
  change (P d).
  eapply (foldW_preserves _ P); [| |exact H]; [|split; constructor].
  clear. intros acc i w acc' w' _ Hacc H. cbv beta in H.
  eapply (foldW_preserves _ P); [| |exact H]; [|exact Hacc].
  clear. intros acc j w acc' w' _ Hacc H. cbv beta in H.
  inv_bind H. destruct (Float.gtb _ _); [|by apply ret_Ok in H as [-> _]].
  inv_bind H.
  eapply (foldW_preserves _ P); [| |exact H]; [|exact Hacc].
  clear. intros acc x w acc' w' _ Hacc H. cbv beta in H.
  inv_bind H.
  eapply (foldW_preserves _ P); [| |exact H]; [|exact Hacc].
  clear. intros acc y w acc' w' _ Hacc H. cbv beta in H.
  inv_bind H. apply ret_Ok in H as [-> _]. by apply links_update.
Qed.

Lemma get_alignments_freq_links (al_matrix : ndarray)
    (src_spans tgt_spans : list (list nat)) (d : dict float) :
  get_alignments_freq al_matrix src_spans tgt_spans = Ok d →
  NoDup (keys d) ∧ Forall (λ k, ∃ p, k = link_of p) (keys d).
Proof using Type.
  unfold get_alignments_freq. intros H.
  pose (P := λ d : dict float,
          NoDup (keys d) ∧ Forall (λ k, ∃ p, k = link_of p) (keys d)).
  change (P d).
  eapply (foldR_preserves _ P); [| |exact H]; [|split; constructor].
  clear. intros acc i acc' Hacc H. cbv beta in H.
  eapply (foldR_preserves _ P); [| |exact H]; [|exact Hacc].
  clear. intros acc j acc' Hacc H. cbv beta in H.
  destruct (Np.getcell _ _ _); [|done]. simpl in H.
  destruct (Float.gtb _ _); [|by injection H as <-].
  destruct (getitem src_spans i) as [src_span|]; [|done]. simpl in H.
  eapply (foldR_preserves _ P); [| |exact H]; [|exact Hacc].
  clear. intros acc src_id acc' Hacc H. cbv beta in H.
  destruct (getitem tgt_spans j) as [tgt_span|]; [|done]. simpl in H.
  eapply (foldR_preserves _ P); [| |exact H]; [|exact Hacc].
  clear. intros acc tgt_id acc' Hacc H. cbv beta in H.
  destruct (getitem src_span src_id) as [x|]; [|done]. simpl in H.
  destruct (getitem tgt_span tgt_id) as [y|]; [|done]. simpl in H.
  injection H as <-. by apply links_update.
Qed.

Variables (self : t) (source_sentences target_sentences : list string).
Variables (batch_size : nat) (w w' : world) (out : list string).

Lemma align_spans_iter_sorted :
  align_spans_iter self source_sentences target_sentences batch_size w = (Ok out, w') →
  Forall (λ line, ∃ ps, line = join_space (map link_of ps) ∧
                        str_split line = map link_of ps ∧
                        NoDup ps ∧ StronglySorted (λ p q, pair_le p q = true) ps) out.
Proof using Type.
  unfold align_spans_iter. intros H.
  inv_bind H. inv_bind H as spans Hspans. destruct spans as [source_spans target_spans].
  inv_bind H. inv_bind H. inv_bind H. inv_bind H as aligns Hmap.
  apply ret_Ok in H as [-> _]. apply Forall_concat.
  eapply mapW_Forall; [|exact Hmap].
  clear. intros batch w1 lines w2 H. cbv beta in H.
  inv_bind H. inv_bind H. eapply mapW_Forall; [|exact H].
  clear. intros [in_batch_id sent_id] w1 line w2 H. cbv beta in H.
  do 9 inv_bind H. inv_bind H as span_scores Hscores.
  inv_bind H as links Hlinks. apply lift_Ok in Hlinks as [Hlinks _].
  apply ret_Ok in H as [-> _].
  apply gather_span_scores_links in Hscores as [Hnd Hall].
  by eapply numeric_line.
Qed.

Lemma align_spans_freq_sorted :
  align_spans_freq self source_sentences target_sentences batch_size w = (Ok out, w') →
  Forall (λ line, ∃ ps, line = join_space (map link_of ps) ∧
                        str_split line = map link_of ps ∧
                        NoDup ps ∧ StronglySorted (λ p q, pair_le p q = true) ps) out.
Proof using Type.
  unfold align_spans_freq. intros H.
  inv_bind H. inv_bind H as spans Hspans. destruct spans as [source_spans target_spans].
  inv_bind H. inv_bind H. inv_bind H. inv_bind H as aligns Hmap.
  apply ret_Ok in H as [-> _]. apply Forall_concat.
  eapply mapW_Forall; [|exact Hmap].
  clear. intros batch w1 lines w2 H. cbv beta in H.
  inv_bind H. inv_bind H. eapply mapW_Forall; [|exact H].
  clear. intros [in_batch_id sent_id] w1 line w2 H. cbv beta in H.
  do 8 inv_bind H. inv_bind H as mats Hmats. destruct mats as [forward reverse].
  do 2 inv_bind H. inv_bind H as span_scores Hscores.
  apply lift_Ok in Hscores as [Hscores _].
  inv_bind H as links Hlinks. apply lift_Ok in Hlinks as [Hlinks _].
  apply ret_Ok in H as [-> _].
  apply get_alignments_freq_links in Hscores.
  apply (links_filter (λ pv, Float.geb pv.2 Float.one = true)) in Hscores as [Hnd Hall].
  by eapply numeric_line.
Qed.

Lemma align_sentences_sorted :
  align_sentences self source_sentences target_sentences batch_size w = (Ok out, w') →
  Forall (λ line, ∃ ps, line = join_space (map link_of ps) ∧
                        str_split line = map link_of ps ∧
                        NoDup ps ∧
                        StronglySorted (λ p q, String.leb (link_of p) (link_of q) = true) ps)
         out.
Proof using Type.
  unfold align_sentences. intros H.
  inv_bind H. inv_bind H. inv_bind H. inv_bind H as aligns Hmap.
  apply ret_Ok in H as [-> _]. apply Forall_concat.
  eapply mapW_Forall; [|exact Hmap].
  clear. intros batch w1 lines w2 H. cbv beta in H.
  inv_bind H. inv_bind H. inv_bind H as vs Hvs. destruct vs as [[? ?] ?].
  eapply mapW_Forall; [|exact H].
  clear. intros [in_batch_id sent_id] w1 line w2 H. cbv beta in H.
  do 3 inv_bind H. inv_bind H as vs Hvs. destruct vs as [vectors sim].
  inv_bind H as mats Hmats. destruct mats as [fwd rev].
  do 2 inv_bind H. inv_bind H as acc Hacc. apply lift_Ok in Hacc as [Hacc _].
  assert ((NoDup (keys (raw_scores acc)) ∧
           Forall (λ k, ∃ p, k = link_of p) (keys (raw_scores acc))) ∧
          (NoDup (keys (b2w_scores acc)) ∧
           Forall (λ k, ∃ p, k = link_of p) (keys (b2w_scores acc)))) as [Hraw Hb2w].
  { pose (P := λ acc : links,
            (NoDup (keys (raw_scores acc)) ∧
             Forall (λ k, ∃ p, k = link_of p) (keys (raw_scores acc))) ∧
            (NoDup (keys (b2w_scores acc)) ∧
             Forall (λ k, ∃ p, k = link_of p) (keys (b2w_scores acc)))).
    change (P acc).
    eapply (foldR_preserves _ P); [| |exact Hacc]; [|repeat split; constructor].
    clear. intros acc i acc' Hacc H. cbv beta in H.
    eapply (foldR_preserves _ P); [| |exact H]; [|exact Hacc].
    clear. intros acc j acc' [Hraw Hb2w] H. cbv beta in H.
    inv_result H; injection H as <-; split; simpl;
      try done; by apply links_update. }
  destruct (String.eqb (token_type self) "word");
    apply ret_Ok in H as [-> _]; apply string_line; tauto.
Qed.
End LinkLines.

(** X10.  Every line that [align_spans_iter] or [align_spans_freq] returns
    is a list of links of distinct index pairs, joined by single spaces, in
    the order of the integer pairs; splitting the line gives the links
    back. *)
Theorem span_modes_lines_numeric {prov : Provider} {num : Numerics} (self : t)
    (source_sentences target_sentences : list string) (batch_size : nat)
    (w w' : world) (out : list string) :
  align_spans_iter self source_sentences target_sentences batch_size w = (Ok out, w') ∨
  align_spans_freq self source_sentences target_sentences batch_size w = (Ok out, w') →
  Forall (λ line, ∃ ps, line = join_space (map link_of ps) ∧
                        str_split line = map link_of ps ∧
                        NoDup ps ∧ StronglySorted (λ p q, pair_le p q = true) ps) out.
Proof.
  intros [H|H].
  - by eapply align_spans_iter_sorted.
  - by eapply align_spans_freq_sorted.
Qed.

Lemma span_modes_lines_numeric_witness :
  align_spans_freq (prov := Reference.provider) (num := Reference.numerics)
    Examples.fwd_words ["the cat sat"; "a"] ["le chat"; "b"] 1 World.empty
  = (Ok ["0-0 1-0"; "0-0"],
     MkWorld [] [Embed ["the cat sat"]; Embed ["le chat"]; Embed ["a"]; Embed ["b"]]) ∧
  Forall (λ line, ∃ ps, line = join_space (map link_of ps) ∧
                        str_split line = map link_of ps ∧
                        NoDup ps ∧ StronglySorted (λ p q, pair_le p q = true) ps)
         ["0-0 1-0"; "0-0"].
Proof.
  assert (align_spans_freq (prov := Reference.provider) (num := Reference.numerics)
            Examples.fwd_words ["the cat sat"; "a"] ["le chat"; "b"] 1 World.empty
          = (Ok ["0-0 1-0"; "0-0"],
             MkWorld [] [Embed ["the cat sat"]; Embed ["le chat"];
                         Embed ["a"]; Embed ["b"]])) as Hrun
    by (vm_compute; reflexivity).
  split; [exact Hrun|].
  apply (span_modes_lines_numeric (prov := Reference.provider)
           (num := Reference.numerics) Examples.fwd_words
           ["the cat sat"; "a"] ["le chat"; "b"] 1 World.empty _ _ (or_intror Hrun)).
Defined.

(** X11.  Every line that [align_sentences] returns is a list of links of
    distinct index pairs, joined by single spaces, in the order of the
    links as strings; splitting the line gives the links back. *)
Theorem align_sentences_lines_sorted {prov : Provider} {num : Numerics} (self : t)
    (source_sentences target_sentences : list string) (batch_size : nat)
    (w w' : world) (out : list string) :
  align_sentences self source_sentences target_sentences batch_size w = (Ok out, w') →
  Forall (λ line, ∃ ps, line = join_space (map link_of ps) ∧
                        str_split line = map link_of ps ∧
                        NoDup ps ∧
                        StronglySorted (λ p q, String.leb (link_of p) (link_of q) = true) ps)
         out.
Proof. apply align_sentences_sorted. Qed.

Lemma align_sentences_lines_sorted_witness :
  align_sentences (prov := Reference.provider) (num := Reference.numerics)
    Examples.fwd_words ["a b c d e f g h i j k"] ["x"] 100 World.empty
  = (Ok ["0-0 1-0 10-0 2-0 3-0 4-0 5-0 6-0 7-0 8-0 9-0"],
     MkWorld [] [Embed ["a b c d e f g h i j k"]; Embed ["x"]]) ∧
  Forall (λ line, ∃ ps, line = join_space (map link_of ps) ∧
                        str_split line = map link_of ps ∧
                        NoDup ps ∧
                        StronglySorted (λ p q, String.leb (link_of p) (link_of q) = true) ps)
         ["0-0 1-0 10-0 2-0 3-0 4-0 5-0 6-0 7-0 8-0 9-0"].
Proof.
  assert (align_sentences (prov := Reference.provider) (num := Reference.numerics)
            Examples.fwd_words ["a b c d e f g h i j k"] ["x"] 100 World.empty
          = (Ok ["0-0 1-0 10-0 2-0 3-0 4-0 5-0 6-0 7-0 8-0 9-0"],
             MkWorld [] [Embed ["a b c d e f g h i j k"]; Embed ["x"]])) as Hrun
    by (vm_compute; reflexivity).
  split; [exact Hrun|].
  apply (align_sentences_lines_sorted (prov := Reference.provider)
           (num := Reference.numerics) Examples.fwd_words
           ["a b c d e f g h i j k"] ["x"] 100 World.empty _ _ Hrun).
Defined.

(** ** What the alignment methods do to the world *)

Lemma effect_free_ret {A} (a : A) : effect_free (ret a).
Proof. intros w v w' H. by apply ret_Ok in H as [_ ->]. Qed.

Lemma effect_free_lift {A} (r : result A) : effect_free (lift r).
Proof. intros w v w' H. by apply lift_Ok in H as [_ ->]. Qed.

Lemma effect_free_bind {A B} (m : M A) (k : A → M B) :
  effect_free m → (∀ a, effect_free (k a)) → effect_free (bind m k).
Proof.
  intros Hm Hk w v w' H. apply bind_Ok in H as (a & w1 & Ha & H).
  apply Hm in Ha as ->. by eapply Hk.
Qed.

Lemma effect_free_mapW {A B} (f : A → M B) (l : list A) :
  (∀ x, effect_free (f x)) → effect_free (mapW f l).
Proof.
  intros Hf. induction l as [|x l IH]; simpl; [apply effect_free_ret|].
  apply effect_free_bind; [done|]. intros y.
  apply effect_free_bind; [done|]. intros ys. apply effect_free_ret.
Qed.

Lemma effect_free_foldW {A S} (body : S → A → M S) (l : list A) (acc : S) :
  (∀ acc x, effect_free (body acc x)) → effect_free (foldW body l acc).
Proof.
  intros Hf. revert acc. induction l as [|x l IH]; intros acc; simpl;
    [apply effect_free_ret|].
  apply effect_free_bind; [done|]. intros y. apply IH.
Qed.

Ltac solve_effect_free :=
  repeat first
    [ apply effect_free_ret
    | apply effect_free_lift
    | apply effect_free_bind; [|intros ?]
    | apply effect_free_mapW; intros ?
    | apply effect_free_foldW; intros ? ?
    | match goal with
      | |- effect_free (if ?b then _ else _) => destruct b
      | |- effect_free (match ?p with (_, _) => _ end) => destruct p
      | |- effect_free (let '(_, _) := ?p in _) => destruct p
      end ].

(** A loop over the batches whose body embeds the two sides of the batch
    and does nothing else to the world. *)
Lemma mapW_batches {B} (F : list (nat * string * string) → M B)
    (data_loader : list (list (nat * string * string))) (w w' : world) (ys : list B) :
  (∀ batch w1 y w2, F batch w1 = (Ok y, w2) →
     w2 = MkWorld (heap w1)
            (trace w1 ++ [Embed (map (λ d, d.1.2) batch); Embed (map (λ d, d.2) batch)])) →
  mapW F data_loader w = (Ok ys, w') →
  w' = MkWorld (heap w) (trace w ++ embed_events data_loader).
Proof.
  intros HF. revert w ys. induction data_loader as [|batch dl IH]; intros w ys H; simpl in H.
  - apply ret_Ok in H as [_ ->]. unfold embed_events. simpl. rewrite app_nil_r. by destruct w.
  - apply bind_Ok in H as (y & w1 & Hy & H). apply bind_Ok in H as (ys' & w2 & Hys & H).
    apply ret_Ok in H as [_ ->]. apply HF in Hy as ->. apply IH in Hys as ->.
    simpl. unfold embed_events. simpl. by rewrite <- app_assoc.
Qed.

Section Effects.
Context {prov : Provider} {num : Numerics}.

Lemma get_embed_list_world (loader : EmbeddingLoader) (sent_batch : list string)
    (w w' : world) (v : tensor) :
  get_embed_list loader sent_batch w = (Ok v, w') →
  w' = MkWorld (heap w) (trace w ++ [Embed sent_batch]).
Proof using Type.
  unfold get_embed_list. intros H. apply bind_Ok in H as (u & w1 & Hu & H).
  apply lift_Ok in H as [_ ->]. unfold emit in Hu. by injection Hu as _ <-.
Qed.

Variables (self : t) (source_sentences target_sentences : list string).
Variables (batch_size : nat) (w w' : world) (out : list string).

Lemma align_sentences_world :
  align_sentences self source_sentences target_sentences batch_size w = (Ok out, w') →
  ∃ ds data_loader,
    dataset source_sentences target_sentences = Ok ds ∧
    DataLoader ds batch_size = Ok data_loader ∧
    w' = MkWorld (heap w) (trace w ++ embed_events data_loader).
Proof using Type.
  unfold align_sentences. intros H.
  inv_bind H as wt Hwt. apply lift_Ok in Hwt as [_ ->].
  inv_bind H as ds Hds. apply lift_Ok in Hds as [Hds ->].
  inv_bind H as data_loader Hdl. apply lift_Ok in Hdl as [Hdl ->].
  inv_bind H as aligns Hmap. apply ret_Ok in H as [_ ->].
  exists ds, data_loader. split; [done|]. split; [done|].
  eapply mapW_batches; [|exact Hmap].
  clear. intros batch w1 lines w2 H. cbv beta in H.
  inv_bind H as v1 H1. apply get_embed_list_world in H1 as ->.
  inv_bind H as v2 H2. apply get_embed_list_world in H2 as ->.
  cbn [heap trace] in H. rewrite <- app_assoc in H. cbn [app] in H.
  match type of H with
  | ?m (MkWorld _ _) = _ => assert (effect_free m) as Hfree by solve_effect_free
  end.
  by apply Hfree in H.
Qed.

Lemma align_spans_freq_world :
  align_spans_freq self source_sentences target_sentences batch_size w = (Ok out, w') →
  ∃ ds data_loader,
    dataset source_sentences target_sentences = Ok ds ∧
    DataLoader ds batch_size = Ok data_loader ∧
    w' = MkWorld (heap w) (trace w ++ embed_events data_loader).
Proof using Type.
  unfold align_spans_freq. intros H.
  inv_bind H as wt Hwt. apply lift_Ok in Hwt as [_ ->].
  inv_bind H as spans Hspans. apply lift_Ok in Hspans as [_ ->].
  destruct spans as [source_spans target_spans].
  inv_bind H as bpe Hbpe. apply lift_Ok in Hbpe as [_ ->].
  inv_bind H as ds Hds. apply lift_Ok in Hds as [Hds ->].
  inv_bind H as data_loader Hdl. apply lift_Ok in Hdl as [Hdl ->].
  inv_bind H as aligns Hmap. apply ret_Ok in H as [_ ->].
  exists ds, data_loader. split; [done|]. split; [done|].
  eapply mapW_batches; [|exact Hmap].
  clear. intros batch w1 lines w2 H. cbv beta in H.
  inv_bind H as v1 H1. apply get_embed_list_world in H1 as ->.
  inv_bind H as v2 H2. apply get_embed_list_world in H2 as ->.
  cbn [heap trace] in H. rewrite <- app_assoc in H. cbn [app] in H.
  match type of H with
  | ?m (MkWorld _ _) = _ => assert (effect_free m) as Hfree by solve_effect_free
  end.
  by apply Hfree in H.
Qed.

Lemma foldW_batches {S} (F : S → list (nat * string * string) → M S)
    (data_loader : list (list (nat * string * string))) (w0 w1 : world) (acc acc' : S) :
  (∀ acc batch w1 y w2, F acc batch w1 = (Ok y, w2) →
     w2 = MkWorld (heap w1)
            (trace w1 ++ [Embed (map (λ d, d.1.2) batch); Embed (map (λ d, d.2) batch)])) →
  foldW F data_loader acc w0 = (Ok acc', w1) →
  w1 = MkWorld (heap w0) (trace w0 ++ embed_events data_loader).
Proof using Type.
  intros HF. revert w0 acc. induction data_loader as [|batch dl IH]; intros w0 acc H;
    simpl in H.
  - apply ret_Ok in H as [_ ->]. unfold embed_events. simpl. rewrite app_nil_r.
    by destruct w0.
  - apply bind_Ok in H as (y & w2 & Hy & H). apply HF in Hy as ->. apply IH in H as ->.
    simpl. unfold embed_events. simpl. by rewrite <- app_assoc.
Qed.

Lemma align_spans_bidirection_world :
  align_spans_bidirection self source_sentences target_sentences batch_size w
    = (Ok out, w') →
  ∃ ds data_loader,
    dataset source_sentences target_sentences = Ok ds ∧
    DataLoader ds batch_size = Ok data_loader ∧
    w' = MkWorld (heap w)
           (trace w ++ embed_events data_loader ++ embed_events data_loader).
Proof using Type.
  unfold align_spans_bidirection. intros H.
  inv_bind H as wt Hwt. apply lift_Ok in Hwt as [_ ->].
  inv_bind H as spans Hspans. apply lift_Ok in Hspans as [_ ->].
  destruct spans as [source_spans target_spans].
  inv_bind H as s2t Hs2t. apply lift_Ok in Hs2t as [_ ->].
  inv_bind H as t2s Ht2s. apply lift_Ok in Ht2s as [_ ->].
  inv_bind H as aligns Hfold. destruct aligns as [s2t_aligns t2s_aligns].
  apply lift_Ok in H as [_ ->].
  simpl in Hfold.
  inv_bind Hfold as acc1 Hfirst. inv_bind Hfold as acc2 Hsecond.
  apply ret_Ok in Hfold as [_ ->].
  inv_bind Hfirst as ds Hds. apply lift_Ok in Hds as [Hds ->].
  inv_bind Hfirst as data_loader Hdl. apply lift_Ok in Hdl as [Hdl ->].
  inv_bind Hsecond as ds' Hds'. apply lift_Ok in Hds' as [Hds' ->].
  inv_bind Hsecond as data_loader' Hdl'. apply lift_Ok in Hdl' as [Hdl' ->].
  assert (ds' = ds) as -> by congruence.
  assert (data_loader' = data_loader) as -> by congruence.
  exists ds, data_loader. split; [done|]. split; [done|].
  apply foldW_batches in Hfirst as ->.
  - apply foldW_batches in Hsecond as ->.
    + simpl. by rewrite <- app_assoc.
    + clear. intros acc batch w1 lines w2 H. cbv beta in H.
      inv_bind H as v1 H1. apply get_embed_list_world in H1 as ->.
      inv_bind H as v2 H2. apply get_embed_list_world in H2 as ->.
      cbn [heap trace] in H. rewrite <- app_assoc in H. cbn [app] in H.
      match type of H with
      | ?m (MkWorld _ _) = _ => assert (effect_free m) as Hfree by solve_effect_free
      end.
      by apply Hfree in H.
  - clear. intros acc batch w1 lines w2 H. cbv beta in H.
    inv_bind H as v1 H1. apply get_embed_list_world in H1 as ->.
    inv_bind H as v2 H2. apply get_embed_list_world in H2 as ->.
    cbn [heap trace] in H. rewrite <- app_assoc in H. cbn [app] in H.
    match type of H with
    | ?m (MkWorld _ _) = _ => assert (effect_free m) as Hfree by solve_effect_free
    end.
    by apply Hfree in H.
Qed.
End Effects.

Lemma dataset_contents (source_sentences target_sentences : list string)
    (ds : list (nat * string * string)) :
  dataset source_sentences target_sentences = Ok ds →
  map (λ d, d.1.2) ds = source_sentences ∧
  map (λ d, d.2) ds = take (length source_sentences) target_sentences.
Proof.
  unfold dataset. intros H.
  pose proof (mapR_length _ _ _ H) as Hlen. unfold range in Hlen.
  rewrite length_seq, Nat.sub_0_r in Hlen.
  assert (∀ i d, ds !! i = Some d →
            source_sentences !! i = Some d.1.2 ∧ target_sentences !! i = Some d.2) as Hd.
  { intros i d Hi. destruct (mapR_lookup _ _ _ _ _ H Hi) as (x & Hx & Hf).
    unfold range in Hx. apply lookup_seq in Hx as [-> _]. simpl in Hf.
    destruct (getitem source_sentences i) as [src|] eqn:Hs; [|done]. simpl in Hf.
    destruct (getitem target_sentences i) as [tgt|] eqn:Ht; [|done]. simpl in Hf.
    injection Hf as <-. apply getitem_Ok in Hs, Ht. done. }
  split; apply list_eq; intros i; rewrite list_lookup_fmap.
  - destruct (ds !! i) as [d|] eqn:Hi; simpl.
    + by destruct (Hd i d Hi) as [-> _].
    + apply lookup_ge_None in Hi. symmetry. apply lookup_ge_None. lia.
  - destruct (ds !! i) as [d|] eqn:Hi; simpl.
    + destruct (Hd i d Hi) as [_ Ht]. apply lookup_lt_Some in Hi.
      rewrite lookup_take_lt by lia. done.
    + apply lookup_ge_None in Hi. symmetry. apply lookup_ge_None.
      rewrite length_take. lia.
Qed.

(** X12.  What the alignment methods ask of the embedding model.  When
    [align_sentences] or [align_spans_freq] returns, it has changed no array
    and has called [get_embed_list] on the source side and then on the
    target side of each batch in turn, and nothing else; the batches are
    those of the data loader, which hold every source sentence once, in
    order, each with the target sentence of its index.
    [align_spans_bidirection] does the same twice over. *)
Theorem alignment_methods_embed_batches {prov : Provider} {num : Numerics} (self : t)
    (source_sentences target_sentences : list string) (batch_size : nat)
    (w w' : world) (out : list string) :
  (align_sentences self source_sentences target_sentences batch_size w = (Ok out, w') ∨
   align_spans_freq self source_sentences target_sentences batch_size w = (Ok out, w') →
   ∃ data_loader,
     map (λ d, d.1.2) (concat data_loader) = source_sentences ∧
     map (λ d, d.2) (concat data_loader)
       = take (length source_sentences) target_sentences ∧
     Forall (λ batch, 0 < length batch ≤ batch_size) data_loader ∧
     w' = MkWorld (heap w) (trace w ++ embed_events data_loader)) ∧
  (align_spans_bidirection self source_sentences target_sentences batch_size w
     = (Ok out, w') →
   ∃ data_loader,
     map (λ d, d.1.2) (concat data_loader) = source_sentences ∧
     map (λ d, d.2) (concat data_loader)
       = take (length source_sentences) target_sentences ∧
     Forall (λ batch, 0 < length batch ≤ batch_size) data_loader ∧
     w' = MkWorld (heap w)
            (trace w ++ embed_events data_loader ++ embed_events data_loader)).
Proof.
  assert (∀ ds data_loader,
            dataset source_sentences target_sentences = Ok ds →
            DataLoader ds batch_size = Ok data_loader →
            map (λ d, d.1.2) (concat data_loader) = source_sentences ∧
            map (λ d, d.2) (concat data_loader)
              = take (length source_sentences) target_sentences ∧
            Forall (λ batch, 0 < length batch ≤ batch_size) data_loader) as Hdl.
  { intros ds data_loader Hds Hdl.
    rewrite (DataLoader_concat _ _ _ Hdl).
    destruct (dataset_contents _ _ _ Hds) as [-> ->]. split; [done|]. split; [done|].
    destruct batch_size as [|n]; [done|].
    destruct (proj2 (DataLoader_batches ds (S n))) as (dl & Hdl' & _ & Hsz & _); [lia|].
    congruence. }
  split.
  - intros [H|H].
    + apply align_sentences_world in H as (ds & dl & Hds & Hl & ->).
      exists dl. destruct (Hdl ds dl Hds Hl) as (? & ? & ?). done.
    + apply align_spans_freq_world in H as (ds & dl & Hds & Hl & ->).
      exists dl. destruct (Hdl ds dl Hds Hl) as (? & ? & ?). done.
  - intros H. apply align_spans_bidirection_world in H as (ds & dl & Hds & Hl & ->).
    exists dl. destruct (Hdl ds dl Hds Hl) as (? & ? & ?). done.
Qed.

Lemma alignment_methods_embed_batches_witness :
  align_sentences (prov := Reference.provider) (num := Reference.numerics)
    Examples.fwd_words ["the cat sat"; "a dog"; "x"] ["le chat assis"; "un chien"; "y"] 2
    World.empty
  = (Ok ["0-0 1-0 2-0"; "0-0 1-0"; "0-0"],
     MkWorld [] [Embed ["the cat sat"; "a dog"]; Embed ["le chat assis"; "un chien"];
                 Embed ["x"]; Embed ["y"]]) ∧
  ∃ data_loader,
     map (λ d, d.1.2) (concat data_loader) = ["the cat sat"; "a dog"; "x"] ∧
     map (λ d, d.2) (concat data_loader)
       = take 3 ["le chat assis"; "un chien"; "y"] ∧
     Forall (λ batch, 0 < length batch ≤ 2) data_loader ∧
     MkWorld [] [Embed ["the cat sat"; "a dog"]; Embed ["le chat assis"; "un chien"];
                 Embed ["x"]; Embed ["y"]]
     = MkWorld (heap World.empty) (trace World.empty ++ embed_events data_loader).
Proof.
  assert (align_sentences (prov := Reference.provider) (num := Reference.numerics)
            Examples.fwd_words ["the cat sat"; "a dog"; "x"]
            ["le chat assis"; "un chien"; "y"] 2 World.empty
          = (Ok ["0-0 1-0 2-0"; "0-0 1-0"; "0-0"],
             MkWorld [] [Embed ["the cat sat"; "a dog"];
                         Embed ["le chat assis"; "un chien"];
                         Embed ["x"]; Embed ["y"]])) as Hrun
    by (vm_compute; reflexivity).
  split; [exact Hrun|].
  apply (proj1 (alignment_methods_embed_batches (prov := Reference.provider)
                  (num := Reference.numerics) Examples.fwd_words
                  ["the cat sat"; "a dog"; "x"] ["le chat assis"; "un chien"; "y"] 2
                  World.empty _ _) (or_introl Hrun)).
Defined.

(** ** Word spans and their sub-word spans *)

Lemma b2w_map_lookup (words : list (list string)) (k i : nat) :
  b2w_map words !! k = Some i ↔
  ∃ w, words !! i = Some w ∧
       length (concat (take i words)) ≤ k < length (concat (take i words)) + length w.
Proof.
  unfold b2w_map, enumerate. rewrite b2w_map_from, lookup_b2w_from, Nat.sub_0_r.
  split; intros (w & H); exists w; [by destruct H as (_ & ? & ?)|].
  split; [lia|done].
Qed.

Lemma length_b2w_map (words : list (list string)) :
  length (b2w_map words) = length (concat words).
Proof.
  unfold b2w_map, enumerate. rewrite b2w_map_from. generalize 0 as c.
  induction words as [|w words IH]; intros c; simpl; [done|].
  by rewrite !length_app, length_replicate, IH.
Qed.

Lemma length_concat_take_le (words : list (list string)) (i j : nat) :
  i ≤ j → length (concat (take i words)) ≤ length (concat (take j words)).
Proof.
  revert i j. induction words as [|w words IH]; intros i j Hij.
  - by rewrite !take_nil.
  - destruct i as [|i]; [simpl; lia|]. destruct j as [|j]; [lia|].
    simpl. rewrite !length_app. specialize (IH i j). lia.
Qed.

Lemma length_concat_take_S (words : list (list string)) (i : nat) (w : list string) :
  words !! i = Some w →
  length (concat (take (S i) words)) = length (concat (take i words)) + length w.
Proof.
  intros Hw. rewrite (take_S_r _ _ _ Hw), concat_app, length_app. simpl.
  rewrite app_nil_r. done.
Qed.

Lemma length_concat_take_add (words : list (list string)) (a d : nat) :
  length (concat (take a words)) + length (concat (take d (drop a words)))
  = length (concat (take (a + d) words)).
Proof.
  revert a. induction words as [|w words IH]; intros a.
  - by rewrite drop_nil, !take_nil.
  - destruct a as [|a]; [done|]. simpl. rewrite !length_app, <- IH. lia.
Qed.

(** [b2w.index(i)]: where the sub-words of word [i] begin. *)
Lemma index_of_b2w_map (words : list (list string)) (i : nat) (w : list string) :
  words !! i = Some w → w ≠ [] →
  index_of i (b2w_map words) = Ok (length (concat (take i words))).
Proof.
  intros Hw Hne. unfold index_of.
  assert (list_find (λ y, y = i) (b2w_map words)
          = Some (length (concat (take i words)), i)) as ->; [|done].
  apply list_find_Some. split; [|split; [done|]].
  - apply b2w_map_lookup. exists w. split; [done|]. destruct w; [done|]. simpl. lia.
  - intros k j Hk Hlt ->. apply b2w_map_lookup in Hk as (w' & Hw' & Hlo & _). lia.
Qed.

Lemma index_of_missing (words : list (list string)) (i : nat) :
  default [] (words !! i) = [] → index_of i (b2w_map words) = Raise ValueError.
Proof.
  intros Hw. unfold index_of.
  assert (list_find (λ y, y = i) (b2w_map words) = None) as ->; [|done].
  apply list_find_None. apply Forall_forall. intros j Hj ->.
  apply list_elem_of_lookup_1 in Hj as [k Hk].
  apply b2w_map_lookup in Hk as (w & Hw' & Hk). rewrite Hw' in Hw. simpl in Hw.
  subst w. simpl in Hk. lia.
Qed.

Lemma elem_of_b2w_map (words : list (list string)) (i : nat) :
  i ∈ b2w_map words ↔ ∃ w, words !! i = Some w ∧ w ≠ [].
Proof.
  rewrite list_elem_of_lookup. split.
  - intros (k & (w & Hw & Hk)%b2w_map_lookup). exists w. split; [done|].
    intros ->. simpl in Hk. lia.
  - intros (w & Hw & Hne). exists (length (concat (take i words))).
    apply b2w_map_lookup. exists w. split; [done|]. destruct w; [done|]. simpl. lia.
Qed.

Lemma take_w2b_map (words : list (list string)) (cnt d : nat) :
  take d (w2b_map words cnt) = w2b_map (take d words) cnt.
Proof.
  revert cnt d. induction words as [|w words IH]; intros cnt [|d]; simpl; try done.
  by rewrite IH.
Qed.

Lemma drop_w2b_map (words : list (list string)) (cnt a : nat) :
  drop a (w2b_map words cnt)
  = w2b_map (drop a words) (cnt + length (concat (take a words))).
Proof.
  revert cnt a. induction words as [|w words IH]; intros cnt [|a]; simpl;
    rewrite ?Nat.add_0_r; try done.
  rewrite IH, length_app. f_equal. lia.
Qed.

Lemma last_seq (a d : nat) : last (seq a (S d)) = Some (a + d).
Proof.
  revert a. induction d as [|d IH]; intros a; [simpl; f_equal; lia|].
  change (seq a (S (S d))) with (a :: seq (S a) (S d)).
  rewrite last_cons, IH. f_equal. lia.
Qed.

Lemma subwords_seq (words : list (list string)) (a d : nat) :
  a + d ≤ length words →
  subwords words (seq a d) = concat (take d (drop a (w2b_map words 0))).
Proof.
  unfold subwords. rewrite <- (length_w2b_map words 0). generalize (w2b_map words 0).
  intros l. revert a. induction d as [|d IH]; intros a H; cbn [seq flat_map].
  - by rewrite take_0.
  - destruct (lookup_lt_is_Some_2 l a) as [x Hx]; [lia|].
    rewrite Hx, (drop_S _ _ _ Hx). simpl. f_equal. apply IH. lia.
Qed.

Lemma bpe_span_seq (words : list (list string)) (a d : nat) :
  0 < d → a + d ≤ length words → Forall (λ w, w ≠ []) words →
  bpe_span (b2w_map words) (seq a d) = Ok (subwords words (seq a d)).
Proof.
  intros Hd Hlen Hne. rewrite subwords_seq by done.
  destruct d as [|d]; [lia|]. unfold bpe_span, getlast.
  rewrite last_seq. cbn [rbind]. change (getitem (seq a (S d)) 0) with (Ok (A := nat) a).
  cbn [rbind].
  assert (∀ i w, words !! i = Some w → w ≠ []) as Hne'.
  { intros i w Hw. eapply Forall_lookup_1 in Hne; [|exact Hw]. done. }
  destruct (lookup_lt_is_Some_2 words a) as [wa Hwa]; [lia|].
  rewrite (index_of_b2w_map words a wa) by eauto.
  rewrite drop_w2b_map, take_w2b_map, concat_w2b_map. cbn [rbind]. rewrite Nat.add_0_l.
  pose proof (length_concat_take_add words a (S d)) as Hsum.
  case_bool_decide as Hin.
  + apply elem_of_b2w_map in Hin as (wl & Hwl & _).
    rewrite (index_of_b2w_map words (a + d + 1) wl) by eauto. cbn [rbind].
    unfold range. do 2 f_equal.
    replace (a + d + 1) with (a + S d) by lia. lia.
  + unfold range. do 2 f_equal. rewrite length_b2w_map.
    assert (length words ≤ a + S d) as Hall.
    { destruct (decide (length words ≤ a + S d)) as [|Hlt]; [done|].
      destruct (lookup_lt_is_Some_2 words (a + d + 1)) as [wl Hwl]; [lia|].
      exfalso. apply Hin. apply elem_of_b2w_map. eauto. }
    rewrite (take_ge words (a + S d)) in Hsum by lia. lia.
Qed.

(** X13.  The sub-word span of a span of words.  When every word of the
    sentence has at least one sub-word, the span that [get_bpe_index] makes
    of the words [a, ..., a + d - 1] is the list of the sub-words of these
    words, as the word-to-sub-word map numbers them.  When the first word
    of the span has no sub-word, the lookup [index] fails with
    [ValueError]. *)
Theorem bpe_span_words (words : list (list string)) (a d : nat) :
  0 < d → a + d ≤ length words →
  (Forall (λ w, w ≠ []) words →
   bpe_span (b2w_map words) (seq a d) = Ok (subwords words (seq a d)) ∧
   subwords words (seq a d) = concat (take d (drop a (w2b_map words 0)))) ∧
  (default [] (words !! a) = [] →
   bpe_span (b2w_map words) (seq a d) = Raise ValueError).
Proof.
  intros Hd Hlen. split.
  - intros Hne. split; [by apply bpe_span_seq | by apply subwords_seq].
  - intros Hempty. destruct d as [|d]; [lia|]. unfold bpe_span, getlast.
    rewrite last_seq. cbn [rbind].
    change (getitem (seq a (S d)) 0) with (Ok (A := nat) a). cbn [rbind].
    rewrite (index_of_missing words a Hempty). by destruct (bool_decide _).
Qed.

Lemma bpe_span_words_witness :
  (0 < 2 ∧ 1 + 2 ≤ length [["the"]; ["al"; "##ign"; "##er"]; ["runs"]]) ∧
  Forall (λ w : list string, w ≠ []) [["the"]; ["al"; "##ign"; "##er"]; ["runs"]] ∧
  bpe_span (b2w_map [["the"]; ["al"; "##ign"; "##er"]; ["runs"]]) (seq 1 2)
  = Ok (subwords [["the"]; ["al"; "##ign"; "##er"]; ["runs"]] (seq 1 2)) ∧
  subwords [["the"]; ["al"; "##ign"; "##er"]; ["runs"]] (seq 1 2) = [1; 2; 3; 4].
Proof.
  assert (0 < 2) as Hd by lia.
  assert (1 + 2 ≤ length [["the"]; ["al"; "##ign"; "##er"]; ["runs"]]) as Hlen
    by (simpl; lia).
  assert (Forall (λ w : list string, w ≠ [])
            [["the"]; ["al"; "##ign"; "##er"]; ["runs"]]) as Hne
    by (repeat constructor; discriminate).
  split; [by split|]. split; [exact Hne|]. split; [|reflexivity].
  apply (proj1 (proj1 (bpe_span_words [["the"]; ["al"; "##ign"; "##er"]; ["runs"]] 1 2
                         Hd Hlen) Hne)).
Defined.

(** The windows of a sentence are spans of consecutive words within it. *)
Lemma windows_spans (L max_len : nat) (span : list nat) :
  span ∈ windows L max_len → ∃ a d, span = seq a d ∧ 0 < d ∧ a + d ≤ L.
Proof.
  unfold windows. intros Hin. apply list_elem_of_In, in_flat_map in Hin as (d & Hd & Hin).
  apply in_map_iff in Hin as (a & <- & Ha). apply in_seq in Hd, Ha.
  exists a, d. split; [done|]. lia.
Qed.

(** X14.  On the spans that [get_span_index] builds, [get_bpe_index] never
    fails when every word has at least one sub-word: paired with the
    sub-word-to-word maps of the sentences, the windows of each sentence
    become the lists of the sub-words of their words. *)
Theorem get_bpe_index_windows
    (words_tokens : list (list (list string) * list (list string))) :
  Forall (λ p, Forall (λ w, w ≠ []) p.1 ∧ Forall (λ w, w ≠ []) p.2) words_tokens →
  get_bpe_index (map (λ p, (b2w_map p.1, b2w_map p.2)) words_tokens)
    (map (λ p, windows (length p.1) 3) words_tokens)
    (map (λ p, windows (length p.2) 3) words_tokens) false
  = Ok (map (λ p, (map (subwords p.1) (windows (length p.1) 3),
                   map (subwords p.2) (windows (length p.2) 3))) words_tokens).
Proof.
  intros Hne. unfold get_bpe_index. rewrite length_map.
  assert (∀ words : list (list string), Forall (λ w, w ≠ []) words →
            mapR (bpe_span (b2w_map words)) (windows (length words) 3)
            = Ok (map (subwords words) (windows (length words) 3))) as Hside.
  { intros words Hw. apply mapR_ext_Ok. intros span Hspan.
    apply windows_spans in Hspan as (a & d & -> & Hd & Ha). by apply bpe_span_seq. }
  rewrite <- (map_lookup_seq
                (λ p : list (list string) * list (list string),
                   (map (subwords p.1) (windows (length p.1) 3),
                    map (subwords p.2) (windows (length p.2) 3))) ([], []) words_tokens).
  replace (seq 0 (length words_tokens)) with (range 0 (length words_tokens))
    by (unfold range; by rewrite Nat.sub_0_r).
  apply mapR_ext_Ok. intros sent_id Hid. apply elem_of_range in Hid.
  destruct (lookup_lt_is_Some_2 words_tokens sent_id) as [[l1 l2] Hp]; [lia|].
  rewrite Hp. unfold getitem. rewrite !list_lookup_fmap, Hp. simpl.
  eapply Forall_lookup_1 in Hne as [H1 H2]; [|exact Hp]. simpl in *.
  by rewrite (Hside l1 H1), (Hside l2 H2).
Qed.

Lemma get_bpe_index_windows_witness :
  Forall (λ p : list (list string) * list (list string),
            Forall (λ w, w ≠ []) p.1 ∧ Forall (λ w, w ≠ []) p.2)
         [([["al"; "##ign"]; ["it"]], [["x"]])] ∧
  get_bpe_index (map (λ p, (b2w_map p.1, b2w_map p.2)) [([["al"; "##ign"]; ["it"]], [["x"]])])
    (map (λ p, windows (length p.1) 3) [([["al"; "##ign"]; ["it"]], [["x"]])])
    (map (λ p, windows (length p.2) 3) [([["al"; "##ign"]; ["it"]], [["x"]])]) false
  = Ok [([[0; 1]; [2]; [0; 1; 2]], [[0]])].
Proof.
  assert (Forall (λ p : list (list string) * list (list string),
            Forall (λ w, w ≠ []) p.1 ∧ Forall (λ w, w ≠ []) p.2)
         [([["al"; "##ign"]; ["it"]], [["x"]])]) as Hne
    by (repeat constructor; discriminate).
  split; [exact Hne|].
  apply (get_bpe_index_windows [([["al"; "##ign"]; ["it"]], [["x"]])] Hne).
Defined.

(** ** Averages over spans *)

Lemma mapR_Raise_uniform {A B} (f : A → result B) (e : exn) (l : list A) :
  (∀ x, x ∈ l → f x = Raise e ∨ ∃ y, f x = Ok y) →
  (∃ x, x ∈ l ∧ f x = Raise e) →
  mapR f l = Raise e.
Proof.
  induction l as [|x l IH]; intros Hall (x0 & Hin & Hx0).
  - by apply elem_of_nil in Hin.
  - simpl. destruct (Hall x) as [-> | [y Hy]]; [left|done|]. rewrite Hy. simpl.
    apply elem_of_cons in Hin as [-> | Hin]; [congruence|].
    rewrite IH; [done| |by exists x0]. intros z Hz. apply Hall. by right.
Qed.

Lemma take_rows {A} (V : list A) (idx : list nat) :
  (Forall (λ k, k < length V) idx → ∃ sel, Np.take V idx = Ok sel ∧ length sel = length idx) ∧
  (Exists (λ k, length V ≤ k) idx → Np.take V idx = Raise IndexError).
Proof.
  unfold Np.take. split.
  - intros H. destruct (mapR_Ok_Forall (getitem V) (λ _, True) idx) as (sel & Hs & _ & Hl).
    + eapply Forall_impl; [exact H|]. intros k Hk. cbv beta.
      destruct (getitem_lt V k Hk) as (a & Ha & _). by exists a.
    + eauto.
  - intros (k & Hin & Hk)%Exists_exists. apply mapR_Raise_uniform.
    + intros x _. destruct (decide (x < length V)) as [Hx|Hx].
      * right. destruct (getitem_lt V x Hx) as (a & Ha & _). by exists a.
      * left. apply getitem_ge. lia.
    + exists k. split; [done|]. by apply getitem_ge.
Qed.

Section SpanAverages.
Context {num : Numerics}.

Lemma span_vectors (V : list vec) (spans : list (list nat)) :
  (Forall (Forall (λ k, k < length V)) spans →
   ∃ vs, mapR (λ span_set, let? sel := Np.take V span_set in Ok (mean0 sel)) spans = Ok vs ∧
         length vs = length spans) ∧
  (Exists (Exists (λ k, length V ≤ k)) spans →
   mapR (λ span_set, let? sel := Np.take V span_set in Ok (mean0 sel)) spans
   = Raise IndexError).
Proof using Type.
  split.
  - intros H.
    destruct (mapR_Ok_Forall (λ span_set, let? sel := Np.take V span_set in Ok (mean0 sel))
                (λ _, True) spans) as (vs & Hvs & _ & Hl).
    + eapply Forall_impl; [exact H|]. intros span Hspan. cbv beta.
      destruct (proj1 (take_rows V span) Hspan) as (sel & -> & _). simpl. eauto.
    + eauto.
  - intros (span & Hin & Hspan)%Exists_exists. apply mapR_Raise_uniform.
    + intros x _. destruct (decide (Forall (λ k, k < length V) x)) as [Hx|Hx].
      * right. destruct (proj1 (take_rows V x) Hx) as (sel & -> & _). simpl. eauto.
      * left. apply not_Forall_Exists in Hx; [|apply _].
        rewrite (proj2 (take_rows V x)); [done|].
        eapply Exists_impl; [exact Hx|]. intros k Hk. unfold compose in Hk. lia.
    + exists span. split; [done|]. by rewrite (proj2 (take_rows V span)).
Qed.

(** X15.  [average_embeds_over_spans] returns exactly when every index of
    every span is the index of a vector of its side: then it returns one
    vector per span.  When an index is out of range it raises
    [IndexError]. *)
Theorem average_embeds_over_spans_spec (bpe_vectors : list vec * list vec)
    (span_tokens_pair : list (list nat) * list (list nat)) :
  (Forall (Forall (λ k, k < length bpe_vectors.1)) span_tokens_pair.1 ∧
   Forall (Forall (λ k, k < length bpe_vectors.2)) span_tokens_pair.2 →
   ∃ v0 v1,
     average_embeds_over_spans bpe_vectors span_tokens_pair = Ok (v0, v1) ∧
     length v0 = length span_tokens_pair.1 ∧
     length v1 = length span_tokens_pair.2) ∧
  (Exists (Exists (λ k, length bpe_vectors.1 ≤ k)) span_tokens_pair.1 ∨
   Exists (Exists (λ k, length bpe_vectors.2 ≤ k)) span_tokens_pair.2 →
   average_embeds_over_spans bpe_vectors span_tokens_pair = Raise IndexError).
Proof using Type.
  unfold average_embeds_over_spans. split.
  - intros [H1 H2].
    destruct (proj1 (span_vectors bpe_vectors.1 span_tokens_pair.1) H1) as (v0 & -> & L0).
    destruct (proj1 (span_vectors bpe_vectors.2 span_tokens_pair.2) H2) as (v1 & -> & L1).
    by exists v0, v1.
  - intros H.
    destruct (decide (Forall (Forall (λ k, k < length bpe_vectors.1)) span_tokens_pair.1))
      as [H1|H1].
    + destruct (proj1 (span_vectors bpe_vectors.1 span_tokens_pair.1) H1) as (v0 & -> & _).
      simpl. destruct H as [H|H].
      * exfalso. apply Exists_exists in H as (span & Hin & Hspan).
        eapply Forall_forall in H1; [|exact Hin].
        apply Exists_exists in Hspan as (k & Hk & Hge).
        eapply Forall_forall in H1; [|exact Hk]. simpl in H1. lia.
      * by rewrite (proj2 (span_vectors bpe_vectors.2 span_tokens_pair.2)).
    + rewrite (proj2 (span_vectors bpe_vectors.1 span_tokens_pair.1)); [done|].
      apply not_Forall_Exists in H1; [|apply _].
      eapply Exists_impl; [exact H1|]. intros span Hspan. unfold compose in Hspan.
      apply not_Forall_Exists in Hspan; [|apply _].
      eapply Exists_impl; [exact Hspan|]. intros k Hk. unfold compose in Hk. lia.
Qed.
End SpanAverages.

(** ** Matrices of zeros and ones *)

Lemma zero_one_like_zeros_like (a : ndarray) : zero_one_like a (Np.zeros_like a).
Proof.
  unfold zero_one_like, Np.zeros_like. apply Forall2_fmap_r, Forall_Forall2_diag.
  apply Forall_forall. intros r _. apply Forall2_fmap_r, Forall_Forall2_diag.
  apply Forall_forall. intros v _. by left.
Qed.

Lemma zero_one_like_zeros (a : ndarray) :
  Np.rectangular a → zero_one_like a (Np.zeros (Np.shape0 a) (Np.shape1 a)).
Proof.
  intros Hrect. unfold zero_one_like, Np.zeros, Np.full, Np.shape0.
  apply Forall2_same_length_lookup_2; [by rewrite length_replicate|].
  intros i r r' Hr Hr'. apply lookup_replicate in Hr' as [-> _].
  eapply Forall_lookup_1 in Hrect; [|exact Hr]. simpl in Hrect.
  apply Forall2_same_length_lookup_2; [by rewrite length_replicate|].
  intros j v v' _ Hv'. apply lookup_replicate in Hv' as [-> _]. by left.
Qed.

Lemma zero_one_like_set_cell (a A A' : ndarray) (x y : nat) :
  zero_one_like a A → Np.set_cell A x y Float.one = Ok A' → zero_one_like a A'.
Proof.
  unfold zero_one_like, Np.set_cell. intros HA H.
  destruct (A !! x) as [r|] eqn:Hr; [|done].
  destruct (decide (y < length r)); [|done]. injection H as <-.
  apply Forall2_same_length_lookup_2.
  { rewrite length_insert. by eapply Forall2_length. }
  intros i ra r' Hra Hr'. destruct (decide (x = i)) as [->|Hne].
  - rewrite list_lookup_insert_eq in Hr' by (by eapply lookup_lt_Some).
    injection Hr' as <-.
    pose proof (Forall2_lookup_lr _ _ _ _ _ _ HA Hra Hr) as Hrow.
    apply Forall2_same_length_lookup_2.
    { rewrite length_insert. by eapply Forall2_length. }
    intros j v v' Hv Hv'. destruct (decide (y = j)) as [->|Hne].
    + rewrite list_lookup_insert_eq in Hv' by done. injection Hv' as <-. by right.
    + rewrite list_lookup_insert_ne in Hv' by done.
      by eapply (Forall2_lookup_lr _ _ _ _ _ _ Hrow).
  - rewrite list_lookup_insert_ne in Hr' by done.
    by eapply (Forall2_lookup_lr _ _ _ _ _ _ HA).
Qed.

(** X16.  [get_max_weight_match] raises [ValueError] when networkx is not
    installed.  When it returns, the matrix it returns has the shape of the
    similarity matrix and holds [0.] and [1.] only, whatever edges the
    matching has. *)
Theorem get_max_weight_match_zero_one {num : Numerics} (sim : ndarray) :
  (nx = None → get_max_weight_match sim = Raise ValueError) ∧
  (∀ res_matrix, get_max_weight_match sim = Ok res_matrix →
     zero_one_like sim res_matrix).
Proof.
  unfold get_max_weight_match. split.
  - by intros ->.
  - intros res H. destruct nx as [max_weight_matching|]; [|done].
    eapply (foldR_preserves _ (zero_one_like sim)); [| |exact H].
    + clear. intros acc edge acc' Hacc H. cbv beta in H. unfold Np.set_cell_Z in H.
      destruct (Np.norm_index _ _) as [x|]; [|done]. simpl in H.
      destruct (Np.norm_index _ _) as [y|]; [|done]. simpl in H.
      by eapply zero_one_like_set_cell.
    + apply zero_one_like_zeros_like.
Qed.

(** ** What the greedy matcher returns *)

Lemma load_Ok (r : ref) (w w' : world) (a : ndarray) :
  load r w = (Ok a, w') → heap w !! r = Some a ∧ w' = w.
Proof. unfold load. destruct (heap w !! r); [|done]. by intros [= -> ->]. Qed.

(** Partial correctness of the loop: the alignment matrix stays a matrix
    of zeros and ones, and the loop is left on a maximum that is not
    positive. *)
Lemma iter_loop_post (r : ref) (src_spans tgt_spans : list (list nat)) (S0 : ndarray)
    (fuel : nat) :
  ∀ (A A' : ndarray) (w w' : world),
    zero_one_like S0 A →
    iter_loop fuel r src_spans tgt_spans A w = (Ok A', w') →
    zero_one_like S0 A' ∧
    ∃ a' top, heap w' !! r = Some a' ∧ Np.max a' = Ok top ∧
              Float.gtb top Float.zero = false.
Proof.
  induction fuel as [|fuel IH]; intros A A' w w' HA H; [done|]. simpl in H.
  inv_bind H as a Ha. apply load_Ok in Ha as [Ha ->].
  inv_bind H as top Htop. apply lift_Ok in Htop as [Htop ->].
  destruct (Float.gtb top Float.zero) eqn:Hpos.
  - inv_bind H as a1 Ha1. apply load_Ok in Ha1 as [_ ->].
    inv_bind H as top1 Htop1. apply lift_Ok in Htop1 as [_ ->].
    inv_bind H as xy Hxy. apply lift_Ok in Hxy as [_ ->]. destruct xy as [x y].
    inv_bind H as A1 HA1. apply lift_Ok in HA1 as [HA1 ->].
    do 3 inv_bind H.
    eapply IH; [|exact H]. by eapply zero_one_like_set_cell.
  - apply ret_Ok in H as [-> ->]. split; [done|]. by exists a, top.
Qed.

(** X17.  On an array whose rows and columns the span lists index,
    [get_alignmatrix_iter] returns a matrix of the shape of its argument
    that holds [0.] and [1.] only, and leaves in the caller's array a matrix
    whose maximum is not positive.  When no span is empty, the committed
    pairs form a partial matching of the spans: two distinct pairs share
    neither their source span nor their target span. *)
Theorem get_alignmatrix_iter_result (r : ref) (w : world) (S : ndarray)
    (src_spans tgt_spans : list (list nat)) :
  heap w !! r = Some S → fits S src_spans tgt_spans →
  ∃ A S', get_alignmatrix_iter r src_spans tgt_spans w = (Ok A, set_heap r S' w) ∧
          zero_one_like S A ∧
          (∃ top, Np.max S' = Ok top ∧ Float.gtb top Float.zero = false) ∧
          (Forall (λ span, span ≠ []) src_spans →
           Forall (λ span, span ≠ []) tgt_spans →
           ∀ x y x' y', committed A x y → committed A x' y' → (x = x' ↔ y = y')).
Proof.
  intros Hw Hfits.
  destruct (runs_get_alignmatrix_iter r S src_spans tgt_spans Hfits)
    as (A & S' & Hrun & Hinv).
  specialize (Hrun w Hw). exists A, S'. split; [done|].
  assert (zero_one_like S A ∧
          ∃ top, Np.max S' = Ok top ∧ Float.gtb top Float.zero = false) as [HA Hmax].
  { unfold get_alignmatrix_iter in Hrun.
    inv_bind Hrun as a Ha. apply load_Ok in Ha as [Ha ->].
    assert (a = S) as -> by congruence.
    apply iter_loop_post with (S0 := S) in Hrun as (HA & a' & top & Ha' & Hmax).
    - split; [done|]. exists top. rewrite (set_heap_lookup r S S' w Hw) in Ha'.
      by injection Ha' as <-.
    - apply zero_one_like_zeros. apply Hfits. }
  split; [done|]. split; [done|].
  intros Hsrc Htgt.
  destruct Hfits as (Hrect & _ & _ & Lsrc & Ltgt).
  assert (∀ x y, committed A x y → overlap src_spans x x ∧ overlap tgt_spans y y) as Hself.
  { intros x y (v & (rA & HrA & Hv)%cell_Some & _).
    destruct (Forall2_lookup_r _ _ _ _ _ HA HrA) as (rS & HrS & Hrow).
    assert (x < length src_spans) as Hx.
    { rewrite Lsrc. unfold Np.shape0. by eapply lookup_lt_Some. }
    assert (y < length tgt_spans) as Hy.
    { rewrite Ltgt. eapply Forall_lookup_1 in Hrect; [|exact HrS]. simpl in Hrect.
      rewrite <- Hrect, (Forall2_length _ _ _ Hrow). by eapply lookup_lt_Some. }
    destruct (lookup_lt_is_Some_2 _ _ Hx) as [sx Hsx].
    destruct (lookup_lt_is_Some_2 _ _ Hy) as [sy Hsy].
    eapply Forall_lookup_1 in Hsrc; [|exact Hsx].
    eapply Forall_lookup_1 in Htgt; [|exact Hsy]. simpl in *.
    destruct sx as [|e sx]; [done|]. destruct sy as [|e' sy]; [done|].
    split; [exists (e :: sx), (e :: sx), e | exists (e' :: sy), (e' :: sy), e'];
      repeat split; try done; left. }
  intros x y x' y' Hc Hc'.
  destruct (decide ((x, y) = (x', y'))) as [[= -> ->]|Hne]; [done|].
  destruct (inv_free _ _ _ _ _ Hinv x y x' y' Hc Hc' Hne) as [Hns Hnt].
  split; intros ->; exfalso.
  - apply Hns. by apply (Hself x' y).
  - apply Hnt. by apply (Hself x y').
Qed.

Lemma get_alignmatrix_iter_result_witness :
  (heap (MkWorld [Examples.sim3] []) !! 0 = Some Examples.sim3 ∧
   fits Examples.sim3 Examples.spans3 Examples.spans3) ∧
  ∃ A S', get_alignmatrix_iter 0 Examples.spans3 Examples.spans3
            (MkWorld [Examples.sim3] [])
          = (Ok A, set_heap 0 S' (MkWorld [Examples.sim3] [])) ∧
          zero_one_like Examples.sim3 A ∧
          (∃ top, Np.max S' = Ok top ∧ Float.gtb top Float.zero = false) ∧
          (Forall (λ span, span ≠ []) Examples.spans3 →
           Forall (λ span, span ≠ []) Examples.spans3 →
           ∀ x y x' y', committed A x y → committed A x' y' → (x = x' ↔ y = y')).
Proof.
  assert (fits Examples.sim3 Examples.spans3 Examples.spans3) as Hfits.
  { unfold fits, Np.rectangular. simpl. repeat split; try lia. repeat constructor. }
  split; [split; [reflexivity|exact Hfits]|].
  apply (get_alignmatrix_iter_result 0 (MkWorld [Examples.sim3] []) Examples.sim3
           Examples.spans3 Examples.spans3 eq_refl Hfits).
Defined.

(** ** A constant similarity matrix through [align_spans_iter] *)

Lemma shape_map1 (f : float → float) (a : ndarray) :
  Np.shape0 (Np.map1 f a) = Np.shape0 a ∧ Np.shape1 (Np.map1 f a) = Np.shape1 a.
Proof.
  unfold Np.shape0, Np.map1. split; [by rewrite length_map|].
  destruct a; simpl; [done|]. by rewrite length_map.
Qed.

Lemma concat_map1 (f : float → float) (a : ndarray) :
  concat (Np.map1 f a) = map f (concat a).
Proof.
  unfold Np.map1. induction a as [|r a IH]; simpl; [done|]. by rewrite map_app, IH.
Qed.

(** X18.  [align_spans_iter] feeds the matrix of [get_similarity_norm] to
    [get_alignmatrix_iter].  When the cosine-similarity matrix is constant
    (and has a cell), the normalised matrix holds NaN only, its maximum is
    not positive, and the matcher commits no pair: the alignment matrix is
    the zero matrix, and the new array is left full of NaN. *)
Theorem constant_similarity_commits_nothing {num : Numerics}
    (X Y : list vec) (data : ndarray) (c : float) (w : world)
    (src_spans tgt_spans : list (list nat)) :
  cosine_similarity X Y = Ok data →
  concat data ≠ [] →
  constant c data →
  (let* sim := get_similarity_norm X Y in
   get_alignmatrix_iter sim src_spans tgt_spans) w
  = (Ok (Np.zeros (Np.shape0 data) (Np.shape1 data)),
     MkWorld (heap w ++ [Np.map1 (λ _, S754_nan) data]) (trace w)).
Proof.
  intros Hcos Hne Hc.
  assert (get_similarity_norm X Y w =
            (Ok (length (heap w)),
             MkWorld (heap w ++ [Np.map1 (λ _, S754_nan) data]) (trace w))) as Hnorm.
  { unfold get_similarity_norm, bind, lift.
    rewrite Hcos. unfold Np.max, Np.min.
    rewrite !(reduce_constant _ c) by auto using maximum_diag, minimum_diag.
    unfold alloc. rewrite (map1_constant _ c) by done.
    by rewrite div_sub_diag. }
  unfold bind at 1. rewrite Hnorm.
  unfold get_alignmatrix_iter, bind, load. cbn [heap].
  rewrite lookup_app_r, Nat.sub_diag by done. cbn [lookup list_lookup].
  destruct (shape_map1 (λ _, S754_nan) data) as [-> ->].
  simpl. unfold bind, load. cbn [heap].
  rewrite lookup_app_r, Nat.sub_diag by done. cbn [lookup list_lookup].
  unfold lift, Np.max, Np.reduce. rewrite concat_map1.
  destruct (concat data) as [|v l]; [done|]. simpl.
  rewrite nan_not_positive; [done|].
  by rewrite fold_maximum_nan.
Qed.

Lemma constant_similarity_commits_nothing_witness :
  (cosine_similarity (Numerics := Reference.numerics)
     [[Float.one; Float.zero]] [[Float.one; Float.zero]; [Float.two; Float.zero]]
   = Ok [[Float.one; Float.one]] ∧
   concat [[Float.one; Float.one]] ≠ [] ∧
   constant Float.one [[Float.one; Float.one]]) ∧
  (let* sim := get_similarity_norm (num := Reference.numerics)
                 [[Float.one; Float.zero]] [[Float.one; Float.zero]; [Float.two; Float.zero]] in
   get_alignmatrix_iter sim [[0]] [[0]; [1]]) World.empty
  = (Ok (Np.zeros 1 2), MkWorld [[[S754_nan; S754_nan]]] []).
Proof.
  assert (cosine_similarity (Numerics := Reference.numerics)
            [[Float.one; Float.zero]] [[Float.one; Float.zero]; [Float.two; Float.zero]]
          = Ok [[Float.one; Float.one]]) as Hcos by (vm_compute; reflexivity).
  assert (concat [[Float.one; Float.one]] ≠ []) as Hne by discriminate.
  assert (constant Float.one [[Float.one; Float.one]]) as Hc by (repeat constructor).
  split; [by repeat split|].
  apply (constant_similarity_commits_nothing (num := Reference.numerics)
           [[Float.one; Float.zero]] [[Float.one; Float.zero]; [Float.two; Float.zero]]
           [[Float.one; Float.one]] Float.one World.empty [[0]] [[0]; [1]] Hcos Hne Hc).
Defined.

(** ** The null-alignment filters *)

Section NullAlignsProps.
Context {stats : Stats}.

Lemma entropy_mask_shape (entropy_x entropy_y : vec) (g : float → float) :
  let mask := Np.map1 g (Np.map2 Float.minimum
                           (Np.tile_cols entropy_x (length entropy_y))
                           (Np.tile_rows entropy_y (length entropy_x))) in
  length mask = length entropy_x ∧
  Forall (λ r, length r = length entropy_y ∧ Forall (λ v, ∃ u, v = g u) r) mask.
Proof using Type.
  simpl. unfold Np.map1, Np.map2, Np.tile_cols, Np.tile_rows. split.
  - rewrite length_map, length_zip_with, length_map, length_replicate. lia.
  - apply Forall_forall. intros r (r0 & -> & Hr0)%list_elem_of_fmap.
    apply elem_of_zip_with in Hr0 as (rx & ry & -> & Hrx & Hry).
    apply list_elem_of_fmap in Hrx as (ex & -> & _).
    apply elem_of_replicate in Hry as [-> _]. split.
    + rewrite length_map, length_zip_with, length_replicate. lia.
    + apply Forall_forall. intros v (u & -> & _)%list_elem_of_fmap. by exists u.
Qed.

(** X19.  [apply_percentile_null_aligns] returns a mask of ones on a matrix
    with at most two rows or at most two columns.  Whenever it returns, the
    mask has the shape of the similarity matrix and holds [0.] and [1.]
    only; with a NaN for [ratio] it holds [1.] only. *)
Theorem apply_percentile_null_aligns_mask (sim_matrix : ndarray) (ratio : float) :
  (Nat.min (Np.shape0 sim_matrix) (Np.shape1 sim_matrix) ≤ 2 →
   apply_percentile_null_aligns sim_matrix ratio
   = Ok (Np.ones (Np.shape0 sim_matrix) (Np.shape1 sim_matrix))) ∧
  (∀ ents_mask, apply_percentile_null_aligns sim_matrix ratio = Ok ents_mask →
     length ents_mask = Np.shape0 sim_matrix ∧
     Forall (λ r, length r = Np.shape1 sim_matrix ∧
                  Forall (λ v, v = Float.zero ∨ v = Float.one) r) ents_mask ∧
     (Float.is_nan ratio = true →
      ents_mask = Np.ones (Np.shape0 sim_matrix) (Np.shape1 sim_matrix))).
Proof using Type.
  unfold apply_percentile_null_aligns. split.
  - intros H. apply Nat.leb_le in H. by rewrite H.
  - intros ents_mask H.
    destruct (Nat.min _ _ <=? 2) eqn:Hsmall.
    { injection H as <-. unfold Np.ones, Np.full. rewrite length_replicate.
      split; [done|]. split; [|done].
      apply Forall_forall. intros r [-> _]%elem_of_replicate.
      rewrite length_replicate. split; [done|].
      apply Forall_forall. intros v [-> _]%elem_of_replicate. by right. }
    destruct (normalize_l1 sim_matrix) as [norm_x|]; [|done]. simpl in H.
    destruct (normalize_axis0 sim_matrix) as [norm_y|]; [|done]. simpl in H.
    destruct (mapR _ (range 0 (Np.shape0 sim_matrix))) as [entropy_x|] eqn:Hx; [|done].
    simpl in H.
    destruct (mapR _ (range 0 (Np.shape1 sim_matrix))) as [entropy_y|] eqn:Hy; [|done].
    simpl in H. injection H as <-.
    apply mapR_length in Hx, Hy. unfold range in Hx, Hy.
    rewrite length_seq, Nat.sub_0_r in Hx, Hy. rewrite <- Hx, <- Hy.
    destruct (entropy_mask_shape entropy_x entropy_y
                (λ v, if Float.gtb v ratio then Float.zero else Float.one)) as [Hlen Hrows].
    split; [exact Hlen|]. split.
    + eapply Forall_impl; [exact Hrows|]. intros r [Hr Hcells]. split; [done|].
      eapply Forall_impl; [exact Hcells|]. intros v [u ->].
      destruct (Float.gtb u ratio); auto.
    + intros Hnan. unfold Np.ones, Np.full.
      apply list_eq_same_length with (length entropy_x);
        [by rewrite length_replicate | exact Hlen |].
      intros i r r' Hi Hr Hr'. apply lookup_replicate in Hr' as [-> _].
      eapply Forall_lookup_1 in Hrows as [Hlr Hcells]; [|exact Hr].
      apply list_eq_same_length with (length entropy_y);
        [by rewrite length_replicate | done |].
      intros j v v' Hj Hv Hv'. apply lookup_replicate in Hv' as [-> _].
      eapply Forall_lookup_1 in Hcells as [u ->]; [|exact Hv].
      assert (Float.gtb u ratio = false) as ->; [|done].
      unfold Float.gtb. destruct ratio; done.
Qed.

(** X20.  [gather_null_aligns] returns no value on a matrix with at most two
    rows or at most two columns.  Whenever it returns, every value it
    returns is positive. *)
Theorem gather_null_aligns_positive (sim_matrix inter_matrix : ndarray) :
  (Nat.min (Np.shape0 sim_matrix) (Np.shape1 sim_matrix) ≤ 2 →
   gather_null_aligns sim_matrix inter_matrix = Ok []) ∧
  (∀ ents, gather_null_aligns sim_matrix inter_matrix = Ok ents →
     Forall (λ x, Float.gtb x Float.zero = true ∧ Float.is_nan x = false) ents).
Proof using Type.
  unfold gather_null_aligns. split.
  - intros H. apply Nat.leb_le in H. by rewrite H.
  - intros ents H. destruct (Nat.min _ _ <=? 2); [by injection H as <-|].
    destruct (normalize_l1 sim_matrix) as [norm_x|]; [|done]. simpl in H.
    destruct (normalize_axis0 sim_matrix) as [norm_y|]; [|done]. simpl in H.
    destruct (mapR _ (range 0 (Np.shape0 sim_matrix))) as [entropy_x|]; [|done].
    simpl in H.
    destruct (mapR _ (range 0 (Np.shape1 sim_matrix))) as [entropy_y|]; [|done].
    simpl in H.
    destruct (broadcast2 _ _ _) as [all_ents|]; [|done]. simpl in H.
    injection H as <-. apply Forall_forall. intros x [Hx _]%list_elem_of_filter.
    split; [done|]. by destruct x.
Qed.
End NullAlignsProps.
